(** * gorrent/bencode: decoder and encoder, embedded and verified

    The development follows the newest revision of the package:
    the decoder of [decoder.go] (type [Decoder], functions [Decode],
    [DecodeAll], [nextObject], [nextInteger], [nextString], [nextList],
    [nextDict]) and the encoder built around the type [Encoder] ([Encode],
    [encodeObject], [encodeString], [encodeInteger], [encodeList],
    [encodeDict]); and [metainfo.go], which uses both ([ReadFromFile],
    [InfoHash]).

    Conventions of the embedding.
    - A Go [[]byte] is a [list ascii]; a Go [string] is a [string]; the
      conversions [string(b)] and [[]byte(s)] are [string_of_list_ascii] and
      [list_ascii_of_string].
    - A Go [map[string]interface{}] is a [gmap string Value]; the statement
      [m[k] = v] is [<[k:=v]> m].
    - Positions ([pos], [idx], [len_end]) are natural numbers: the code only
      ever increments them from 0.
    - A Go return [(res, err)] with [err != nil] is [Fail err]; by Go's
      convention the accompanying [res] is not a result and is not modelled.
    - Indexing a slice out of range raises a run-time panic: [Panic].
    - The recursion of [nextObject] through [nextList] and [nextDict] is by
      fuel; [OutOfFuel] is an artefact of the model, and [Decode] is shown
      never to produce it. *)

From Stdlib Require Import ZArith NArith Ascii String Lia.
From stdpp Require Import base option list gmap strings sorting.

(** ** Bytes *)

(** [[]byte("...")] *)
Definition bytes (s : string) : list ascii := list_ascii_of_string s.

(** [c < '0' || c > '9'] *)
Definition notDigit (c : ascii) : bool := (c <? "0")%char || ("9" <? c)%char.

(** [c >= '0' && c <= '9'] *)
Definition isDigit (c : ascii) : bool := ("0" <=? c)%char && (c <=? "9")%char.

(** [b[lo:hi]]: panics (here [None]) unless [lo <= hi <= len(b)]. *)
Definition slice (b : list ascii) (lo hi : nat) : option (list ascii) :=
  if decide (lo ≤ hi ∧ hi ≤ length b) then Some (take (hi - lo) (drop lo b))
  else None.

(** ** The part of Go's [strconv] and [fmt] that the package calls *)

Module strconv.

Inductive NumError : Type := ErrSyntax | ErrRange.

Definition maxUint64 : N := 2 ^ 64 - 1.

(** The loop of [ParseUint(s, 10, bitSize)]: [n] is the value read so far,
    kept in 64 bits; [cutoff] is [maxUint64/10 + 1]. *)
Fixpoint parseUintLoop (maxVal : N) (cs : list ascii) (n : N) : N + NumError :=
  match cs with
  | [] => inl n
  | c :: cs' =>
      if isDigit c then
        let d := (N_of_ascii c - 48)%N in
        if (maxUint64 / 10 + 1 <=? n)%N then inr ErrRange
        else
          let n := (n * 10)%N in
          let n1 := ((n + d) mod 2 ^ 64)%N in
          if (n1 <? n)%N || (maxVal <? n1)%N then inr ErrRange
          else parseUintLoop maxVal cs' n1
      else inr ErrSyntax
  end.

Definition ParseUint (cs : list ascii) (bitSize : N) : N + NumError :=
  match cs with
  | [] => inr ErrSyntax
  | _ => parseUintLoop (2 ^ bitSize - 1)%N cs 0%N
  end.

(** [ParseInt(s, 10, bitSize)] *)
Definition ParseInt (s : string) (bitSize : N) : Z + NumError :=
  match list_ascii_of_string s with
  | [] => inr ErrSyntax
  | c :: rest =>
      let neg := Ascii.eqb c "-" in
      let digits := if Ascii.eqb c "+" || Ascii.eqb c "-" then rest else c :: rest in
      match ParseUint digits bitSize with
      | inr e => inr e
      | inl un =>
          let cutoff := (2 ^ (bitSize - 1))%N in
          if negb neg && (cutoff <=? un)%N then inr ErrRange
          else if neg && (cutoff <? un)%N then inr ErrRange
          else inl (if neg then - Z.of_N un else Z.of_N un)%Z
      end
  end.

(** [Atoi(s)] is [ParseInt(s, 10, 0)] converted to [int]; [int] has 64
    bits. *)
Definition Atoi (s : string) : Z + NumError := ParseInt s 64.

(** Decimal digits of [u], most significant first, put in front of [acc];
    [fuel] bounds the number of digits. *)
Fixpoint formatBits (fuel : nat) (u : N) (acc : list ascii) : list ascii :=
  match fuel with
  | O => acc
  | S fuel' =>
      if (u <? 10)%N then ascii_of_N (48 + u) :: acc
      else formatBits fuel' (u / 10)%N (ascii_of_N (48 + u mod 10) :: acc)
  end.

Definition FormatUint (u : N) : list ascii := formatBits (S (N.size_nat u)) u [].

(** [FormatInt(i, 10)], which is what the verb [%d] prints. *)
Definition FormatInt (i : Z) : list ascii :=
  if (i <? 0)%Z then "-"%char :: FormatUint (Z.to_N (- i)) else FormatUint (Z.to_N i).

End strconv.

(** ** Values

    What [Decode] returns and [Encode] accepts inside an [interface{}]:
    [int64], [string], [[]interface{}] and [map[string]interface{}]. *)

#[warnings="-register-all"] Inductive Value : Type :=
| VInteger (i : Z)
| VString (s : string)
| VList (l : list Value)
| VDict (m : gmap string Value).

(** ** Decoder *)

Record Decoder : Type := mkDecoder {
  stream : list ascii;
  pos : nat;
  Consumed : bool
}.

Definition NewDecoder (b : list ascii) : Decoder := mkDecoder b 0 false.

Definition set_pos (d : Decoder) (p : nat) : Decoder :=
  mkDecoder (stream d) p (Consumed d).

Definition set_Consumed (d : Decoder) (c : bool) : Decoder :=
  mkDecoder (stream d) (pos d) c.

Inductive error : Type :=
| ErrorConsumed                      (* "This parser's token stream is consumed!" *)
| ErrorNoTerminator                  (* "No terminating 'e' found!" *)
| ErrNoStartingI                     (* "No starting 'i' found" *)
| ErrInvalidByte (c : ascii)         (* "Invalid byte '%s' in encoded integer." *)
| ErrNoBytesInInteger                (* "No bytes in integer" *)
| ErrLeadingZeros                    (* "Leading Zeros are not allowed in bencoded integers!" *)
| ErrParseInt (e : strconv.NumError) (* the error of strconv.ParseInt *)
| ErrNoStringLength                  (* "No string length determinator found" *)
| ErrNoStringFound                   (* "No string found ..." *)
| ErrStringLength (e : strconv.NumError) (* "Couldn't parse string length specifier: %s" *)
| ErrLengthTooLong                   (* "Specified length longer than data buffer ..." *)
| ErrNotAList                        (* "This is not a list!" *)
| ErrNotADict                        (* "This is not a dict!" *)
| ErrCouldntParse (p : nat) (c : ascii). (* "Couldn't parse '%s' index %d (%s)" *)

Inductive result (A : Type) : Type :=
| Ret (a : A) (d : Decoder)
| Fail (e : error) (d : Decoder)
| Panic
| OutOfFuel.
Arguments Ret {A} a d.
Arguments Fail {A} e d.
Arguments Panic {A}.
Arguments OutOfFuel {A}.

Definition result_map {A B : Type} (f : A → B) (r : result A) : result B :=
  match r with
  | Ret a d => Ret (f a) d
  | Fail e d => Fail e d
  | Panic => Panic
  | OutOfFuel => OutOfFuel
  end.

(** Outcome of one of the two scanning loops. *)
Inductive scan : Type :=
| ScanAt (idx : nat)
| ScanFail (e : error)
| ScanPanic.

(** The loop [for self.stream[idx] != 'e' { ... }] of [nextInteger];
    [rest] is [self.stream[idx:]]. *)
Fixpoint scanInteger (rest : list ascii) (idx : nat) : scan :=
  match rest with
  | [] => ScanPanic
  | c :: rest' =>
      if Ascii.eqb c "e" then ScanAt idx
      else if notDigit c then ScanFail (ErrInvalidByte c)
      else
        match rest' with
        | [] => ScanFail ErrorNoTerminator
        | _ => scanInteger rest' (S idx)
        end
  end.

Definition nextInteger (d : Decoder) : result Z :=
  match stream d !! pos d with
  | None => Panic
  | Some c =>
      if negb (Ascii.eqb c "i") then Fail ErrNoStartingI d
      else
        let d := set_pos d (pos d + 1) in
        let idx := pos d in
        match stream d !! idx with
        | None => Panic
        | Some c1 =>
            let idx := if Ascii.eqb c1 "-" then idx + 1 else idx in
            let start := idx in
            match scanInteger (drop idx (stream d)) idx with
            | ScanPanic => Panic
            | ScanFail e => Fail e d
            | ScanAt idx =>
                if start =? idx then Fail ErrNoBytesInInteger d
                else
                  match stream d !! start with
                  | None => Panic
                  | Some c0 =>
                      if Ascii.eqb c0 "0" && (1 <? idx - start) then Fail ErrLeadingZeros d
                      else
                        match slice (stream d) (pos d) idx with
                        | None => Panic
                        | Some s =>
                            match strconv.ParseInt (string_of_list_ascii s) 64 with
                            | inr e => Fail (ErrParseInt e) d
                            | inl res => Ret res (set_pos d (idx + 1))
                            end
                        end
                  end
            end
        end
  end.

(** The loop [for self.stream[len_end] != ':' { ... }] of [nextString];
    [rest] is [self.stream[len_end:]]. *)
Fixpoint scanLength (rest : list ascii) (len_end : nat) : scan :=
  match rest with
  | [] => ScanPanic
  | c :: rest' =>
      if Ascii.eqb c ":" then ScanAt len_end
      else
        match rest' with
        | [] => ScanFail ErrNoStringFound
        | _ => scanLength rest' (S len_end)
        end
  end.

Definition nextString (d : Decoder) : result string :=
  match stream d !! pos d with
  | None => Panic
  | Some c =>
      if notDigit c then Fail ErrNoStringLength d
      else
        let len_start := pos d in
        match scanLength (drop (pos d) (stream d)) (pos d) with
        | ScanPanic => Panic
        | ScanFail e => Fail e d
        | ScanAt len_end =>
            match slice (stream d) len_start len_end with
            | None => Panic
            | Some len_str =>
                match strconv.Atoi (string_of_list_ascii len_str) with
                | inr e => Fail (ErrStringLength e) d
                | inl l =>
                    if (Z.of_nat (length (drop len_end (stream d))) <=? l)%Z
                    then Fail ErrLengthTooLong d
                    else if (l <? 0)%Z then Panic
                    else
                      let len_end := len_end + 1 in
                      match slice (stream d) len_end (len_end + Z.to_nat l) with
                      | None => Panic
                      | Some s =>
                          Ret (string_of_list_ascii s) (set_pos d (len_end + Z.to_nat l))
                      end
                end
            end
        end
  end.

(** The tail of [nextObject]: [if self.pos >= len(self.stream) {
    self.Consumed = true }], run whatever the outcome of the switch. *)
Definition markConsumed (d : Decoder) : Decoder :=
  if length (stream d) <=? pos d then set_Consumed d true else d.

Definition finish {A : Type} (r : result A) : result A :=
  match r with
  | Ret a d => Ret a (markConsumed d)
  | Fail e d => Fail e (markConsumed d)
  | Panic => Panic
  | OutOfFuel => OutOfFuel
  end.

(** The bodies of the three functions that call each other, each taking the
    functions it calls as arguments; the recursion is closed below. *)

Definition nextObjectBody
    (nextList : Decoder → result (list Value))
    (nextDict : Decoder → result (gmap string Value))
    (d : Decoder) : result Value :=
  if Consumed d then Fail ErrorConsumed d
  else
    match stream d !! pos d with
    | None => Panic
    | Some c =>
        finish
          (if Ascii.eqb c "i" then result_map VInteger (nextInteger d)
           else if Ascii.eqb c "l" then result_map VList (nextList d)
           else if Ascii.eqb c "d" then result_map VDict (nextDict d)
           else if isDigit c then result_map VString (nextString d)
           else Fail (ErrCouldntParse (pos d) c) d)
    end.

(** One turn of the [for { ... }] loop of [nextList]; [res] is the list
    built so far, [again] the next turn. *)
Definition listLoopBody
    (nextObject : Decoder → result Value)
    (again : list Value → Decoder → result (list Value))
    (res : list Value) (d : Decoder) : result (list Value) :=
  match nextObject d with
  | Ret obj d =>
      let res := res ++ [obj] in
      if length (stream d) <=? pos d then Fail ErrorNoTerminator d
      else
        match stream d !! pos d with
        | None => Panic
        | Some c =>
            if Ascii.eqb c "e" then Ret res (set_pos d (pos d + 1))
            else again res d
        end
  | Fail e d => Fail e d
  | Panic => Panic
  | OutOfFuel => OutOfFuel
  end.

Definition nextListBody
    (listLoop : list Value → Decoder → result (list Value))
    (d : Decoder) : result (list Value) :=
  match stream d !! pos d with
  | None => Panic
  | Some c =>
      if negb (Ascii.eqb c "l") then Fail ErrNotAList d
      else
        let d := set_pos d (pos d + 1) in
        match stream d !! pos d with
        | None => Panic
        | Some c =>
            if Ascii.eqb c "e" then Ret [] (set_pos d (pos d + 1))
            else listLoop [] d
        end
  end.

(** One turn of the [for { ... }] loop of [nextDict]; [res] is the map built
    so far, [again] the next turn. *)
Definition dictLoopBody
    (nextObject : Decoder → result Value)
    (again : gmap string Value → Decoder → result (gmap string Value))
    (res : gmap string Value) (d : Decoder) : result (gmap string Value) :=
  match nextString d with
  | Ret key d =>
      match nextObject d with
      | Ret val d =>
          let res := <[key := val]> res in
          if length (stream d) <=? pos d then Fail ErrorNoTerminator d
          else
            match stream d !! pos d with
            | None => Panic
            | Some c =>
                if Ascii.eqb c "e" then Ret res (set_pos d (pos d + 1))
                else again res d
            end
      | Fail e d => Fail e d
      | Panic => Panic
      | OutOfFuel => OutOfFuel
      end
  | Fail e d => Fail e d
  | Panic => Panic
  | OutOfFuel => OutOfFuel
  end.

Definition nextDictBody
    (dictLoop : gmap string Value → Decoder → result (gmap string Value))
    (d : Decoder) : result (gmap string Value) :=
  match stream d !! pos d with
  | None => Panic
  | Some c =>
      if negb (Ascii.eqb c "d") then Fail ErrNotADict d
      else
        let d := set_pos d (pos d + 1) in
        let res : gmap string Value := ∅ in
        match stream d !! pos d with
        | None => Panic
        | Some c =>
            if Ascii.eqb c "e" then Ret res (set_pos d (pos d + 1))
            else dictLoop res d
        end
  end.

Fixpoint nextObject (fuel : nat) (d : Decoder) {struct fuel} : result Value :=
  match fuel with
  | O => OutOfFuel
  | S fuel =>
      nextObjectBody (nextListBody (listLoop fuel)) (nextDictBody (dictLoop fuel)) d
  end

with listLoop (fuel : nat) (res : list Value) (d : Decoder) {struct fuel}
  : result (list Value) :=
  match fuel with
  | O => OutOfFuel
  | S fuel => listLoopBody (nextObject fuel) (listLoop fuel) res d
  end

with dictLoop (fuel : nat) (res : gmap string Value) (d : Decoder) {struct fuel}
  : result (gmap string Value) :=
  match fuel with
  | O => OutOfFuel
  | S fuel => dictLoopBody (nextObject fuel) (dictLoop fuel) res d
  end.

Definition nextList (fuel : nat) : Decoder → result (list Value) :=
  nextListBody (listLoop fuel).

Definition nextDict (fuel : nat) : Decoder → result (gmap string Value) :=
  nextDictBody (dictLoop fuel).

(** Fuel that [nextObject] cannot exhaust on the stream of [d]. *)
Definition fuelFor (d : Decoder) : nat := S (2 * length (stream d)).

(** [Decode] reads one object from the input stream. *)
Definition Decode (d : Decoder) : result Value := nextObject (fuelFor d) d.

(** The loop of [DecodeAll]: [res] holds the objects read so far and [err]
    what the clauses of the [for] statement have assigned to [err]
    ([ErrorConsumed] before the first turn, [nil] after each turn). Each turn
    moves the cursor, so the length of the stream bounds the turns. With an
    error the source returns the objects read so far as well; [Fail] keeps
    the error and the decoder. *)
Fixpoint DecodeAllLoop (fuel : nat) (res : list Value) (err : option error)
    (d : Decoder) : result (list Value) :=
  match fuel with
  | O => OutOfFuel
  | S fuel =>
      if negb (Consumed d) then
        match nextObject (fuelFor d) d with
        | Ret obj d => DecodeAllLoop fuel (res ++ [obj]) None d
        | Fail e d => Fail e d
        | Panic => Panic
        | OutOfFuel => OutOfFuel
        end
      else
        match err with
        | Some e => Fail e d
        | None => Ret res d
        end
  end.

(** [DecodeAll] reads all objects from the input stream. *)
Definition DecodeAll (d : Decoder) : result (list Value) :=
  DecodeAllLoop (S (length (stream d))) [] (Some ErrorConsumed) d.

(** ** Encoder *)

Record Encoder : Type := mkEncoder { Bytes : list ascii }.

Definition NewEncoder : Encoder := mkEncoder [].

(** [fmt.Sprintf("%d:%s", len(s), s)], unless [s] is empty. *)
Definition encodeString (s : string) : list ascii :=
  if String.length s <=? 0 then []
  else strconv.FormatInt (Z.of_nat (String.length s)) ++ ":"%char :: list_ascii_of_string s.

(** [fmt.Sprintf("i%de", i)] *)
Definition encodeInteger (i : Z) : list ascii :=
  "i"%char :: strconv.FormatInt i ++ ["e"%char].

(** The body of [encodeList], given the encodings [enc.encodeObject(obj)] of
    the elements of the list, in order. *)
Definition encodeListOf (objs : list (list ascii)) : list ascii :=
  if length objs <=? 0 then []
  else foldl (λ ret obj, ret ++ obj) ["l"%char] objs ++ ["e"%char].

(** [sort.Strings]: ascending in Go's [<] on strings, which compares byte by
    byte. The result of sorting does not depend on the algorithm, the order
    being total and antisymmetric. *)
Definition sortStrings (a : list string) : list string := merge_sort String.le a.

(** The body of [encodeDict] after the keys are collected: [keys] is what
    [for k := range m { keys = append(keys, k) }] built, in the order the
    map was iterated, and [objs] binds each key [k] to the encoding
    [enc.encodeObject(m[k])]. Every key comes from the map, so the default
    of the lookup is never used. *)
Definition encodeDictFrom (keys : list string) (objs : gmap string (list ascii))
  : list ascii :=
  if size objs <=? 0 then []
  else
    let keys := sortStrings keys in
    foldl (λ ret k, (ret ++ encodeString k) ++ default [] (objs !! k)) ["d"%char] keys
      ++ ["e"%char].

(** Go iterates a map in an unspecified order; the model iterates in the
    order of [map_to_list]. *)
Definition rangeKeys {A : Type} (m : gmap string A) : list string :=
  (map_to_list m).*1.

Definition encodeDictOf (objs : gmap string (list ascii)) : list ascii :=
  encodeDictFrom (rangeKeys objs) objs.

(** The recursion goes through [fmap] to be structural; [encodeList] and
    [encodeDict] below, with their equations, give the source's shape. *)
Fixpoint encodeObject (v : Value) : list ascii :=
  match v with
  | VString s => encodeString s
  | VInteger i => encodeInteger i
  | VList l => encodeListOf (encodeObject <$> l)
  | VDict m => encodeDictOf (encodeObject <$> m)
  end.

Definition encodeList (l : list Value) : list ascii :=
  encodeListOf (encodeObject <$> l).

Definition encodeDict (m : gmap string Value) : list ascii :=
  encodeDictOf (encodeObject <$> m).

(** [Encoder.Encode]: the encoding is appended to [enc.Bytes] if it is not
    empty. *)
Definition Encoder_Encode (enc : Encoder) (v : Value) : Encoder :=
  let b := encodeObject v in
  if 0 <? length b then mkEncoder (Bytes enc ++ b) else enc.

(** [Encode] returns the bencoded byte stream of one object. *)
Definition Encode (v : Value) : list ascii :=
  Bytes (Encoder_Encode NewEncoder v).

(** The map built by [m[k] = v] for each entry of [l], in order, from the
    empty map. *)
Definition insertAll (l : list (string * Value)) : gmap string Value :=
  foldl (λ m kv, <[kv.1 := kv.2]> m) ∅ l.

(** ** Older revisions

    The sources also hold an older revision of [nextInteger] and an older,
    package-level encoder. They are embedded here to state where they
    differ from the revision followed above. *)

Module Legacy.

(** The loop [for { ... }] of the older [nextInteger]; [rest] is
    [self.stream[idx:]] and [validstart] the flag of the same name. *)
Fixpoint scanInteger (rest : list ascii) (idx : nat) (validstart : bool) : scan :=
  match rest with
  | [] => ScanPanic
  | c :: rest' =>
      if Ascii.eqb c "e" then ScanAt idx
      else if Ascii.eqb c "0" && negb validstart then ScanFail ErrLeadingZeros
      else if notDigit c && negb (Ascii.eqb c "-") then ScanFail (ErrInvalidByte c)
      else
        match rest' with
        | [] => ScanFail ErrorNoTerminator
        | _ => scanInteger rest' (S idx) true
        end
  end.

(** [strconv.Atoi64(s)] is [ParseInt(s, 10, 64)]. *)
Definition nextInteger (d : Decoder) : result Z :=
  match stream d !! pos d with
  | None => Panic
  | Some c =>
      if negb (Ascii.eqb c "i") then Fail ErrNoStartingI d
      else
        let idx := pos d + 1 in
        match scanInteger (drop idx (stream d)) idx false with
        | ScanPanic => Panic
        | ScanFail e => Fail e d
        | ScanAt idx =>
            match slice (stream d) (pos d + 1) idx with
            | None => Panic
            | Some s =>
                match strconv.ParseInt (string_of_list_ascii s) 64 with
                | inr e => Fail (ErrParseInt e) d
                | inl res => Ret res (set_pos d (idx + 1))
                end
            end
        end
  end.

(** [fmt.Sprintf("%d:%s", l, s)] *)
Definition encodeString (s : string) : list ascii :=
  strconv.FormatInt (Z.of_nat (String.length s)) ++ ":"%char :: list_ascii_of_string s.

(** The body of the older [encodeList], given the encodings of the
    elements. *)
Definition encodeListOf (objs : list (list ascii)) : list ascii :=
  foldl (λ ret obj, ret ++ obj) ["l"%char] objs ++ ["e"%char].

(** The body of the older [encodeDict]; [entries] holds each key with the
    encoding of its value, in the order in which [for k, v := range m]
    hands them out. *)
Definition encodeDictOf (entries : list (string * list ascii)) : list ascii :=
  foldl (λ ret kv, (ret ++ encodeString kv.1) ++ kv.2) ["d"%char] entries ++ ["e"%char].

(** One run of the older [encodeObject]. Go iterates a map in an unspecified
    order; in this run every [for k, v := range m] hands out the entries of
    its map in the order of [map_to_list]. It writes input streams for the
    decoder; [encodes] below has every run of the encoder. *)
Fixpoint encodeObject (v : Value) : list ascii :=
  match v with
  | VString s => encodeString s
  | VInteger i => encodeInteger i
  | VList l => encodeListOf (encodeObject <$> l)
  | VDict m => encodeDictOf (map_to_list (encodeObject <$> m))
  end.

Definition Encode (v : Value) : list ascii := encodeObject v.

(** The older [encodeObject] with the order of iteration left open:
    [encodes v b] holds when [b] is what the encoder returns for [v] in some
    run. For a list the elements are encoded in order; for a dictionary
    [es] is the order, any one, in which [for k, v := range m] hands out the
    entries of [m], and [entries] holds each key with what [encodeObject]
    returns for its value. The order may differ from one map to the next
    and from one call to the next. *)
#[warnings="-register-all"] Inductive encodes : Value → list ascii → Prop :=
| encodes_String (s : string) : encodes (VString s) (encodeString s)
| encodes_Integer (i : Z) : encodes (VInteger i) (encodeInteger i)
| encodes_List (l : list Value) (objs : list (list ascii)) :
    Forall2 encodes l objs → encodes (VList l) (encodeListOf objs)
| encodes_Dict (m : gmap string Value) (es : list (string * Value))
    (entries : list (string * list ascii)) :
    es ≡ₚ map_to_list m →
    Forall2 (λ kv e, e.1 = kv.1 ∧ encodes kv.2 e.2) es entries →
    encodes (VDict m) (encodeDictOf entries).

End Legacy.

(** ** Metainfo files ([metainfo.go]) *)

Record MetaInfo : Type := mkMetaInfo {
  raw : list ascii;
  parsed : gmap string Value
}.

Inductive metaError : Type :=
| ErrReadFile                           (* the error of ioutil.ReadFile *)
| ErrCouldntParseTorrent (e : error).   (* "Couldn't parse torrent: " + err.Error() *)

(** Outcome of a method of [MetaInfo]: what it returns and the [MetaInfo] it
    leaves, or a run-time panic. [NoFuel] is for a [Decode] that has run out
    of fuel. *)
Inductive outcome (A : Type) : Type :=
| Returned (a : A) (mi : MetaInfo)
| Panicked
| NoFuel.
Arguments Returned {A} a mi.
Arguments Panicked {A}.
Arguments NoFuel {A}.

(** [ReadFromFile]; the files that [ioutil.ReadFile] can read are those of
    [fs], with their contents. The result is the error, [None] for [nil].
    The type assertion [o.(map[string]interface{})] panics on a value that
    is not a dictionary. *)
Definition ReadFromFile (fs : gmap string (list ascii)) (filename : string)
    (mi : MetaInfo) : outcome (option metaError) :=
  match fs !! filename with
  | None => Returned (Some ErrReadFile) mi
  | Some b =>
      let mi := mkMetaInfo b (parsed mi) in
      match Decode (NewDecoder b) with
      | Fail e _ => Returned (Some (ErrCouldntParseTorrent e)) mi
      | Ret (VDict m) _ => Returned None (mkMetaInfo (raw mi) m)
      | Ret _ _ => Panicked
      | Panic => Panicked
      | OutOfFuel => NoFuel
      end
  end.

(** [InfoHash]; [sha1] stands for [crypto/sha1], which is not part of the
    sources. A missing key gives the [nil] interface, on which the type
    assertion panics as it does on a value that is not a dictionary. *)
Definition InfoHash (sha1 : list ascii → list ascii) (mi : MetaInfo)
  : outcome (list ascii) :=
  match parsed mi !! "info"%string with
  | Some (VDict d) => Returned (sha1 (Encode (VDict d))) mi
  | _ => Panicked
  end.

(** The zero value of [MetaInfo]. *)
Definition newMetaInfo : MetaInfo := mkMetaInfo [] ∅.

(** ** Vocabulary of the statements *)

Definition digitVal (c : ascii) : N := (N_of_ascii c - 48)%N.

(** Value of a digit string read most significant digit first. *)
Definition digitsVal (ds : list ascii) : N :=
  foldl (λ n c, n * 10 + digitVal c)%N 0%N ds.

Definition readDigit (n : N) (c : ascii) : N := (n * 10 + digitVal c)%N.

(** [int64] *)
Definition int64 (i : Z) : Prop := (- 2 ^ 63 ≤ i < 2 ^ 63)%Z.

Definition resLe {A : Type} (r r' : result A) : Prop := r = OutOfFuel ∨ r = r'.

Definition advances {A : Type} (d : Decoder) (r : result A) : Prop :=
  match r with
  | Ret _ d' => stream d' = stream d ∧ pos d < pos d' ≤ length (stream d)
  | Fail _ d' => stream d' = stream d
  | Panic | OutOfFuel => True
  end.

Fixpoint vsize (v : Value) : nat :=
  match v with
  | VInteger _ | VString _ => 1
  | VList l => S (foldr (λ x n, vsize x + n) 0 l)
  | VDict m => S (map_fold (λ _ x n, vsize x + n) 0 m)
  end.

(** A string that Go can hold: its length fits [int]. *)
Definition goString (s : string) : bool := (Z.of_nat (String.length s) <? 2 ^ 63)%Z.

(** The integers of [v] are [int64] and its strings are strings of Go. *)
Fixpoint representable (v : Value) : bool :=
  match v with
  | VInteger i => (- 2 ^ 63 <=? i)%Z && (i <? 2 ^ 63)%Z
  | VString s => goString s
  | VList l => forallb representable l
  | VDict m => map_fold (λ k x b, goString k && representable x && b) true m
  end.

Definition nonEmptyString (s : string) : bool := negb (String.length s =? 0).

(** No string, list or dictionary inside [v], [v] included and the keys of
    dictionaries included, is empty. *)
Fixpoint noEmpty (v : Value) : bool :=
  match v with
  | VInteger _ => true
  | VString s => nonEmptyString s
  | VList l => negb (length l =? 0) && forallb noEmpty l
  | VDict m =>
      negb (size m =? 0) && map_fold (λ k x b, nonEmptyString k && noEmpty x && b) true m
  end.

(** What [encodeDict] appends for the key [k]: [enc.encodeString(k)] and
    [enc.encodeObject(m[k])]. *)
Definition encodeEntry (m : gmap string Value) (k : string) : list ascii :=
  encodeString k ++ default [] (encodeObject <$> m !! k).

(** [nextObject] reads [v] back from the bytes [enc v] at the cursor and
    leaves the cursor behind them; these bytes do not start with ['e'], which
    would close the list or dictionary around them. *)
Definition readsBack (enc : Value → list ascii) (v : Value) : Prop :=
  (∃ c r, enc v = c :: r ∧ Ascii.eqb c "e" = false)
  ∧ ∀ d suf,
      Consumed d = false →
      drop (pos d) (stream d) = enc v ++ suf →
      ∃ fuel, nextObject fuel d
              = Ret v (markConsumed (set_pos d (pos d + length (enc v)))).

(** [nextString] reads the key [k] back from the bytes [encKey k], which
    start with a digit. *)
Definition readsKey (encKey : string → list ascii) (k : string) : Prop :=
  (∃ c r, encKey k = c :: r ∧ isDigit c = true)
  ∧ ∀ d suf,
      drop (pos d) (stream d) = encKey k ++ suf →
      nextString d = Ret k (set_pos d (pos d + length (encKey k))).

(** What a dictionary stream holds for one entry: the key as a string, then
    the value. *)
Definition wireEntry (encKey : string → list ascii) (enc : Value → list ascii)
    (kv : string * Value) : list ascii :=
  encKey kv.1 ++ enc kv.2.

Definition insertEntry (m : gmap string Value) (kv : string * Value) : gmap string Value :=
  <[kv.1 := kv.2]> m.

(** The entries of [m] in the order of the keys [ks]. *)
Definition entriesOf (m : gmap string Value) (ks : list string) : list (string * Value) :=
  (λ k, (k, default (VInteger 0) (m !! k))) <$> ks.

Definition sampleValue : Value :=
  VDict (insertAll [("spam"%string, VList [VInteger (-3); VString "eggs"]);
                    ("cow"%string, VString "moo")]).

(** [v] is an empty string, an empty list or an empty dictionary. *)
Definition isEmptyValue (v : Value) : bool :=
  match v with
  | VInteger _ => false
  | VString s => String.length s =? 0
  | VList l => length l =? 0
  | VDict m => size m =? 0
  end.

(** An entry of Go: its key is a string of Go and its value is
    representable. *)
Definition goEntry (kv : string * Value) : bool :=
  goString kv.1 && representable kv.2.

(** What a successful call leaves in [Consumed]. *)
Definition flagExact {A : Type} (d : Decoder) (r : result A) : Prop :=
  match r with
  | Ret _ d' => Consumed d = false ∧ Consumed d' = (length (stream d') <=? pos d')
  | _ => True
  end.

Definition flagKept {A : Type} (d : Decoder) (r : result A) : Prop :=
  match r with
  | Ret _ d' => Consumed d' = Consumed d
  | _ => True
  end.

(** What a successful call returns satisfies [P]. *)
Definition returns {A : Type} (P : A → Prop) (r : result A) : Prop :=
  match r with
  | Ret a _ => P a
  | _ => True
  end.

(** A buffer of Go: its length fits [int]. *)
Definition goBuffer (d : Decoder) : Prop := (Z.of_nat (length (stream d)) < 2 ^ 63)%Z.

(** The errors of a failed call satisfy [P]. *)
Definition fails {A : Type} (P : error → Prop) (r : result A) : Prop :=
  match r with
  | Fail e _ => P e
  | _ => True
  end.

(** An error that some path from [nextObject] can return: the tests at the
    head of [nextInteger], [nextList] and [nextDict] are not among them. *)
Definition liveError (e : error) : Prop :=
  e ≠ ErrNoStartingI ∧ e ≠ ErrNotAList ∧ e ≠ ErrNotADict.

(** The decoder [d] on a buffer that goes on with the bytes [r]. *)
Definition extend (d : Decoder) (r : list ascii) : Decoder :=
  mkDecoder (stream d ++ r) (pos d) (Consumed d).

(** A successful call on [d] is the same call on the longer buffer. *)
Definition extends {A : Type} (r : list ascii) (f : Decoder → result A) (d : Decoder)
  : Prop :=
  match f d with
  | Ret a d' => f (extend d r) = Ret a (extend d' r)
  | _ => True
  end.

(** [nextObject] reads the value [v] from the bytes [b] at the cursor and
    leaves the cursor behind them; [b] does not start with ['e']. *)
Definition reads (b : list ascii) (v : Value) : Prop :=
  (∃ c r, b = c :: r ∧ Ascii.eqb c "e" = false)
  ∧ ∀ d suf,
      Consumed d = false →
      drop (pos d) (stream d) = b ++ suf →
      ∃ fuel, nextObject fuel d = Ret v (markConsumed (set_pos d (pos d + length b))).

(** What a dictionary stream holds for the entry of key [it.1.1] whose
    value is written as [it.2]. *)
Definition wireItem (it : string * Value * list ascii) : list ascii :=
  Legacy.encodeString it.1.1 ++ it.2.

(** * Properties *)

(** ** Digits *)

Lemma ascii_leb_N (a b : ascii) :
  (a <=? b)%char = (N_of_ascii a <=? N_of_ascii b)%N.
Proof. unfold Ascii.leb, Ascii.compare, N.leb. by destruct (_ ?= _)%N. Qed.

Lemma ascii_ltb_N (a b : ascii) :
  (a <? b)%char = (N_of_ascii a <? N_of_ascii b)%N.
Proof. unfold Ascii.ltb, Ascii.compare, N.ltb. by destruct (_ ?= _)%N. Qed.

Lemma isDigit_spec (c : ascii) :
  isDigit c = true ↔ (48 ≤ N_of_ascii c ≤ 57)%N.
Proof.
  unfold isDigit. rewrite !ascii_leb_N, andb_true_iff, !N.leb_le.
  change (N_of_ascii "0") with 48%N. change (N_of_ascii "9") with 57%N. tauto.
Qed.

Lemma notDigit_isDigit (c : ascii) : notDigit c = negb (isDigit c).
Proof.
  unfold notDigit, isDigit. rewrite !ascii_ltb_N, !ascii_leb_N, negb_andb.
  by rewrite !N.ltb_antisym.
Qed.

Lemma ascii_eqb_N (a b : ascii) :
  Ascii.eqb a b = (N_of_ascii a =? N_of_ascii b)%N.
Proof.
  destruct (Ascii.eqb_spec a b) as [->|Hne].
  - by rewrite N.eqb_refl.
  - symmetry. apply N.eqb_neq. intros Heq. apply Hne.
    by rewrite <- (ascii_N_embedding a), <- (ascii_N_embedding b), Heq.
Qed.

Lemma isDigit_not_special (c : ascii) :
  isDigit c = true →
  Ascii.eqb c "e" = false ∧ Ascii.eqb c ":" = false ∧ Ascii.eqb c "-" = false
  ∧ Ascii.eqb c "+" = false ∧ Ascii.eqb c "i" = false ∧ Ascii.eqb c "l" = false
  ∧ Ascii.eqb c "d" = false.
Proof.
  rewrite isDigit_spec, !ascii_eqb_N. intros H.
  repeat split; apply N.eqb_neq; intros Heq; rewrite Heq in H; vm_compute in H;
    destruct H as [H1 H2]; congruence.
Qed.

(** The byte of the decimal digit [u]. *)
Lemma digit_of_N (u : N) :
  (u < 10)%N →
  isDigit (ascii_of_N (48 + u)) = true ∧ digitVal (ascii_of_N (48 + u)) = u.
Proof.
  intros Hu. unfold digitVal. rewrite isDigit_spec, N_ascii_embedding by lia. lia.
Qed.

Lemma digitsVal_snoc (ds : list ascii) (c : ascii) :
  digitsVal (ds ++ [c]) = (digitsVal ds * 10 + digitVal c)%N.
Proof. unfold digitsVal. by rewrite foldl_app. Qed.

(** What [formatBits] puts in front of [acc]: the decimal digits of [u],
    without a leading zero unless [u] is zero. *)
Lemma formatBits_spec (fuel : nat) (u : N) (acc : list ascii) :
  (u < 10 ^ N.of_nat fuel)%N → 0 < fuel →
  ∃ ds, strconv.formatBits fuel u acc = ds ++ acc
        ∧ ds ≠ [] ∧ Forall (λ c, isDigit c = true) ds ∧ digitsVal ds = u
        ∧ (head ds = Some "0"%char → ds = ["0"%char]).
Proof.
  revert u acc. induction fuel as [|fuel IH]; intros u acc Hu Hfuel; [lia|].
  simpl. destruct (N.ltb_spec u 10) as [Hlt|Hge].
  - destruct (digit_of_N u Hlt) as [Hd Hv].
    exists [ascii_of_N (48 + u)]. split_and!.
    + done.
    + done.
    + by constructor.
    + unfold digitsVal. cbn [foldl]. rewrite Hv. lia.
    + simpl. intros [= Heq]. by rewrite Heq.
  - assert (Hq : (u / 10 < 10 ^ N.of_nat fuel)%N).
    { apply N.Div0.div_lt_upper_bound.
      rewrite Nat2N.inj_succ, N.pow_succ_r' in Hu. lia. }
    assert (Hpos : 0 < fuel).
    { destruct fuel; [|lia]. simpl in Hq.
      assert (u / 10 ≠ 0)%N; [|lia]. intros Hz. apply N.div_small_iff in Hz; lia. }
    destruct (IH (u / 10)%N (ascii_of_N (48 + u mod 10) :: acc) Hq Hpos)
      as (ds & Heq & Hne & Hall & Hval & Hhd).
    assert (Hm : (u mod 10 < 10)%N) by (apply N.mod_lt; lia).
    destruct (digit_of_N _ Hm) as [Hd Hv].
    exists (ds ++ [ascii_of_N (48 + u mod 10)]). split_and!.
    + by rewrite Heq, <- app_assoc.
    + by destruct ds.
    + apply Forall_app. split; [done|by constructor].
    + rewrite digitsVal_snoc, Hval, Hv. pose proof (N.div_mod u 10). lia.
    + intros Hh. destruct ds as [|c ds]; [done|]. simpl in Hh.
      specialize (Hhd Hh). rewrite Hhd in Hval.
      change (digitsVal ["0"%char]) with 0%N in Hval.
      exfalso. symmetry in Hval. apply N.div_small_iff in Hval; lia.
Qed.

Lemma size_nat_pow10 (u : N) : (u < 10 ^ N.of_nat (S (N.size_nat u)))%N.
Proof.
  assert (H2 : (u < 2 ^ N.of_nat (N.size_nat u))%N).
  { destruct u as [|p]; [done|]. cbn [N.size_nat].
    induction p as [p IHp|p IHp|]; cbn [Pos.size_nat];
      rewrite ?Nat2N.inj_succ, ?N.pow_succ_r'; lia. }
  eapply N.lt_le_trans; [exact H2|].
  etrans; [apply (N.pow_le_mono_l 2 10); lia|].
  apply N.pow_le_mono_r; lia.
Qed.

Lemma FormatUint_spec (u : N) :
  ∃ ds, strconv.FormatUint u = ds
        ∧ ds ≠ [] ∧ Forall (λ c, isDigit c = true) ds ∧ digitsVal ds = u
        ∧ (head ds = Some "0"%char → ds = ["0"%char]).
Proof.
  destruct (formatBits_spec (S (N.size_nat u)) u [] (size_nat_pow10 u))
    as (ds & Heq & H); [lia|]. exists ds. unfold strconv.FormatUint.
  rewrite Heq, app_nil_r. done.
Qed.

(** ** Parsing what was formatted *)

Lemma foldl_readDigit_ge (ds : list ascii) (n : N) :
  (n ≤ foldl readDigit n ds)%N.
Proof.
  revert n. induction ds as [|c ds IH]; intros n; simpl; [lia|].
  etrans; [|apply IH]. unfold readDigit. lia.
Qed.

Lemma parseUintLoop_digits (ds : list ascii) (n : N) :
  Forall (λ c, isDigit c = true) ds →
  (foldl readDigit n ds < 2 ^ 64)%N →
  strconv.parseUintLoop (2 ^ 64 - 1) ds n = inl (foldl readDigit n ds).
Proof.
  intros Hall. revert n. induction Hall as [|c ds Hc Hall IH]; intros n Hlt; [done|].
  cbn [strconv.parseUintLoop foldl] in *. rewrite Hc.
  pose proof (foldl_readDigit_ge ds (readDigit n c)) as Hge.
  assert (Hn1 : (readDigit n c < 2 ^ 64)%N) by lia.
  unfold readDigit in Hn1 at 1. fold (digitVal c).
  change (strconv.maxUint64 / 10 + 1)%N with 1844674407370955162%N.
  change (2 ^ 64)%N with 18446744073709551616%N in *.
  destruct (N.leb_spec 1844674407370955162 n); [lia|].
  rewrite N.mod_small by lia.
  destruct (N.ltb_spec (n * 10 + digitVal c) (n * 10)); [lia|].
  destruct (N.ltb_spec (18446744073709551616 - 1) (n * 10 + digitVal c)); [lia|].
  cbn [orb]. apply IH. done.
Qed.

Lemma ParseUint_digits (ds : list ascii) :
  ds ≠ [] → Forall (λ c, isDigit c = true) ds → (digitsVal ds < 2 ^ 64)%N →
  strconv.ParseUint ds 64 = inl (digitsVal ds).
Proof.
  intros Hne Hall Hlt. unfold strconv.ParseUint. destruct ds as [|c ds]; [done|].
  change (2 ^ 64 - 1)%N with (2 ^ 64 - 1)%N. by apply parseUintLoop_digits.
Qed.

Lemma ParseInt_digits (ds : list ascii) :
  ds ≠ [] → Forall (λ c, isDigit c = true) ds → (digitsVal ds < 2 ^ 63)%N →
  strconv.ParseInt (string_of_list_ascii ds) 64 = inl (Z.of_N (digitsVal ds)).
Proof.
  intros Hne Hall Hlt. unfold strconv.ParseInt.
  rewrite list_ascii_of_string_of_list_ascii.
  destruct ds as [|c ds'] eqn:Hds; [done|].
  assert (Hc : isDigit c = true) by by inversion Hall.
  destruct (isDigit_not_special c Hc) as (_ & _ & Hm & Hp & _).
  rewrite Hm, Hp. cbn [orb]. rewrite <- Hds in *.
  rewrite ParseUint_digits; [|done|done|].
  - cbn [negb andb]. change (2 ^ (64 - 1))%N with (2 ^ 63)%N.
    destruct (N.leb_spec (2 ^ 63) (digitsVal ds)); [lia|done].
  - eapply N.lt_trans; [done|]. done.
Qed.

Lemma ParseInt_minus_digits (ds : list ascii) :
  ds ≠ [] → Forall (λ c, isDigit c = true) ds → (digitsVal ds ≤ 2 ^ 63)%N →
  strconv.ParseInt (string_of_list_ascii ("-"%char :: ds)) 64
  = inl (- Z.of_N (digitsVal ds))%Z.
Proof.
  intros Hne Hall Hlt. unfold strconv.ParseInt.
  rewrite list_ascii_of_string_of_list_ascii.
  change (Ascii.eqb "-" "-") with true. change (Ascii.eqb "-" "+") with false.
  cbn [orb]. rewrite ParseUint_digits; [|done|done|].
  - cbn [negb andb]. change (2 ^ (64 - 1))%N with (2 ^ 63)%N.
    destruct (N.ltb_spec (2 ^ 63) (digitsVal ds)); [lia|done].
  - eapply N.le_lt_trans; [done|]. done.
Qed.

(** What [FormatInt] prints: an optional sign and a digit run without a
    leading zero, which [ParseInt] reads back. *)
Lemma FormatInt_spec (i : Z) :
  int64 i →
  ∃ sign ds,
    strconv.FormatInt i = sign ++ ds
    ∧ (sign = [] ∨ sign = ["-"%char])
    ∧ ds ≠ [] ∧ Forall (λ c, isDigit c = true) ds
    ∧ (head ds = Some "0"%char → ds = ["0"%char])
    ∧ strconv.ParseInt (string_of_list_ascii (sign ++ ds)) 64 = inl i.
Proof.
  intros [Hlo Hhi]. unfold strconv.FormatInt.
  destruct (Z.ltb_spec i 0) as [Hneg|Hpos].
  - destruct (FormatUint_spec (Z.to_N (- i))) as (ds & -> & Hne & Hall & Hval & Hhd).
    exists ["-"%char], ds. split_and!; auto.
    cbn [app]. rewrite ParseInt_minus_digits; [|done|done|].
    + f_equal. rewrite Hval. lia.
    + rewrite Hval. change (2 ^ 63)%N with (Z.to_N (2 ^ 63)). lia.
  - destruct (FormatUint_spec (Z.to_N i)) as (ds & -> & Hne & Hall & Hval & Hhd).
    exists [], ds. split_and!; auto.
    cbn [app]. rewrite ParseInt_digits; [|done|done|].
    + f_equal. rewrite Hval. lia.
    + rewrite Hval. change (2 ^ 63)%N with (Z.to_N (2 ^ 63)). lia.
Qed.

Lemma FormatInt_nat_spec (n : nat) :
  (Z.of_nat n < 2 ^ 63)%Z →
  ∃ ds,
    strconv.FormatInt (Z.of_nat n) = ds
    ∧ ds ≠ [] ∧ Forall (λ c, isDigit c = true) ds
    ∧ strconv.Atoi (string_of_list_ascii ds) = inl (Z.of_nat n).
Proof.
  intros Hn. unfold strconv.FormatInt.
  destruct (Z.ltb_spec (Z.of_nat n) 0) as [Hneg|Hpos]; [lia|].
  destruct (FormatUint_spec (Z.to_N (Z.of_nat n))) as (ds & -> & Hne & Hall & Hval & Hhd).
  eexists. split_and!; auto. unfold strconv.Atoi.
  rewrite ParseInt_digits; [|done|done|].
  - f_equal. rewrite Hval. lia.
  - rewrite Hval. change (2 ^ 63)%N with (Z.to_N (2 ^ 63)). lia.
Qed.

(** ** Reading the stream at the cursor *)

Lemma drop_cons_lookup (s : list ascii) (p : nat) (c : ascii) (r : list ascii) :
  drop p s = c :: r → s !! p = Some c.
Proof.
  intros H. rewrite <- (Nat.add_0_r p), <- lookup_drop, H. done.
Qed.

Lemma drop_app_drop (s : list ascii) (p : nat) (a b : list ascii) :
  drop p s = a ++ b → drop (p + length a) s = b.
Proof.
  intros H. rewrite <- drop_drop, H. by rewrite drop_app_length.
Qed.

Lemma drop_cons_drop (s : list ascii) (p : nat) (c : ascii) (b : list ascii) :
  drop p s = c :: b → drop (p + 1) s = b.
Proof. intros H. by apply (drop_app_drop s p [c] b). Qed.

Lemma drop_length_eq (s : list ascii) (p : nat) (c : ascii) (r : list ascii) :
  drop p s = c :: r → length s = p + S (length r).
Proof.
  intros H. assert (Hl : length (drop p s) = S (length r)) by by rewrite H.
  rewrite length_drop in Hl. lia.
Qed.

Lemma slice_drop (s : list ascii) (p : nat) (a b : list ascii) :
  drop p s = a ++ b → p ≤ length s → slice s p (p + length a) = Some a.
Proof.
  intros H Hp. unfold slice.
  assert (Hl : length (drop p s) = length a + length b) by by rewrite H, length_app.
  rewrite length_drop in Hl.
  rewrite decide_True by lia. f_equal.
  replace (p + length a - p) with (length a) by lia.
  rewrite H. by rewrite take_app_length.
Qed.

Lemma scanInteger_digits (ds suf : list ascii) (idx : nat) :
  Forall (λ c, isDigit c = true) ds →
  scanInteger (ds ++ "e"%char :: suf) idx = ScanAt (idx + length ds).
Proof.
  intros Hall. revert idx. induction Hall as [|c ds Hc Hall IH]; intros idx.
  - simpl. f_equal. lia.
  - cbn [app scanInteger length].
    destruct (isDigit_not_special c Hc) as (-> & _).
    rewrite notDigit_isDigit, Hc. cbn [negb].
    rewrite IH. destruct (ds ++ _) eqn:Heq.
    + by destruct ds.
    + f_equal. lia.
Qed.

Lemma scanLength_digits (ds suf : list ascii) (idx : nat) :
  Forall (λ c, isDigit c = true) ds →
  scanLength (ds ++ ":"%char :: suf) idx = ScanAt (idx + length ds).
Proof.
  intros Hall. revert idx. induction Hall as [|c ds Hc Hall IH]; intros idx.
  - simpl. f_equal. lia.
  - cbn [app scanLength length].
    destruct (isDigit_not_special c Hc) as (_ & -> & _).
    rewrite IH. destruct (ds ++ _) eqn:Heq.
    + by destruct ds.
    + f_equal. lia.
Qed.

(** [nextInteger] on a sign and a digit run without a leading zero that
    [ParseInt] accepts. *)
Lemma nextInteger_digits (d : Decoder) (sign ds suf : list ascii) (i : Z) :
  drop (pos d) (stream d) = "i"%char :: (sign ++ ds) ++ "e"%char :: suf →
  sign = [] ∨ sign = ["-"%char] →
  ds ≠ [] → Forall (λ c, isDigit c = true) ds →
  (head ds = Some "0"%char → ds = ["0"%char]) →
  strconv.ParseInt (string_of_list_ascii (sign ++ ds)) 64 = inl i →
  nextInteger d = Ret i (set_pos d (pos d + length ("i"%char :: (sign ++ ds) ++ ["e"%char]))).
Proof.
  intros Hdrop Hsign Hne Hall Hhd Hparse. unfold nextInteger.
  rewrite (drop_cons_lookup _ _ _ _ Hdrop). cbn [Ascii.eqb negb].
  change (Ascii.eqb "i" "i") with true. cbn [negb].
  pose proof (drop_cons_drop _ _ _ _ Hdrop) as Hd1.
  pose proof (drop_length_eq _ _ _ _ Hdrop) as Hlen.
  rewrite !length_app in Hlen. cbn [length] in Hlen.
  cbn [stream pos set_pos].
  destruct ds as [|c0 ds0] eqn:Hds; [done|]. rewrite <- Hds in *.
  assert (Hc0 : isDigit c0 = true) by (rewrite Hds in Hall; by inversion Hall).
  destruct (isDigit_not_special c0 Hc0) as (_ & _ & Hc0m & _).
  assert (Hscan : ∀ idx, drop idx (stream d) = ds ++ "e"%char :: suf →
    idx = pos d + 1 + length sign →
    match scanInteger (drop idx (stream d)) idx with
    | ScanAt idx0 =>
        if idx =? idx0 then Fail ErrNoBytesInInteger (set_pos d (pos d + 1))
        else match stream d !! idx with
             | Some c1 =>
                 if Ascii.eqb c1 "0" && (1 <? idx0 - idx)
                 then Fail ErrLeadingZeros (set_pos d (pos d + 1))
                 else match slice (stream d) (pos d + 1) idx0 with
                      | Some s =>
                          match strconv.ParseInt (string_of_list_ascii s) 64 with
                          | inl res => Ret res (set_pos (set_pos d (pos d + 1)) (idx0 + 1))
                          | inr e => Fail (ErrParseInt e) (set_pos d (pos d + 1))
                          end
                      | None => Panic
                      end
             | None => Panic
             end
    | ScanFail e => Fail e (set_pos d (pos d + 1))
    | ScanPanic => Panic
    end = Ret i (set_pos d (pos d + length ("i"%char :: (sign ++ ds) ++ ["e"%char])))).
  { intros idx Hdi Hidx. rewrite Hdi, scanInteger_digits by done.
    assert (Hl : 0 < length ds) by (rewrite Hds; simpl; lia).
    destruct (Nat.eqb_spec idx (idx + length ds)); [lia|].
    rewrite Hds in Hdi. rewrite (drop_cons_lookup _ _ _ _ Hdi). rewrite <- Hds in Hdi.
    replace (idx + length ds - idx) with (length ds) by lia.
    assert (Hlz : Ascii.eqb c0 "0" && (1 <? length ds) = false).
    { destruct (Ascii.eqb_spec c0 "0") as [->|]; [|done].
      rewrite Hhd by (by rewrite Hds). done. }
    rewrite Hlz.
    replace (idx + length ds) with (pos d + 1 + length (sign ++ ds))
      by (rewrite length_app; lia).
    rewrite (slice_drop _ _ (sign ++ ds) ("e"%char :: suf)); [|done|lia].
    rewrite Hparse. unfold set_pos. cbn [stream pos Consumed length].
    rewrite !length_app. cbn [length]. f_equal. f_equal. lia. }
  destruct Hsign as [->| ->].
  - cbn [app] in Hd1. rewrite Hds in Hd1. rewrite (drop_cons_lookup _ _ _ _ Hd1).
    rewrite <- Hds in Hd1. rewrite Hc0m.
    apply Hscan; [done|simpl; lia].
  - cbn [app] in Hd1. rewrite (drop_cons_lookup _ _ _ _ Hd1).
    change (Ascii.eqb "-" "-") with true. cbn match.
    apply Hscan; [|simpl; lia]. by apply (drop_cons_drop _ _ _ _ Hd1).
Qed.

Lemma nextInteger_encode (d : Decoder) (i : Z) (suf : list ascii) :
  int64 i →
  drop (pos d) (stream d) = encodeInteger i ++ suf →
  nextInteger d = Ret i (set_pos d (pos d + length (encodeInteger i))).
Proof.
  intros Hi Hdrop. unfold encodeInteger in *.
  destruct (FormatInt_spec i Hi) as (sign & ds & Heq & Hsign & Hne & Hall & Hhd & Hp).
  rewrite Heq in *. eapply nextInteger_digits; eauto.
  rewrite Hdrop. cbn [app]. by rewrite <- app_assoc.
Qed.

Lemma length_list_ascii_of_string (s : string) :
  length (list_ascii_of_string s) = String.length s.
Proof. induction s as [|c s IH]; simpl; congruence. Qed.

(** [nextString] on a length field of digits that [Atoi] reads as [n]:
    the string is the next [n] bytes, if there are that many. *)
Lemma nextString_digits (d : Decoder) (ds rest : list ascii) (n : nat) :
  drop (pos d) (stream d) = ds ++ ":"%char :: rest →
  ds ≠ [] → Forall (λ c, isDigit c = true) ds →
  strconv.Atoi (string_of_list_ascii ds) = inl (Z.of_nat n) →
  nextString d =
    if decide (n ≤ length rest)
    then Ret (string_of_list_ascii (take n rest))
             (set_pos d (pos d + length ds + 1 + n))
    else Fail ErrLengthTooLong d.
Proof.
  intros Hdrop Hne Hall Hatoi. unfold nextString.
  destruct ds as [|c0 ds0] eqn:Hds; [done|].
  assert (Hc0 : isDigit c0 = true) by by inversion Hall.
  cbn [app] in Hdrop. rewrite (drop_cons_lookup _ _ _ _ Hdrop).
  rewrite notDigit_isDigit, Hc0. cbn [negb].
  pose proof (drop_length_eq _ _ _ _ Hdrop) as Hlen.
  rewrite length_app in Hlen. cbn [length] in Hlen.
  rewrite <- Hds in *. change (c0 :: ds0 ++ ":"%char :: rest) with
    ((c0 :: ds0) ++ ":"%char :: rest) in Hdrop. rewrite <- Hds in Hdrop.
  rewrite Hdrop, scanLength_digits by done.
  assert (Hl : length ds = S (length ds0)) by by rewrite Hds.
  rewrite (slice_drop _ _ ds (":"%char :: rest)); [|done|lia].
  rewrite Hatoi.
  pose proof (drop_app_drop _ _ _ _ Hdrop) as Hd2. rewrite Hd2. cbn [length].
  destruct (decide (n ≤ length rest)) as [Hle|Hgt].
  - destruct (Z.leb_spec (Z.of_nat (S (length rest))) (Z.of_nat n)); [lia|].
    destruct (Z.ltb_spec (Z.of_nat n) 0); [lia|].
    rewrite Nat2Z.id.
    pose proof (drop_cons_drop _ _ _ _ Hd2) as Hd3.
    rewrite <- (take_drop n rest) in Hd3.
    pose proof (slice_drop _ _ _ _ Hd3) as Hsl.
    rewrite length_take, Nat.min_l in Hsl by lia.
    rewrite Hsl by lia. done.
  - destruct (Z.leb_spec (Z.of_nat (S (length rest))) (Z.of_nat n)); [done|lia].
Qed.

(** A non-empty string is written by the encoder as the older encoder
    writes every string. *)
Lemma encodeString_nonempty (s : string) :
  s ≠ EmptyString → encodeString s = Legacy.encodeString s.
Proof. intros Hs. unfold encodeString. by destruct s. Qed.

Lemma Legacy_encodeString_starts (s : string) :
  ∃ c r, Legacy.encodeString s = c :: r ∧ isDigit c = true.
Proof.
  unfold Legacy.encodeString, strconv.FormatInt.
  destruct (Z.ltb_spec (Z.of_nat (String.length s)) 0); [lia|].
  destruct (FormatUint_spec (Z.to_N (Z.of_nat (String.length s))))
    as (ds & -> & Hne & Hall & _).
  destruct ds as [|c ds]; [done|]. exists c. eexists. split; [done|]. by inversion Hall.
Qed.

(** [nextString] reads back a string written with its length, the empty
    string included. *)
Lemma nextString_wire (d : Decoder) (s : string) (suf : list ascii) :
  goString s = true →
  drop (pos d) (stream d) = Legacy.encodeString s ++ suf →
  nextString d = Ret s (set_pos d (pos d + length (Legacy.encodeString s))).
Proof.
  unfold goString, Legacy.encodeString. intros Hlen%Z.ltb_lt Hdrop.
  destruct (FormatInt_nat_spec _ Hlen) as (ds & Heq & Hne & Hall & Hatoi).
  rewrite Heq in *. rewrite <- app_assoc in Hdrop. cbn [app] in Hdrop.
  rewrite (nextString_digits d ds (list_ascii_of_string s ++ suf) (String.length s)
             Hdrop Hne Hall Hatoi).
  rewrite decide_True by (rewrite length_app, length_list_ascii_of_string; lia).
  rewrite <- length_list_ascii_of_string, take_app_length.
  rewrite string_of_list_ascii_of_string.
  rewrite length_app. cbn [length]. do 2 f_equal. lia.
Qed.

Lemma readsKey_Legacy (k : string) :
  goString k = true → readsKey Legacy.encodeString k.
Proof.
  intros Hk. split; [apply Legacy_encodeString_starts|].
  intros d suf Hdrop. by apply (nextString_wire d k suf).
Qed.

Lemma readsKey_encodeString (k : string) :
  goString k = true → nonEmptyString k = true → readsKey encodeString k.
Proof.
  intros Hk Hne. unfold readsKey.
  rewrite encodeString_nonempty by (by destruct k). by apply readsKey_Legacy.
Qed.

(** ** Fuel

    More fuel never changes a result other than [OutOfFuel]. *)

Lemma resLe_refl {A : Type} (r : result A) : resLe r r.
Proof. by right. Qed.

Lemma resLe_trans {A : Type} (r1 r2 r3 : result A) :
  resLe r1 r2 → resLe r2 r3 → resLe r1 r3.
Proof. intros [->| ->] H; [by left|done]. Qed.

Lemma nextObject_S (fuel : nat) (d : Decoder) :
  nextObject (S fuel) d
  = nextObjectBody (nextListBody (listLoop fuel)) (nextDictBody (dictLoop fuel)) d.
Proof. done. Qed.

Lemma listLoop_S (fuel : nat) (res : list Value) (d : Decoder) :
  listLoop (S fuel) res d = listLoopBody (nextObject fuel) (listLoop fuel) res d.
Proof. done. Qed.

Lemma dictLoop_S (fuel : nat) (res : gmap string Value) (d : Decoder) :
  dictLoop (S fuel) res d = dictLoopBody (nextObject fuel) (dictLoop fuel) res d.
Proof. done. Qed.

Section mono.
Context (nl nl' : Decoder → result (list Value)).
Context (nd nd' : Decoder → result (gmap string Value)).
Context (no no' : Decoder → result Value).
Context (ll ll' : list Value → Decoder → result (list Value)).
Context (dl dl' : gmap string Value → Decoder → result (gmap string Value)).
Hypothesis Hnl : ∀ d, resLe (nl d) (nl' d).
Hypothesis Hnd : ∀ d, resLe (nd d) (nd' d).
Hypothesis Hno : ∀ d, resLe (no d) (no' d).
Hypothesis Hll : ∀ res d, resLe (ll res d) (ll' res d).
Hypothesis Hdl : ∀ res d, resLe (dl res d) (dl' res d).

Lemma nextObjectBody_mono (d : Decoder) :
  resLe (nextObjectBody nl nd d) (nextObjectBody nl' nd' d).
Proof.
  unfold nextObjectBody. destruct (Consumed d); [apply resLe_refl|].
  destruct (stream d !! pos d) as [c|]; [|apply resLe_refl].
  destruct (Ascii.eqb c "i"); [apply resLe_refl|].
  destruct (Ascii.eqb c "l").
  { destruct (Hnl d) as [-> | ->]; [by left|apply resLe_refl]. }
  destruct (Ascii.eqb c "d").
  { destruct (Hnd d) as [-> | ->]; [by left|apply resLe_refl]. }
  apply resLe_refl.
Qed.

Lemma nextListBody_mono (d : Decoder) :
  resLe (nextListBody ll d) (nextListBody ll' d).
Proof.
  unfold nextListBody. repeat case_match; try apply resLe_refl. apply Hll.
Qed.

Lemma nextDictBody_mono (d : Decoder) :
  resLe (nextDictBody dl d) (nextDictBody dl' d).
Proof.
  unfold nextDictBody. repeat case_match; try apply resLe_refl. apply Hdl.
Qed.

Lemma listLoopBody_mono (res : list Value) (d : Decoder) :
  resLe (listLoopBody no ll res d) (listLoopBody no' ll' res d).
Proof.
  unfold listLoopBody. destruct (Hno d) as [-> | ->]; [by left|].
  repeat case_match; try apply resLe_refl. apply Hll.
Qed.

Lemma dictLoopBody_mono (res : gmap string Value) (d : Decoder) :
  resLe (dictLoopBody no dl res d) (dictLoopBody no' dl' res d).
Proof.
  unfold dictLoopBody. destruct (nextString d) as [key d1| | |]; try apply resLe_refl.
  destruct (Hno d1) as [-> | ->]; [by left|].
  repeat case_match; try apply resLe_refl. apply Hdl.
Qed.
End mono.

Lemma fuel_mono_S (fuel : nat) :
  (∀ d, resLe (nextObject fuel d) (nextObject (S fuel) d))
  ∧ (∀ res d, resLe (listLoop fuel res d) (listLoop (S fuel) res d))
  ∧ (∀ res d, resLe (dictLoop fuel res d) (dictLoop (S fuel) res d)).
Proof.
  induction fuel as [|fuel (IHo & IHl & IHd)].
  { split_and!; intros; by left. }
  split_and!; intros.
  - rewrite !nextObject_S.
    apply nextObjectBody_mono; intros; [by apply nextListBody_mono|by apply nextDictBody_mono].
  - rewrite !listLoop_S. by apply listLoopBody_mono.
  - rewrite !dictLoop_S. by apply dictLoopBody_mono.
Qed.

Lemma nextObject_fuel_mono (fuel fuel' : nat) (d : Decoder) :
  fuel ≤ fuel' → resLe (nextObject fuel d) (nextObject fuel' d).
Proof.
  induction 1 as [|fuel' _ IH]; [apply resLe_refl|].
  eapply resLe_trans; [exact IH|]. apply fuel_mono_S.
Qed.

Lemma listLoop_fuel_mono (fuel fuel' : nat) (res : list Value) (d : Decoder) :
  fuel ≤ fuel' → resLe (listLoop fuel res d) (listLoop fuel' res d).
Proof.
  induction 1 as [|fuel' _ IH]; [apply resLe_refl|].
  eapply resLe_trans; [exact IH|]. apply fuel_mono_S.
Qed.

Lemma dictLoop_fuel_mono (fuel fuel' : nat) (res : gmap string Value) (d : Decoder) :
  fuel ≤ fuel' → resLe (dictLoop fuel res d) (dictLoop fuel' res d).
Proof.
  induction 1 as [|fuel' _ IH]; [apply resLe_refl|].
  eapply resLe_trans; [exact IH|]. apply fuel_mono_S.
Qed.

(** A result obtained with some fuel is the result with any larger fuel. *)
Lemma nextObject_fuel_ge (fuel fuel' : nat) (d : Decoder) (r : result Value) :
  nextObject fuel d = r → r ≠ OutOfFuel → fuel ≤ fuel' → nextObject fuel' d = r.
Proof.
  intros Hr Hne Hle. destruct (nextObject_fuel_mono fuel fuel' d Hle) as [H|H]; congruence.
Qed.

Lemma listLoop_fuel_ge (fuel fuel' : nat) (res : list Value) (d : Decoder)
    (r : result (list Value)) :
  listLoop fuel res d = r → r ≠ OutOfFuel → fuel ≤ fuel' → listLoop fuel' res d = r.
Proof.
  intros Hr Hne Hle. destruct (listLoop_fuel_mono fuel fuel' res d Hle) as [H|H]; congruence.
Qed.

Lemma dictLoop_fuel_ge (fuel fuel' : nat) (res : gmap string Value) (d : Decoder)
    (r : result (gmap string Value)) :
  dictLoop fuel res d = r → r ≠ OutOfFuel → fuel ≤ fuel' → dictLoop fuel' res d = r.
Proof.
  intros Hr Hne Hle. destruct (dictLoop_fuel_mono fuel fuel' res d Hle) as [H|H]; congruence.
Qed.

(** ** The cursor only moves forward, inside the stream *)

Lemma scanInteger_at (rest : list ascii) (idx idx' : nat) :
  scanInteger rest idx = ScanAt idx' → idx ≤ idx' < idx + length rest.
Proof.
  revert idx. induction rest as [|c rest IH]; intros idx; [done|].
  cbn [scanInteger length]. repeat case_match; try done.
  - intros [= <-]. lia.
  - intros Hrec%IH. cbn [length] in *. lia.
Qed.

Lemma scanLength_at (rest : list ascii) (idx idx' : nat) :
  scanLength rest idx = ScanAt idx' → idx ≤ idx' < idx + length rest.
Proof.
  revert idx. induction rest as [|c rest IH]; intros idx; [done|].
  cbn [scanLength length]. repeat case_match; try done.
  - intros [= <-]. lia.
  - intros Hrec%IH. cbn [length] in *. lia.
Qed.

Lemma slice_Some (b : list ascii) (lo hi : nat) (s : list ascii) :
  slice b lo hi = Some s → lo ≤ hi ≤ length b.
Proof. unfold slice. case_decide; [done|done]. Qed.

Lemma nextInteger_advances (d : Decoder) : advances d (nextInteger d).
Proof.
  unfold nextInteger.
  repeat case_match; subst; cbn [advances stream pos set_pos] in *; try done.
  all: split; [done|].
  all: match goal with H : scanInteger _ _ = ScanAt _ |- _ =>
         apply scanInteger_at in H; rewrite length_drop in H end.
  all: lia.
Qed.

Lemma nextString_advances (d : Decoder) : advances d (nextString d).
Proof.
  unfold nextString.
  repeat case_match; subst; cbn [advances stream pos set_pos] in *; try done.
  split; [done|].
  match goal with H : scanLength _ _ = ScanAt _ |- _ =>
    apply scanLength_at in H end.
  match goal with H : slice _ (_ + 1) _ = Some _ |- _ =>
    apply slice_Some in H end.
  lia.
Qed.

Lemma advances_finish {A : Type} (d : Decoder) (r : result A) :
  advances d r → advances d (finish r).
Proof.
  destruct r as [a d'|e d'| |]; cbn [finish advances]; try done;
    unfold markConsumed; case_match; done.
Qed.

Lemma advances_result_map {A B : Type} (f : A → B) (d : Decoder) (r : result A) :
  advances d r → advances d (result_map f r).
Proof. by destruct r. Qed.

Section advances.
Context (nl : Decoder → result (list Value)).
Context (nd : Decoder → result (gmap string Value)).
Context (no : Decoder → result Value).
Context (ll : list Value → Decoder → result (list Value)).
Context (dl : gmap string Value → Decoder → result (gmap string Value)).
Hypothesis Hnl : ∀ d, advances d (nl d).
Hypothesis Hnd : ∀ d, advances d (nd d).
Hypothesis Hno : ∀ d, advances d (no d).
Hypothesis Hll : ∀ res d, advances d (ll res d).
Hypothesis Hdl : ∀ res d, advances d (dl res d).

Lemma nextObjectBody_advances (d : Decoder) : advances d (nextObjectBody nl nd d).
Proof.
  unfold nextObjectBody. repeat (case_match; try done).
  all: apply advances_finish; try apply advances_result_map; try done.
  - apply nextInteger_advances.
  - apply nextString_advances.
Qed.

Lemma nextListBody_advances (d : Decoder) : advances d (nextListBody ll d).
Proof.
  unfold nextListBody. repeat (case_match; try done); cbn [stream pos set_pos] in *.
  - cbn [advances stream pos set_pos].
    match goal with H : _ !! (_ + 1) = Some _ |- _ => apply lookup_lt_Some in H end.
    split; [done|lia].
  - pose proof (Hll [] (set_pos d (pos d + 1))) as Hrec.
    destruct (ll _ _); cbn [advances stream pos set_pos] in *; try done.
    split; [tauto|lia].
Qed.

Lemma nextDictBody_advances (d : Decoder) : advances d (nextDictBody dl d).
Proof.
  unfold nextDictBody. repeat (case_match; try done); cbn [stream pos set_pos] in *.
  - cbn [advances stream pos set_pos].
    match goal with H : _ !! (_ + 1) = Some _ |- _ => apply lookup_lt_Some in H end.
    split; [done|lia].
  - pose proof (Hdl ∅ (set_pos d (pos d + 1))) as Hrec.
    destruct (dl _ _); cbn [advances stream pos set_pos] in *; try done.
    split; [tauto|lia].
Qed.

Lemma listLoopBody_advances (res : list Value) (d : Decoder) :
  advances d (listLoopBody no ll res d).
Proof.
  unfold listLoopBody. pose proof (Hno d) as H.
  destruct (no d) as [obj d1|e d1| |]; cbn [advances] in H; try done.
  destruct H as [Hs Hp].
  destruct (Nat.leb_spec (length (stream d1)) (pos d1)); [done|].
  destruct (stream d1 !! pos d1) as [c|]; [|done].
  destruct (Ascii.eqb c "e").
  - cbn [advances stream pos set_pos]. split; [done|]. rewrite <- Hs. lia.
  - pose proof (Hll (res ++ [obj]) d1) as H'.
    destruct (ll _ d1); cbn [advances] in *; try done; [|congruence].
    rewrite <- Hs. split; [tauto|lia].
Qed.

Lemma dictLoopBody_advances (res : gmap string Value) (d : Decoder) :
  advances d (dictLoopBody no dl res d).
Proof.
  unfold dictLoopBody. pose proof (nextString_advances d) as H0.
  destruct (nextString d) as [key d0|e d0| |]; cbn [advances] in H0; try done.
  destruct H0 as [Hs0 Hp0].
  pose proof (Hno d0) as H.
  destruct (no d0) as [obj d1|e d1| |]; cbn [advances] in H; try done; [|congruence].
  destruct H as [Hs Hp].
  destruct (Nat.leb_spec (length (stream d1)) (pos d1)); [cbn; congruence|].
  destruct (stream d1 !! pos d1) as [c|]; [|done].
  destruct (Ascii.eqb c "e").
  - cbn [advances stream pos set_pos]. split; [congruence|]. rewrite <- Hs0, <- Hs. lia.
  - pose proof (Hdl (<[key:=obj]> res) d1) as H'.
    destruct (dl _ d1); cbn [advances] in *; try done; [|congruence].
    rewrite <- Hs0, <- Hs. split; [tauto|lia].
Qed.
End advances.

Lemma fuel_advances (fuel : nat) :
  (∀ d, advances d (nextObject fuel d))
  ∧ (∀ res d, advances d (listLoop fuel res d))
  ∧ (∀ res d, advances d (dictLoop fuel res d)).
Proof.
  induction fuel as [|fuel (IHo & IHl & IHd)]; [done|].
  split_and!; intros.
  - rewrite nextObject_S. apply nextObjectBody_advances; intros.
    + by apply nextListBody_advances.
    + by apply nextDictBody_advances.
  - rewrite listLoop_S. by apply listLoopBody_advances.
  - rewrite dictLoop_S. by apply dictLoopBody_advances.
Qed.

Lemma nextObject_advances (fuel : nat) (d : Decoder) : advances d (nextObject fuel d).
Proof. apply fuel_advances. Qed.

(** ** [Decode] never runs out of fuel *)

Lemma finish_OutOfFuel {A : Type} (r : result A) :
  finish r = OutOfFuel → r = OutOfFuel.
Proof. by destruct r. Qed.

Lemma result_map_OutOfFuel {A B : Type} (f : A → B) (r : result A) :
  result_map f r = OutOfFuel → r = OutOfFuel.
Proof. by destruct r. Qed.

Lemma nextInteger_fuel (d : Decoder) : nextInteger d ≠ OutOfFuel.
Proof. unfold nextInteger. repeat (case_match; try done). Qed.

Lemma nextString_fuel (d : Decoder) : nextString d ≠ OutOfFuel.
Proof. unfold nextString. repeat (case_match; try done). Qed.

Lemma fuel_enough (fuel : nat) :
  (∀ d, 2 * (length (stream d) - pos d) + 1 ≤ fuel → nextObject fuel d ≠ OutOfFuel)
  ∧ (∀ res d, 2 * (length (stream d) - pos d) + 2 ≤ fuel →
       listLoop fuel res d ≠ OutOfFuel)
  ∧ (∀ res d, 2 * (length (stream d) - pos d) + 2 ≤ fuel →
       dictLoop fuel res d ≠ OutOfFuel).
Proof.
  induction fuel as [|fuel (IHo & IHl & IHd)]; [split_and!; intros; lia|].
  split_and!.
  - intros d Hf. rewrite nextObject_S. unfold nextObjectBody.
    destruct (Consumed d); [done|].
    destruct (stream d !! pos d) as [c|] eqn:Hc; [|done].
    apply lookup_lt_Some in Hc.
    intros Hoof%finish_OutOfFuel. revert Hoof.
    repeat case_match; try done; intros Hoof%result_map_OutOfFuel; revert Hoof.
    + apply nextInteger_fuel.
    + unfold nextListBody. repeat (case_match; try done).
      apply IHl. cbn [stream pos set_pos]. lia.
    + unfold nextDictBody. repeat (case_match; try done).
      apply IHd. cbn [stream pos set_pos]. lia.
    + apply nextString_fuel.
  - intros res d Hf. rewrite listLoop_S. unfold listLoopBody.
    pose proof (nextObject_advances fuel d) as Ha.
    destruct (nextObject fuel d) as [obj d1|e d1| |] eqn:Ho; try done.
    + destruct Ha as [Hs Hp].
      destruct (Nat.leb_spec (length (stream d1)) (pos d1)); [done|].
      repeat (case_match; try done). apply IHl. rewrite Hs in *. lia.
    + exfalso. revert Ho. apply IHo. lia.
  - intros res d Hf. rewrite dictLoop_S. unfold dictLoopBody.
    pose proof (nextString_advances d) as Ha0.
    pose proof (nextString_fuel d) as Hf0.
    destruct (nextString d) as [key d0|e d0| |]; try done.
    destruct Ha0 as [Hs0 Hp0].
    pose proof (nextObject_advances fuel d0) as Ha.
    destruct (nextObject fuel d0) as [obj d1|e d1| |] eqn:Ho; try done.
    + destruct Ha as [Hs Hp].
      destruct (Nat.leb_spec (length (stream d1)) (pos d1)); [done|].
      repeat (case_match; try done). apply IHd. rewrite Hs, Hs0 in *. lia.
    + exfalso. revert Ho. apply IHo. rewrite Hs0. lia.
Qed.

(** [Decode] is total in the model: the fuel it is given is enough. *)
Lemma Decode_fuel (d : Decoder) : Decode d ≠ OutOfFuel.
Proof. unfold Decode, fuelFor. apply fuel_enough. lia. Qed.

(** Whatever [nextObject] returns with some fuel is what [Decode] returns. *)
Lemma Decode_nextObject (fuel : nat) (d : Decoder) (r : result Value) :
  nextObject fuel d = r → r ≠ OutOfFuel → Decode d = r.
Proof.
  intros Hr Hne. destruct (Nat.le_ge_cases fuel (fuelFor d)) as [Hle|Hge].
  - by apply (nextObject_fuel_ge fuel).
  - pose proof (Decode_fuel d) as Hd.
    pose proof (nextObject_fuel_ge (fuelFor d) fuel d _ eq_refl Hd Hge) as H.
    unfold Decode. congruence.
Qed.

(** ** Induction on values *)

Lemma vsize_elem (l : list Value) (v : Value) :
  v ∈ l → vsize v < vsize (VList l).
Proof.
  cbn [vsize]. induction 1 as [v l|v w l _ IH]; cbn [foldr]; lia.
Qed.

Lemma vsize_lookup (m : gmap string Value) (k : string) (v : Value) :
  m !! k = Some v → vsize v < vsize (VDict m).
Proof.
  intros Hk. cbn [vsize].
  rewrite (map_fold_delete_L _ _ k v m); [lia| |done].
  intros. lia.
Qed.

Lemma Value_ind' (P : Value → Prop) :
  (∀ i, P (VInteger i)) →
  (∀ s, P (VString s)) →
  (∀ l, Forall P l → P (VList l)) →
  (∀ m, map_Forall (λ _ v, P v) m → P (VDict m)) →
  ∀ v, P v.
Proof.
  intros Hi Hs Hl Hd v.
  remember (vsize v) as n eqn:Hn. revert v Hn.
  induction n as [n IH] using lt_wf_ind. intros v ->.
  destruct v as [i|s|l|m]; [apply Hi|apply Hs|apply Hl|apply Hd].
  - apply Forall_forall. intros v Hv. apply (IH (vsize v)); [by apply vsize_elem|done].
  - intros k v Hk. apply (IH (vsize v)); [by eapply vsize_lookup|done].
Qed.

(** ** Values of Go, and values without an empty part *)

Lemma map_fold_andb {A : Type} (f : string → A → bool) (m : gmap string A) :
  map_fold (λ k x b, f k x && b) true m = true ↔ map_Forall (λ k x, f k x = true) m.
Proof.
  apply (map_fold_weak_ind (λ b m, b = true ↔ map_Forall (λ k x, f k x = true) m)).
  - split; [intros _; apply map_Forall_empty|done].
  - intros k x m' b Hk IH. rewrite andb_true_iff, IH, map_Forall_insert by done. done.
Qed.

Lemma representable_VDict (m : gmap string Value) :
  representable (VDict m) = true ↔
  map_Forall (λ k x, goString k = true ∧ representable x = true) m.
Proof.
  cbn [representable]. rewrite (map_fold_andb (λ k x, goString k && representable x)).
  unfold map_Forall. by setoid_rewrite andb_true_iff.
Qed.

Lemma noEmpty_VDict (m : gmap string Value) :
  noEmpty (VDict m) = true ↔
  m ≠ ∅ ∧ map_Forall (λ k x, nonEmptyString k = true ∧ noEmpty x = true) m.
Proof.
  cbn [noEmpty]. rewrite andb_true_iff, negb_true_iff, Nat.eqb_neq, map_size_non_empty_iff.
  rewrite (map_fold_andb (λ k x, nonEmptyString k && noEmpty x)).
  unfold map_Forall. by setoid_rewrite andb_true_iff.
Qed.

Lemma forallb_Forall {A : Type} (f : A → bool) (l : list A) :
  forallb f l = true ↔ Forall (λ x, f x = true) l.
Proof.
  induction l as [|x l IH]; cbn [forallb].
  - split; [by constructor|done].
  - rewrite andb_true_iff, Forall_cons, IH. done.
Qed.

Lemma noEmpty_VList (l : list Value) :
  noEmpty (VList l) = true ↔ l ≠ [] ∧ Forall (λ x, noEmpty x = true) l.
Proof.
  cbn [noEmpty]. rewrite andb_true_iff, negb_true_iff, Nat.eqb_neq, forallb_Forall.
  by rewrite length_zero_iff_nil.
Qed.

Lemma representable_VList (l : list Value) :
  representable (VList l) = true ↔ Forall (λ x, representable x = true) l.
Proof. cbn [representable]. apply forallb_Forall. Qed.

(** ** The encoder, in the shape of the source *)

Lemma foldl_app_concat (acc : list ascii) (objs : list (list ascii)) :
  foldl (λ ret obj, ret ++ obj) acc objs = acc ++ concat objs.
Proof.
  revert acc. induction objs as [|o objs IH]; intros acc; cbn [foldl concat].
  - by rewrite app_nil_r.
  - by rewrite IH, app_assoc.
Qed.

Lemma encodeList_eq (l : list Value) :
  encodeList l =
    if length l <=? 0 then []
    else "l"%char :: concat (encodeObject <$> l) ++ ["e"%char].
Proof.
  unfold encodeList, encodeListOf. rewrite length_fmap.
  case_match; [done|]. by rewrite foldl_app_concat.
Qed.

Lemma foldl_entries (objs : gmap string (list ascii)) (acc : list ascii) (keys : list string) :
  foldl (λ ret k, (ret ++ encodeString k) ++ default [] (objs !! k)) acc keys
  = acc ++ concat ((λ k, encodeString k ++ default [] (objs !! k)) <$> keys).
Proof.
  revert acc. induction keys as [|k keys IH]; intros acc; cbn [foldl fmap list_fmap concat].
  - by rewrite app_nil_r.
  - rewrite IH. by rewrite <- !app_assoc.
Qed.

Lemma sortStrings_Permutation (l1 l2 : list string) :
  l1 ≡ₚ l2 → sortStrings l1 = sortStrings l2.
Proof.
  intros Hp. unfold sortStrings.
  apply (StronglySorted_unique String.le).
  - apply StronglySorted_merge_sort; apply _.
  - apply StronglySorted_merge_sort; apply _.
  - by rewrite !merge_sort_Permutation.
Qed.

Lemma rangeKeys_fmap {A B : Type} (f : A → B) (m : gmap string A) :
  rangeKeys (f <$> m) ≡ₚ rangeKeys m.
Proof.
  unfold rangeKeys. rewrite map_to_list_fmap, <- list_fmap_compose.
  assert (Heq : (fst ∘ prod_map id f <$> map_to_list m) = (map_to_list m).*1).
  { apply list_fmap_ext. by intros i [k x]. }
  by rewrite Heq.
Qed.

Lemma encodeDict_eq (m : gmap string Value) :
  encodeDict m =
    if size m <=? 0 then []
    else "d"%char :: concat (encodeEntry m <$> sortStrings (rangeKeys m)) ++ ["e"%char].
Proof.
  unfold encodeDict, encodeDictOf, encodeDictFrom. rewrite map_size_fmap.
  case_match; [done|]. rewrite foldl_entries.
  rewrite (sortStrings_Permutation _ _ (rangeKeys_fmap encodeObject m)).
  cbn [app]. do 3 f_equal. apply list_fmap_ext. intros i k _.
  unfold encodeEntry. by rewrite lookup_fmap.
Qed.

Lemma encodeObject_VList (l : list Value) : encodeObject (VList l) = encodeList l.
Proof. done. Qed.

Lemma encodeObject_VDict (m : gmap string Value) : encodeObject (VDict m) = encodeDict m.
Proof. done. Qed.

(** ** Decoding well-formed streams

    The lemmas of this section do not depend on the encoder: [enc] and
    [encKey] give the bytes of the values and of the keys in the stream, and
    are only asked to be read back by [nextObject] and [nextString]. *)

Lemma markConsumed_lt (d : Decoder) :
  pos d < length (stream d) → markConsumed d = d.
Proof.
  intros H. unfold markConsumed.
  by destruct (Nat.leb_spec (length (stream d)) (pos d)); [lia|].
Qed.

Lemma markConsumed_end (d : Decoder) :
  length (stream d) ≤ pos d → markConsumed d = set_Consumed d true.
Proof.
  intros H. unfold markConsumed.
  by destruct (Nat.leb_spec (length (stream d)) (pos d)); [|lia].
Qed.

Lemma insertAll_foldl (l : list (string * Value)) : insertAll l = foldl insertEntry ∅ l.
Proof. done. Qed.

Section wire.
Context (enc : Value → list ascii) (encKey : string → list ascii).

(** The loop of [nextList] over the bytes of [v :: vs], up to the closing
    ['e']. *)
Lemma listLoop_wire (vs : list Value) :
  Forall (readsBack enc) vs →
  ∀ v res d suf,
    readsBack enc v →
    Consumed d = false →
    drop (pos d) (stream d) = concat (enc <$> (v :: vs)) ++ "e"%char :: suf →
    ∃ fuel, listLoop fuel res d
            = Ret (res ++ v :: vs)
                  (set_pos d (pos d + length (concat (enc <$> (v :: vs))) + 1)).
Proof.
  induction 1 as [|v' vs Hv' Hall IH]; intros v res d suf [_ Hdec] Hc Hdrop.
  - cbn [fmap list_fmap concat] in *. rewrite app_nil_r in *.
    destruct (Hdec d ("e"%char :: suf) Hc Hdrop) as [fuel Hf].
    exists (S fuel). rewrite listLoop_S. unfold listLoopBody. rewrite Hf.
    pose proof (drop_app_drop _ _ _ _ Hdrop) as Hd1.
    pose proof (drop_length_eq _ _ _ _ Hd1) as Hlen.
    rewrite markConsumed_lt by (cbn [stream pos set_pos]; lia).
    cbn [stream pos set_pos].
    destruct (Nat.leb_spec (length (stream d)) (pos d + length (enc v))); [lia|].
    rewrite (drop_cons_lookup _ _ _ _ Hd1). change (Ascii.eqb "e" "e") with true.
    cbn match. done.
  - cbn [fmap list_fmap concat] in Hdrop. rewrite <- app_assoc in Hdrop.
    destruct (Hdec d _ Hc Hdrop) as [fuel1 Hf1].
    pose proof (drop_app_drop _ _ _ _ Hdrop) as Hd1.
    destruct Hv' as [(c & r & Heq & Hce) Hdec'].
    assert (Hd1' : drop (pos d + length (enc v)) (stream d)
                   = c :: r ++ concat (enc <$> vs) ++ "e"%char :: suf).
    { rewrite Hd1. cbn [fmap list_fmap concat]. rewrite Heq.
      by rewrite <- !app_assoc. }
    pose proof (drop_length_eq _ _ _ _ Hd1') as Hlen.
    destruct (IH v' (res ++ [v]) (set_pos d (pos d + length (enc v))) suf) as [fuel2 Hf2].
    { split; [by exists c, r|done]. }
    { done. }
    { cbn [stream pos set_pos]. by rewrite Hd1. }
    exists (S (fuel1 `max` fuel2)). rewrite listLoop_S. unfold listLoopBody.
    rewrite (nextObject_fuel_ge fuel1 _ d _ Hf1) by (done || lia).
    rewrite markConsumed_lt by (cbn [stream pos set_pos]; lia).
    cbn [stream pos set_pos] in *.
    destruct (Nat.leb_spec (length (stream d)) (pos d + length (enc v))); [lia|].
    rewrite (drop_cons_lookup _ _ _ _ Hd1'). rewrite Hce.
    rewrite (listLoop_fuel_ge fuel2 _ _ _ _ Hf2) by (done || lia).
    rewrite <- app_assoc. cbn [app fmap list_fmap concat]. rewrite !length_app.
    unfold set_pos. cbn [stream pos Consumed]. do 2 f_equal. lia.
Qed.

(** [nextObject] on ['l'], the bytes of [vs], ['e']. *)
Lemma nextObject_list_wire (vs : list Value) (d : Decoder) (suf : list ascii) :
  Forall (readsBack enc) vs →
  Consumed d = false →
  drop (pos d) (stream d) = "l"%char :: concat (enc <$> vs) ++ "e"%char :: suf →
  ∃ fuel, nextObject fuel d
          = Ret (VList vs)
                (markConsumed (set_pos d (pos d + (length (concat (enc <$> vs)) + 2)))).
Proof.
  intros Hall Hc Hdrop.
  pose proof (drop_cons_drop _ _ _ _ Hdrop) as Hd1.
  assert (Hhead : ∀ fuel, nextObject (S fuel) d
    = finish (result_map VList (nextListBody (listLoop fuel) d))).
  { intros fuel. rewrite nextObject_S. unfold nextObjectBody. rewrite Hc.
    rewrite (drop_cons_lookup _ _ _ _ Hdrop).
    change (Ascii.eqb "l" "i") with false. change (Ascii.eqb "l" "l") with true. done. }
  destruct vs as [|v vs].
  - exists 1. rewrite Hhead. unfold nextListBody.
    rewrite (drop_cons_lookup _ _ _ _ Hdrop).
    change (Ascii.eqb "l" "l") with true. cbn [negb]. cbn match. cbn [stream pos set_pos].
    cbn [fmap list_fmap concat app] in Hd1.
    rewrite (drop_cons_lookup _ _ _ _ Hd1). change (Ascii.eqb "e" "e") with true.
    cbn [result_map finish fmap list_fmap concat length].
    do 2 f_equal. unfold set_pos. cbn [stream pos Consumed]. f_equal. lia.
  - apply Forall_cons in Hall as [Hv Hall].
    destruct (listLoop_wire vs Hall v [] (set_pos d (pos d + 1)) suf Hv Hc Hd1) as [fuel Hf].
    destruct Hv as [(c & r & Heq & Hce) _].
    exists (S fuel). rewrite Hhead. unfold nextListBody.
    rewrite (drop_cons_lookup _ _ _ _ Hdrop).
    change (Ascii.eqb "l" "l") with true. cbn [negb]. cbn match. cbn [stream pos set_pos].
    assert (Hl1 : stream d !! (pos d + 1) = Some c).
    { eapply drop_cons_lookup. rewrite Hd1. cbn [fmap list_fmap concat]. rewrite Heq.
      cbn [app]. done. }
    rewrite Hl1, Hce. cbn [stream pos set_pos] in Hf. rewrite Hf.
    cbn [result_map finish app].
    do 2 f_equal. unfold set_pos. cbn [stream pos Consumed]. f_equal. lia.
Qed.

(** The loop of [nextList] over the bytes of [v :: vs] when the buffer ends
    after them. *)
Lemma listLoop_open (vs : list Value) :
  Forall (readsBack enc) vs →
  ∀ v res d,
    readsBack enc v →
    Consumed d = false →
    drop (pos d) (stream d) = concat (enc <$> (v :: vs)) →
    ∃ fuel, listLoop fuel res d
            = Fail ErrorNoTerminator (mkDecoder (stream d) (length (stream d)) true).
Proof.
  induction 1 as [|v' vs Hv' Hall IH]; intros v res d [Hst Hdec] Hc Hdrop.
  - cbn [fmap list_fmap concat] in *. rewrite app_nil_r in Hdrop.
    rewrite <- (app_nil_r (enc v)) in Hdrop.
    destruct (Hdec d [] Hc Hdrop) as [fuel Hf].
    exists (S fuel). rewrite listLoop_S. unfold listLoopBody. rewrite Hf.
    destruct Hst as (c & r & Heq & _).
    assert (Hlen : length (stream d) = pos d + length (enc v)).
    { apply (f_equal length) in Hdrop. rewrite length_drop, app_nil_r in Hdrop.
      rewrite Heq in *. cbn [length] in *. lia. }
    rewrite markConsumed_end by (cbn [stream pos set_pos]; lia).
    cbn [stream pos set_pos set_Consumed].
    destruct (Nat.leb_spec (length (stream d)) (pos d + length (enc v))); [|lia].
    by rewrite <- Hlen.
  - cbn [fmap list_fmap concat] in Hdrop.
    destruct (Hdec d _ Hc Hdrop) as [fuel1 Hf1].
    pose proof (drop_app_drop _ _ _ _ Hdrop) as Hd1.
    destruct Hv' as [(c & r & Heq & Hce) Hdec'].
    assert (Hd1' : drop (pos d + length (enc v)) (stream d)
                   = c :: r ++ concat (enc <$> vs)).
    { rewrite Hd1. rewrite Heq. done. }
    pose proof (drop_length_eq _ _ _ _ Hd1') as Hlen.
    destruct (IH v' (res ++ [v]) (set_pos d (pos d + length (enc v)))) as [fuel2 Hf2].
    { split; [by exists c, r|done]. }
    { done. }
    { cbn [stream pos set_pos]. by rewrite Hd1. }
    exists (S (fuel1 `max` fuel2)). rewrite listLoop_S. unfold listLoopBody.
    rewrite (nextObject_fuel_ge fuel1 _ d _ Hf1) by (done || lia).
    rewrite markConsumed_lt by (cbn [stream pos set_pos]; lia).
    cbn [stream pos set_pos] in *.
    destruct (Nat.leb_spec (length (stream d)) (pos d + length (enc v))); [lia|].
    rewrite (drop_cons_lookup _ _ _ _ Hd1'). rewrite Hce.
    by rewrite (listLoop_fuel_ge fuel2 _ _ _ _ Hf2) by (done || lia).
Qed.

(** [nextObject] on ['l'] and the bytes of [v :: vs], the buffer ending
    there. *)
Lemma nextObject_list_open (v : Value) (vs : list Value) (d : Decoder) :
  Forall (readsBack enc) (v :: vs) →
  Consumed d = false →
  drop (pos d) (stream d) = "l"%char :: concat (enc <$> (v :: vs)) →
  ∃ fuel, nextObject fuel d
          = Fail ErrorNoTerminator (mkDecoder (stream d) (length (stream d)) true).
Proof.
  intros Hall Hc Hdrop. apply Forall_cons in Hall as [Hv Hall].
  pose proof (drop_cons_drop _ _ _ _ Hdrop) as Hd1.
  destruct (listLoop_open vs Hall v [] (set_pos d (pos d + 1)) Hv Hc Hd1) as [fuel Hf].
  destruct Hv as [(c & r & Heq & Hce) _].
  exists (S fuel). rewrite nextObject_S. unfold nextObjectBody. rewrite Hc.
  rewrite (drop_cons_lookup _ _ _ _ Hdrop).
  change (Ascii.eqb "l" "i") with false. change (Ascii.eqb "l" "l") with true.
  cbn match. unfold nextListBody.
  rewrite (drop_cons_lookup _ _ _ _ Hdrop).
  change (Ascii.eqb "l" "l") with true. cbn [negb]. cbn match. cbn [stream pos set_pos].
  assert (Hl1 : stream d !! (pos d + 1) = Some c).
  { eapply drop_cons_lookup. rewrite Hd1. cbn [fmap list_fmap concat]. rewrite Heq.
    cbn [app]. done. }
  rewrite Hl1, Hce. cbn [stream pos set_pos] in Hf. rewrite Hf.
  cbn [result_map finish]. f_equal.
  unfold markConsumed. cbn [stream pos]. by rewrite Nat.leb_refl.
Qed.

(** The loop of [nextDict] over the bytes of the entries [kv :: es], up to
    the closing ['e']. Keys may repeat. *)
Lemma dictLoop_wire (es : list (string * Value)) :
  Forall (λ kv, readsKey encKey kv.1 ∧ readsBack enc kv.2) es →
  ∀ kv res d suf,
    readsKey encKey kv.1 → readsBack enc kv.2 →
    Consumed d = false →
    drop (pos d) (stream d)
    = concat (wireEntry encKey enc <$> (kv :: es)) ++ "e"%char :: suf →
    ∃ fuel, dictLoop fuel res d
            = Ret (foldl insertEntry res (kv :: es))
                  (set_pos d (pos d + length (concat (wireEntry encKey enc <$> (kv :: es))) + 1)).
Proof.
  induction 1 as [|kv' es [Hk' Hv'] Hall IH];
    intros [k v] res d suf [_ Hkey] [_ Hdec] Hc Hdrop; cbn [fst snd] in *.
  - cbn [fmap list_fmap concat] in *. rewrite app_nil_r in *.
    unfold wireEntry in *. cbn [fst snd] in *. rewrite <- app_assoc in Hdrop.
    pose proof (Hkey d _ Hdrop) as Hs.
    pose proof (drop_app_drop _ _ _ _ Hdrop) as Hd0.
    destruct (Hdec (set_pos d (pos d + length (encKey k))) ("e"%char :: suf) Hc Hd0)
      as [fuel Hf].
    exists (S fuel). rewrite dictLoop_S. unfold dictLoopBody. rewrite Hs, Hf.
    pose proof (drop_app_drop _ _ _ _ Hd0) as Hd1.
    pose proof (drop_length_eq _ _ _ _ Hd1) as Hlen.
    cbn [stream pos set_pos] in *.
    rewrite markConsumed_lt by (cbn [stream pos set_pos]; lia).
    cbn [stream pos set_pos].
    destruct (Nat.leb_spec (length (stream d))
                (pos d + length (encKey k) + length (enc v))); [lia|].
    rewrite (drop_cons_lookup _ _ _ _ Hd1). change (Ascii.eqb "e" "e") with true.
    cbn match. cbn [foldl]. unfold insertEntry, set_pos. cbn [fst snd stream pos Consumed].
    rewrite length_app. do 2 f_equal. lia.
  - cbn [fmap list_fmap concat] in Hdrop. rewrite <- app_assoc in Hdrop.
    unfold wireEntry at 1 in Hdrop. cbn [fst snd] in Hdrop. rewrite <- app_assoc in Hdrop.
    pose proof (Hkey d _ Hdrop) as Hs.
    pose proof (drop_app_drop _ _ _ _ Hdrop) as Hd0.
    destruct (Hdec (set_pos d (pos d + length (encKey k))) _ Hc Hd0) as [fuel1 Hf1].
    pose proof (drop_app_drop _ _ _ _ Hd0) as Hd1.
    destruct Hk' as [(c & r & Heq & Hcd) Hkey'].
    destruct (isDigit_not_special c Hcd) as (Hce & _).
    assert (Hd1' : drop (pos d + length (encKey k) + length (enc v)) (stream d)
                   = c :: r ++ enc kv'.2
                       ++ concat (wireEntry encKey enc <$> es) ++ "e"%char :: suf).
    { rewrite Hd1. cbn [fmap list_fmap concat]. unfold wireEntry at 1. rewrite Heq.
      cbn [app]. by rewrite <- !app_assoc. }
    pose proof (drop_length_eq _ _ _ _ Hd1') as Hlen.
    destruct (IH kv' (<[k:=v]> res)
                (set_pos d (pos d + length (encKey k) + length (enc v))) suf)
      as [fuel2 Hf2].
    { split; [by exists c, r|done]. }
    { done. }
    { done. }
    { cbn [stream pos set_pos]. by rewrite Hd1. }
    exists (S (fuel1 `max` fuel2)). rewrite dictLoop_S. unfold dictLoopBody.
    rewrite Hs.
    rewrite (nextObject_fuel_ge fuel1 _ _ _ Hf1) by (done || lia).
    rewrite markConsumed_lt by (cbn [stream pos set_pos]; lia).
    cbn [stream pos set_pos Consumed] in *.
    destruct (Nat.leb_spec (length (stream d))
                (pos d + length (encKey k) + length (enc v))); [lia|].
    rewrite (drop_cons_lookup _ _ _ _ Hd1'). rewrite Hce.
    rewrite (dictLoop_fuel_ge fuel2 _ _ _ _ Hf2) by (done || lia).
    cbn [foldl]. unfold insertEntry at 2. cbn [fst snd].
    cbn [fmap list_fmap concat].
    unfold wireEntry at 3. cbn [fst snd]. rewrite !length_app. do 2 f_equal. lia.
Qed.

(** [nextObject] on ['d'], the bytes of the entries [es] in the order of the
    stream, ['e']: the map is built by inserting the entries in that
    order. *)
Lemma nextObject_dict_wire (es : list (string * Value)) (d : Decoder) (suf : list ascii) :
  Forall (λ kv, readsKey encKey kv.1 ∧ readsBack enc kv.2) es →
  Consumed d = false →
  drop (pos d) (stream d)
  = "d"%char :: concat (wireEntry encKey enc <$> es) ++ "e"%char :: suf →
  ∃ fuel, nextObject fuel d
          = Ret (VDict (insertAll es))
                (markConsumed
                   (set_pos d (pos d + (length (concat (wireEntry encKey enc <$> es)) + 2)))).
Proof.
  intros Hall Hc Hdrop.
  pose proof (drop_cons_drop _ _ _ _ Hdrop) as Hd1.
  assert (Hhead : ∀ fuel, nextObject (S fuel) d
    = finish (result_map VDict (nextDictBody (dictLoop fuel) d))).
  { intros fuel. rewrite nextObject_S. unfold nextObjectBody. rewrite Hc.
    rewrite (drop_cons_lookup _ _ _ _ Hdrop).
    change (Ascii.eqb "d" "i") with false. change (Ascii.eqb "d" "l") with false.
    change (Ascii.eqb "d" "d") with true. done. }
  destruct es as [|kv es].
  - exists 1. rewrite Hhead. unfold nextDictBody.
    rewrite (drop_cons_lookup _ _ _ _ Hdrop).
    change (Ascii.eqb "d" "d") with true. cbn [negb]. cbn match. cbn [stream pos set_pos].
    cbn [fmap list_fmap concat app] in Hd1.
    rewrite (drop_cons_lookup _ _ _ _ Hd1). change (Ascii.eqb "e" "e") with true.
    cbn [result_map finish fmap list_fmap concat length].
    do 2 f_equal. unfold set_pos. cbn [stream pos Consumed]. f_equal. lia.
  - apply Forall_cons in Hall as [[Hk Hv] Hall].
    destruct (dictLoop_wire es Hall kv ∅ (set_pos d (pos d + 1)) suf Hk Hv Hc Hd1)
      as [fuel Hf].
    destruct Hk as [(c & r & Heq & Hcd) _].
    destruct (isDigit_not_special c Hcd) as (Hce & _).
    exists (S fuel). rewrite Hhead. unfold nextDictBody.
    rewrite (drop_cons_lookup _ _ _ _ Hdrop).
    change (Ascii.eqb "d" "d") with true. cbn [negb]. cbn match. cbn [stream pos set_pos].
    assert (Hl1 : stream d !! (pos d + 1) = Some c).
    { eapply drop_cons_lookup. rewrite Hd1. cbn [fmap list_fmap concat].
      unfold wireEntry at 1. rewrite Heq. cbn [app]. done. }
    rewrite Hl1, Hce. cbn [stream pos set_pos] in Hf. rewrite Hf.
    cbn [result_map finish app]. rewrite <- insertAll_foldl.
    do 2 f_equal. unfold set_pos. cbn [stream pos Consumed]. f_equal. lia.
Qed.

End wire.

(** ** Maps built by insertion *)

Lemma foldl_insertEntry_foldr (l : list (string * Value)) (acc : gmap string Value) :
  foldl insertEntry acc l = foldr (λ p, <[p.1:=p.2]>) acc (reverse l).
Proof.
  revert acc. induction l as [|kv l IH]; intros acc; [done|].
  cbn [foldl]. by rewrite IH, reverse_cons, foldr_app.
Qed.

(** Inserting the entries of a map, in any order, builds that map. *)
Lemma insertAll_map_to_list (m : gmap string Value) (l : list (string * Value)) :
  l ≡ₚ map_to_list m → insertAll l = m.
Proof.
  intros Hp. rewrite insertAll_foldl, foldl_insertEntry_foldr.
  symmetry. apply (list_to_map_flip m (reverse l)).
  by rewrite reverse_Permutation.
Qed.

Lemma foldl_insertEntry_notin (l : list (string * Value)) (acc : gmap string Value)
    (k : string) :
  k ∉ l.*1 → foldl insertEntry acc l !! k = acc !! k.
Proof.
  revert acc. induction l as [|[k' v'] l IH]; intros acc Hk; [done|].
  cbn [foldl]. rewrite fmap_cons, not_elem_of_cons in Hk. destruct Hk as [Hne Hk].
  rewrite IH by done. unfold insertEntry. cbn [fst snd] in *.
  by rewrite lookup_insert_ne.
Qed.

(** Last write wins: the map binds a key to the value of its last entry. *)
Lemma insertAll_last (l1 l2 : list (string * Value)) (k : string) (v : Value) :
  k ∉ l2.*1 → insertAll (l1 ++ (k, v) :: l2) !! k = Some v.
Proof.
  intros Hk. rewrite insertAll_foldl, foldl_app. cbn [foldl].
  rewrite foldl_insertEntry_notin by done. unfold insertEntry at 1. cbn [fst snd].
  by rewrite lookup_insert_eq.
Qed.

(** ** Values read back from their bytes *)

Lemma readsBack_VInteger (enc : Value → list ascii) (i : Z) :
  enc (VInteger i) = encodeInteger i → int64 i → readsBack enc (VInteger i).
Proof.
  intros Heq Hi. unfold readsBack. rewrite Heq. split; [by eexists _, _|].
  intros d suf Hc Hdrop. exists 1. rewrite nextObject_S. unfold nextObjectBody.
  rewrite Hc.
  rewrite (drop_cons_lookup _ _ "i"%char (strconv.FormatInt i ++ ["e"%char] ++ suf)).
  2:{ rewrite Hdrop. unfold encodeInteger. cbn [app]. by rewrite <- app_assoc. }
  change (Ascii.eqb "i" "i") with true. cbn match.
  by rewrite (nextInteger_encode d i suf Hi Hdrop).
Qed.

Lemma readsBack_VString (enc : Value → list ascii) (s : string) :
  enc (VString s) = Legacy.encodeString s → goString s = true →
  readsBack enc (VString s).
Proof.
  intros Heq Hs. unfold readsBack. rewrite Heq.
  destruct (Legacy_encodeString_starts s) as (c & r & Hcr & Hd).
  destruct (isDigit_not_special c Hd) as (Hce & _ & _ & _ & Hci & Hcl & Hcd).
  split; [by exists c, r|].
  intros d suf Hc Hdrop. exists 1. rewrite nextObject_S. unfold nextObjectBody.
  rewrite Hc.
  rewrite (drop_cons_lookup _ _ c (r ++ suf)) by (by rewrite Hdrop, Hcr).
  rewrite Hci, Hcl, Hcd, Hd. by rewrite (nextString_wire d s suf Hs Hdrop).
Qed.

Lemma readsBack_VList (enc : Value → list ascii) (l : list Value) :
  enc (VList l) = "l"%char :: concat (enc <$> l) ++ ["e"%char] →
  Forall (readsBack enc) l →
  readsBack enc (VList l).
Proof.
  intros Heq Hall. unfold readsBack. rewrite Heq. split; [by eexists _, _|].
  intros d suf Hc Hdrop.
  cbn [app] in Hdrop. rewrite <- app_assoc in Hdrop. cbn [app] in Hdrop.
  destruct (nextObject_list_wire enc l d suf Hall Hc Hdrop) as [fuel Hf].
  exists fuel. rewrite Hf. do 3 f_equal. cbn [length]. rewrite length_app. cbn [length]. lia.
Qed.

Lemma readsBack_VDict (enc : Value → list ascii) (encKey : string → list ascii)
    (m : gmap string Value) (es : list (string * Value)) :
  enc (VDict m) = "d"%char :: concat (wireEntry encKey enc <$> es) ++ ["e"%char] →
  es ≡ₚ map_to_list m →
  Forall (λ kv, readsKey encKey kv.1 ∧ readsBack enc kv.2) es →
  readsBack enc (VDict m).
Proof.
  intros Heq Hp Hall. unfold readsBack. rewrite Heq. split; [by eexists _, _|].
  intros d suf Hc Hdrop.
  cbn [app] in Hdrop. rewrite <- app_assoc in Hdrop. cbn [app] in Hdrop.
  destruct (nextObject_dict_wire enc encKey es d suf Hall Hc Hdrop) as [fuel Hf].
  exists fuel. rewrite Hf, (insertAll_map_to_list m es Hp).
  do 3 f_equal. cbn [length]. rewrite length_app. cbn [length]. lia.
Qed.

(** *** The older encoder: every value of Go is read back *)

Lemma Legacy_encodeObject_VList (l : list Value) :
  Legacy.encodeObject (VList l)
  = "l"%char :: concat (Legacy.encodeObject <$> l) ++ ["e"%char].
Proof. cbn [Legacy.encodeObject]. unfold Legacy.encodeListOf. by rewrite foldl_app_concat. Qed.

Lemma Legacy_encodeDictOf_eq (entries : list (string * list ascii)) :
  Legacy.encodeDictOf entries
  = "d"%char :: concat ((λ kv, Legacy.encodeString kv.1 ++ kv.2) <$> entries) ++ ["e"%char].
Proof.
  unfold Legacy.encodeDictOf.
  assert (H : ∀ acc, foldl (λ ret kv, (ret ++ Legacy.encodeString kv.1) ++ kv.2) acc entries
                     = acc ++ concat ((λ kv, Legacy.encodeString kv.1 ++ kv.2) <$> entries)).
  { induction entries as [|kv entries IH]; intros acc; cbn [foldl fmap list_fmap concat].
    - by rewrite app_nil_r.
    - rewrite IH. by rewrite <- !app_assoc. }
  by rewrite H.
Qed.

Lemma Legacy_encodeObject_VDict (m : gmap string Value) :
  Legacy.encodeObject (VDict m)
  = "d"%char
      :: concat (wireEntry Legacy.encodeString Legacy.encodeObject <$> map_to_list m)
      ++ ["e"%char].
Proof.
  cbn [Legacy.encodeObject]. rewrite Legacy_encodeDictOf_eq.
  by rewrite map_to_list_fmap, <- list_fmap_compose.
Qed.

Lemma readsBack_Legacy (v : Value) :
  representable v = true → readsBack Legacy.encodeObject v.
Proof.
  induction v as [i|s|l IH|m IH] using Value_ind'; intros Hrep.
  - apply readsBack_VInteger; [done|]. cbn [representable] in Hrep. unfold int64. lia.
  - by apply readsBack_VString.
  - apply representable_VList in Hrep.
    apply readsBack_VList; [apply Legacy_encodeObject_VList|].
    rewrite Forall_forall in *. intros v Hv. apply IH; [done|by apply Hrep].
  - apply representable_VDict in Hrep.
    apply (readsBack_VDict _ Legacy.encodeString m (map_to_list m));
      [apply Legacy_encodeObject_VDict|done|].
    apply Forall_forall. intros [k v] Hkv.
    apply elem_of_map_to_list in Hkv. destruct (Hrep k v Hkv) as [Hk Hv].
    split; [by apply readsKey_Legacy|]. by apply (IH k v Hkv).
Qed.

(** *** The encoder: every value of Go without an empty part is read back *)

Lemma entriesOf_Permutation (m : gmap string Value) (ks : list string) :
  ks ≡ₚ rangeKeys m → entriesOf m ks ≡ₚ map_to_list m.
Proof.
  intros Hp. unfold entriesOf. rewrite Hp. unfold rangeKeys.
  rewrite <- list_fmap_compose.
  assert (Heq : ((λ k, (k, default (VInteger 0) (m !! k))) ∘ fst <$> map_to_list m)
                = map_to_list m); [|by rewrite Heq].
  rewrite <- (list_fmap_id (map_to_list m)) at 2.
  apply Forall_fmap_ext, Forall_forall. intros [k v] Hkv.
  apply elem_of_map_to_list in Hkv. cbn. by rewrite Hkv.
Qed.

Lemma encodeEntry_wire (m : gmap string Value) (ks : list string) :
  Forall (λ k, is_Some (m !! k)) ks →
  encodeEntry m <$> ks = wireEntry encodeString encodeObject <$> entriesOf m ks.
Proof.
  unfold entriesOf. rewrite <- list_fmap_compose. intros Hall.
  apply Forall_fmap_ext. eapply Forall_impl; [exact Hall|].
  intros k [v Hv]. unfold encodeEntry, wireEntry. cbn. by rewrite Hv.
Qed.

Lemma rangeKeys_lookup (m : gmap string Value) (k : string) :
  k ∈ rangeKeys m → is_Some (m !! k).
Proof.
  unfold rangeKeys. intros ([k' v] & -> & Hkv)%list_elem_of_fmap.
  apply elem_of_map_to_list in Hkv. by exists v.
Qed.

(** The bytes of a non-empty dictionary are those of its entries in the
    order of the sorted keys. *)
Lemma encodeObject_VDict_wire (m : gmap string Value) :
  m ≠ ∅ →
  ∃ es, es ≡ₚ map_to_list m
        ∧ encodeObject (VDict m)
          = "d"%char :: concat (wireEntry encodeString encodeObject <$> es) ++ ["e"%char].
Proof.
  intros Hne. rewrite encodeObject_VDict, encodeDict_eq.
  apply map_size_non_empty_iff in Hne. destruct (size m) as [|n]; [done|]. cbn [Nat.leb].
  set (ks := sortStrings (rangeKeys m)).
  assert (Hks : ks ≡ₚ rangeKeys m) by apply merge_sort_Permutation.
  exists (entriesOf m ks). split; [by apply entriesOf_Permutation|].
  rewrite encodeEntry_wire; [done|].
  apply Forall_forall. intros k Hk. apply rangeKeys_lookup. by rewrite <- Hks.
Qed.

Lemma readsBack_encodeObject (v : Value) :
  representable v = true → noEmpty v = true → readsBack encodeObject v.
Proof.
  induction v as [i|s|l IH|m IH] using Value_ind'; intros Hrep Hne.
  - apply readsBack_VInteger; [done|]. cbn [representable] in Hrep. unfold int64. lia.
  - apply readsBack_VString; [|done]. cbn [encodeObject].
    apply encodeString_nonempty. by destruct s.
  - apply representable_VList in Hrep. apply noEmpty_VList in Hne as [Hnil Hne].
    apply readsBack_VList.
    { rewrite encodeObject_VList, encodeList_eq. by destruct l. }
    rewrite Forall_forall in *. intros v Hv. apply IH; [done|by apply Hrep|by apply Hne].
  - apply representable_VDict in Hrep. apply noEmpty_VDict in Hne as [Hnil Hne].
    destruct (encodeObject_VDict_wire m Hnil) as (es & Hp & Heq).
    apply (readsBack_VDict _ encodeString m es Heq Hp).
    apply Forall_forall. intros [k v] Hkv. rewrite Hp in Hkv.
    apply elem_of_map_to_list in Hkv.
    destruct (Hrep k v Hkv) as [Hgk Hrv]. destruct (Hne k v Hkv) as [Hnk Hnv].
    split; [by apply readsKey_encodeString|]. by apply (IH k v Hkv).
Qed.

(** ** Round trip *)

Lemma Encode_encodeObject (v : Value) : Encode v = encodeObject v.
Proof.
  unfold Encode, Encoder_Encode, NewEncoder. destruct (encodeObject v) as [|c r] eqn:He.
  - done.
  - done.
Qed.

(** C1, as the code has it: for every value [v] of Go (integers in [int64],
    string lengths in [int]) in which no string, list or dictionary is empty,
    dictionary keys included, decoding a buffer that starts with the bytes
    of [Encode v] returns [v] and leaves the cursor just behind these bytes,
    whatever bytes [rest] follow; [Consumed] is set when none does. *)
Theorem Decode_Encode_noEmpty (v : Value) (rest : list ascii) :
  representable v = true →
  noEmpty v = true →
  let s := Encode v ++ rest in
  Decode (NewDecoder s)
  = Ret v (mkDecoder s (length (Encode v)) (bool_decide (rest = []))).
Proof.
  intros Hrep Hne s. subst s. rewrite Encode_encodeObject.
  destruct (readsBack_encodeObject v Hrep Hne) as [_ Hdec].
  destruct (Hdec (NewDecoder (encodeObject v ++ rest)) rest) as [fuel Hf]; [done|done|].
  apply (Decode_nextObject fuel); [|done]. rewrite Hf. f_equal.
  unfold markConsumed, set_pos, set_Consumed, NewDecoder. cbn [stream pos Consumed].
  rewrite length_app. destruct rest as [|c rest]; cbn [length].
  - rewrite bool_decide_eq_true_2 by done.
    destruct (Nat.leb_spec (length (encodeObject v) + 0) (0 + length (encodeObject v)));
      [done|lia].
  - rewrite bool_decide_eq_false_2 by done.
    destruct (Nat.leb_spec (length (encodeObject v) + S (length rest))
                (0 + length (encodeObject v))); [lia|done].
Qed.

Lemma Decode_Encode_noEmpty_witness :
  representable sampleValue = true ∧ noEmpty sampleValue = true
  ∧ Decode (NewDecoder (Encode sampleValue))
    = Ret sampleValue (mkDecoder (Encode sampleValue) (length (Encode sampleValue)) true)
  ∧ Decode (NewDecoder (Encode sampleValue ++ bytes "i7e"))
    = Ret sampleValue
        (mkDecoder (Encode sampleValue ++ bytes "i7e") (length (Encode sampleValue)) false).
Proof.
  split; [vm_compute; reflexivity|]. split; [vm_compute; reflexivity|]. split.
  - exact (Decode_Encode_noEmpty sampleValue [] eq_refl eq_refl).
  - exact (Decode_Encode_noEmpty sampleValue (bytes "i7e") eq_refl eq_refl).
Defined.

(** C1, as stated, fails: the empty string is encoded as no bytes at all,
    and decoding the empty buffer reads [stream[0]] out of range. *)
Lemma Decode_Encode_empty_string :
  Encode (VString EmptyString) = []
  ∧ Decode (NewDecoder (Encode (VString EmptyString))) = Panic
  ∧ ¬ ∃ d, Decode (NewDecoder (Encode (VString EmptyString))) = Ret (VString EmptyString) d.
Proof.
  split; [done|]. split; [done|]. intros [d Hd]. vm_compute in Hd. discriminate.
Qed.

(** ** Canonical order of dictionary entries *)

Lemma insertAll_list_to_map (l : list (string * Value)) :
  insertAll l = list_to_map (reverse l).
Proof. by rewrite insertAll_foldl, foldl_insertEntry_foldr. Qed.

Lemma insertAll_Permutation (l1 l2 : list (string * Value)) :
  NoDup l1.*1 → l1 ≡ₚ l2 → insertAll l1 = insertAll l2.
Proof.
  intros Hnd Hp. rewrite !insertAll_list_to_map. apply list_to_map_proper.
  - by rewrite reverse_Permutation.
  - by rewrite !reverse_Permutation.
Qed.

Lemma rangeKeys_insertAll (l : list (string * Value)) :
  NoDup l.*1 → rangeKeys (insertAll l) ≡ₚ l.*1.
Proof.
  intros Hnd. unfold rangeKeys. rewrite insertAll_list_to_map.
  rewrite map_to_list_to_map by (by rewrite reverse_Permutation).
  by rewrite reverse_Permutation.
Qed.

(** C2: the entries of a dictionary are written in ascending order of their
    keys, compared byte by byte, whatever the order in which the map hands
    out its keys; so two dictionaries built from the same entries inserted
    in different orders have the same encoding. *)
Theorem encodeDict_sorted_canonical (l1 l2 : list (string * Value)) :
  NoDup l1.*1 →
  l1 ≡ₚ l2 →
  let m := insertAll l1 in
  (∃ ks, ks ≡ₚ l1.*1 ∧ StronglySorted String.le ks
         ∧ encodeDict m =
             if size m <=? 0 then []
             else "d"%char :: concat (encodeEntry m <$> ks) ++ ["e"%char])
  ∧ (∀ keys, keys ≡ₚ rangeKeys m →
       encodeDictFrom keys (encodeObject <$> m) = encodeDict m)
  ∧ Encode (VDict (insertAll l1)) = Encode (VDict (insertAll l2)).
Proof.
  intros Hnd Hp m. split_and!.
  - exists (sortStrings (rangeKeys m)). split_and!.
    + unfold sortStrings. rewrite merge_sort_Permutation. by apply rangeKeys_insertAll.
    + apply StronglySorted_merge_sort; apply _.
    + apply encodeDict_eq.
  - intros keys Hk. unfold encodeDict, encodeDictOf, encodeDictFrom.
    rewrite (sortStrings_Permutation keys (rangeKeys (encodeObject <$> m))); [done|].
    by rewrite Hk, rangeKeys_fmap.
  - by rewrite (insertAll_Permutation l1 l2).
Qed.

Lemma encodeDict_sorted_canonical_witness :
  let l1 := [("spam"%string, VString "eggs"); ("cow"%string, VString "moo")] in
  let l2 := [("cow"%string, VString "moo"); ("spam"%string, VString "eggs")] in
  Encode (VDict (insertAll l1)) = Encode (VDict (insertAll l2))
  ∧ Encode (VDict (insertAll l1)) = bytes "d3:cow3:moo4:spam4:eggse".
Proof.
  intros l1 l2. split; [|vm_compute; reflexivity].
  apply (encodeDict_sorted_canonical l1 l2).
  - compute_done.
  - apply perm_swap.
Defined.

(** ** Empty values *)

(** C3, as the code has it: an empty string, an empty list and an empty
    dictionary are each encoded as no bytes at all, and they are the only
    values whose encoding is empty. *)
Theorem Encode_of_empty_values (v : Value) :
  Encode (VString EmptyString) = [] ∧ Encode (VList []) = [] ∧ Encode (VDict ∅) = []
  ∧ (Encode v = [] ↔ isEmptyValue v = true).
Proof.
  split; [done|]. split; [done|]. split; [done|].
  rewrite Encode_encodeObject. destruct v as [i|s|l|m]; cbn [isEmptyValue].
  - done.
  - destruct s as [|c s]; [done|]. split; [|done].
    intros H. cbn [encodeObject] in H. rewrite encodeString_nonempty in H by done.
    destruct (Legacy_encodeString_starts (String c s)) as (c' & r & Heq & _). congruence.
  - rewrite encodeObject_VList, encodeList_eq. by destruct l.
  - rewrite encodeObject_VDict, encodeDict_eq. by destruct (size m).
Qed.

(** C3, as stated, fails: the encoding of the empty string is not ["0:"],
    that of the empty list not ["le"], that of the empty dictionary not
    ["de"]; each is the empty byte sequence. *)
Lemma empty_string_not_length_prefixed :
  Encode (VString EmptyString) ≠ bytes "0:" ∧ Encode (VList []) ≠ bytes "le"
  ∧ Encode (VDict ∅) ≠ bytes "de" ∧ Encode (VString EmptyString) = [].
Proof. split_and!; done. Qed.

(** ** Integers *)

(** C4, as the code has it: ["i-0e"] is accepted and decodes to the integer
    0, the decoder having no check for a negative zero; ["i-e"], a sign
    without digits, is rejected. Both whatever bytes [rest] follow. *)
Theorem Decode_minus_zero_and_bare_minus (rest : list ascii) :
  let s := bytes "i-0e" ++ rest in
  let s' := bytes "i-e" ++ rest in
  Decode (NewDecoder s) = Ret (VInteger 0) (mkDecoder s 4 (bool_decide (rest = [])))
  ∧ Decode (NewDecoder s') = Fail ErrNoBytesInInteger (mkDecoder s' 1 false).
Proof.
  intros s s'. split.
  - unfold Decode, fuelFor. rewrite nextObject_S. unfold nextObjectBody.
    set (d := NewDecoder s).
    change (Consumed d) with false. change (stream d !! pos d) with (Some "i"%char).
    cbn match. change (Ascii.eqb "i" "i") with true. cbn match.
    rewrite (nextInteger_digits d ["-"%char] ["0"%char] rest 0%Z eq_refl);
      [|by right|done|by repeat constructor|done|done].
    cbn [result_map finish]. f_equal.
    subst d s. unfold markConsumed, set_pos, NewDecoder.
    cbn [stream pos Consumed length app bytes list_ascii_of_string].
    destruct rest as [|c rest]; [done|]. cbn [length]. done.
  - subst s'. cbn [bytes list_ascii_of_string app]. by destruct rest.
Qed.

(** C4, as stated, fails: decoding ["i-0e"] does not fail, it returns the
    integer 0. *)
Lemma Decode_minus_zero_accepted :
  Decode (NewDecoder (bytes "i-0e")) = Ret (VInteger 0) (mkDecoder (bytes "i-0e") 4 true)
  ∧ ¬ ∃ e d, Decode (NewDecoder (bytes "i-0e")) = Fail e d.
Proof. split; [vm_compute; reflexivity|]. intros (e & d & H). vm_compute in H. discriminate. Qed.

Lemma nextInteger_leading_zero (d : Decoder) (sign ds rest : list ascii) :
  drop (pos d) (stream d) = "i"%char :: sign ++ "0"%char :: ds ++ "e"%char :: rest →
  sign = [] ∨ sign = ["-"%char] →
  ds ≠ [] → Forall (λ c, isDigit c = true) ds →
  nextInteger d = Fail ErrLeadingZeros (set_pos d (pos d + 1)).
Proof.
  intros Hdrop Hsign Hne Hall. unfold nextInteger.
  rewrite (drop_cons_lookup _ _ _ _ Hdrop).
  change (Ascii.eqb "i" "i") with true. cbn [negb].
  pose proof (drop_cons_drop _ _ _ _ Hdrop) as Hd1.
  cbn [stream pos set_pos].
  assert (Hall0 : Forall (λ c, isDigit c = true) ("0"%char :: ds)) by by constructor.
  assert (Hl : 0 < length ds) by (destruct ds; [done|simpl; lia]).
  assert (Hscan : ∀ idx, drop idx (stream d) = ("0"%char :: ds) ++ "e"%char :: rest →
    match scanInteger (drop idx (stream d)) idx with
    | ScanAt idx0 =>
        if idx =? idx0 then Fail ErrNoBytesInInteger (set_pos d (pos d + 1))
        else match stream d !! idx with
             | Some c1 =>
                 if Ascii.eqb c1 "0" && (1 <? idx0 - idx)
                 then Fail ErrLeadingZeros (set_pos d (pos d + 1))
                 else match slice (stream d) (pos d + 1) idx0 with
                      | Some s =>
                          match strconv.ParseInt (string_of_list_ascii s) 64 with
                          | inl res => Ret res (set_pos (set_pos d (pos d + 1)) (idx0 + 1))
                          | inr e => Fail (ErrParseInt e) (set_pos d (pos d + 1))
                          end
                      | None => Panic
                      end
             | None => Panic
             end
    | ScanFail e => Fail e (set_pos d (pos d + 1))
    | ScanPanic => @Panic Z
    end = Fail ErrLeadingZeros (set_pos d (pos d + 1))).
  { intros idx Hdi. rewrite Hdi, scanInteger_digits by done. cbn [length].
    destruct (Nat.eqb_spec idx (idx + S (length ds))); [lia|].
    cbn [app] in Hdi. rewrite (drop_cons_lookup _ _ _ _ Hdi).
    change (Ascii.eqb "0" "0") with true.
    replace (idx + S (length ds) - idx) with (S (length ds)) by lia.
    destruct (Nat.ltb_spec 1 (S (length ds))); [done|lia]. }
  destruct Hsign as [->| ->]; cbn [app] in Hd1.
  - rewrite (drop_cons_lookup _ _ _ _ Hd1). change (Ascii.eqb "0" "-") with false.
    by apply Hscan.
  - rewrite (drop_cons_lookup _ _ _ _ Hd1). change (Ascii.eqb "-" "-") with true.
    cbn match. apply Hscan. by apply (drop_cons_drop _ _ _ _ Hd1).
Qed.

(** C5: an integer whose digit run starts with ['0'] and has more digits is
    rejected, with or without a sign; ["i0e"] decodes to 0. *)
Theorem Decode_leading_zero (sign ds rest : list ascii) :
  sign = [] ∨ sign = ["-"%char] →
  ds ≠ [] →
  Forall (λ c, isDigit c = true) ds →
  let s := "i"%char :: sign ++ "0"%char :: ds ++ "e"%char :: rest in
  let s0 := "i"%char :: "0"%char :: "e"%char :: rest in
  Decode (NewDecoder s) = Fail ErrLeadingZeros (mkDecoder s 1 false)
  ∧ Decode (NewDecoder s0) = Ret (VInteger 0) (mkDecoder s0 3 (bool_decide (rest = []))).
Proof.
  intros Hsign Hne Hall s s0. split.
  - unfold Decode, fuelFor. rewrite nextObject_S. unfold nextObjectBody.
    set (d := NewDecoder s).
    change (Consumed d) with false. change (stream d !! pos d) with (Some "i"%char).
    cbn match. change (Ascii.eqb "i" "i") with true. cbn match.
    rewrite (nextInteger_leading_zero d sign ds rest eq_refl Hsign Hne Hall).
    cbn [result_map finish]. f_equal. apply markConsumed_lt.
    subst d s. cbn [NewDecoder stream pos set_pos length]. rewrite length_app.
    cbn [length]. lia.
  - unfold Decode, fuelFor. rewrite nextObject_S. unfold nextObjectBody.
    set (d := NewDecoder s0).
    change (Consumed d) with false. change (stream d !! pos d) with (Some "i"%char).
    cbn match. change (Ascii.eqb "i" "i") with true. cbn match.
    rewrite (nextInteger_digits d [] ["0"%char] rest 0%Z eq_refl);
      [|by left|done|by repeat constructor|done|done].
    cbn [result_map finish]. f_equal.
    subst d s0. unfold markConsumed, set_pos, NewDecoder.
    cbn [stream pos Consumed length app].
    destruct rest as [|c rest]; [done|]. cbn [length]. done.
Qed.

Lemma Decode_leading_zero_witness :
  Decode (NewDecoder (bytes "i012e")) = Fail ErrLeadingZeros (mkDecoder (bytes "i012e") 1 false)
  ∧ Decode (NewDecoder (bytes "i00e")) = Fail ErrLeadingZeros (mkDecoder (bytes "i00e") 1 false)
  ∧ Decode (NewDecoder (bytes "i0e")) = Ret (VInteger 0) (mkDecoder (bytes "i0e") 3 true).
Proof.
  split; [|split].
  - apply (Decode_leading_zero [] (bytes "12") []); [by left|done|by repeat constructor].
  - apply (Decode_leading_zero [] (bytes "0") []); [by left|done|by repeat constructor].
  - apply (Decode_leading_zero [] (bytes "12") []); [by left|done|by repeat constructor].
Defined.

(** ** Numbers that do not fit *)

(** The loop of [ParseUint] stops with the range error at the digit that
    takes the value to [2^64] or more, whatever follows it. *)
Lemma parseUintLoop_overflow (ds rest : list ascii) (n : N) :
  Forall (λ c, isDigit c = true) ds →
  (n < 2 ^ 64)%N → (2 ^ 64 ≤ foldl readDigit n ds)%N →
  strconv.parseUintLoop (2 ^ 64 - 1) (ds ++ rest) n = inr strconv.ErrRange.
Proof.
  intros Hall. revert n. induction Hall as [|c ds Hc Hall IH]; intros n Hn Hge.
  - cbn [foldl] in Hge. lia.
  - cbn [app strconv.parseUintLoop foldl] in *. rewrite Hc.
    apply isDigit_spec in Hc.
    change (strconv.maxUint64 / 10 + 1)%N with 1844674407370955162%N.
    change (2 ^ 64)%N with 18446744073709551616%N in *.
    destruct (N.leb_spec 1844674407370955162 n); [done|].
    fold (digitVal c). assert (Hd : (digitVal c ≤ 9)%N) by (unfold digitVal; lia).
    destruct (N.lt_ge_cases (n * 10 + digitVal c) 18446744073709551616) as [Hlt|Hov].
    + rewrite N.mod_small by lia.
      destruct (N.ltb_spec (n * 10 + digitVal c) (n * 10)); [lia|].
      destruct (N.ltb_spec (18446744073709551616 - 1) (n * 10 + digitVal c)); [lia|].
      cbn [orb]. apply IH; [done|]. exact Hge.
    + assert (Hm : ((n * 10 + digitVal c) mod 18446744073709551616
                    = n * 10 + digitVal c - 18446744073709551616)%N).
      { symmetry. apply (N.mod_unique _ _ 1); lia. }
      rewrite Hm.
      destruct (N.ltb_spec (n * 10 + digitVal c - 18446744073709551616) (n * 10)); [done|lia].
Qed.

(** The value that a sign and a digit run denote. *)
Lemma ParseInt_range (neg : bool) (ds : list ascii) :
  ds ≠ [] → Forall (λ c, isDigit c = true) ds →
  (if neg then 2 ^ 63 < digitsVal ds else 2 ^ 63 ≤ digitsVal ds)%N →
  strconv.ParseInt (string_of_list_ascii ((if neg then ["-"%char] else []) ++ ds)) 64
  = inr strconv.ErrRange.
Proof.
  intros Hne Hall Hv. unfold strconv.ParseInt.
  rewrite list_ascii_of_string_of_list_ascii.
  assert (Hu : strconv.ParseUint ds 64 = inr strconv.ErrRange
               ∨ strconv.ParseUint ds 64 = inl (digitsVal ds)).
  { destruct (N.lt_ge_cases (digitsVal ds) (2 ^ 64)) as [Hlt|Hge].
    - right. by apply ParseUint_digits.
    - left. unfold strconv.ParseUint. destruct ds as [|c ds']; [done|].
      pose proof (parseUintLoop_overflow (c :: ds') [] 0 Hall eq_refl Hge) as Ho.
      by rewrite app_nil_r in Ho. }
  destruct neg; cbn [app].
  - change (Ascii.eqb "-" "-") with true. change (Ascii.eqb "-" "+") with false.
    cbn [orb]. destruct Hu as [-> | ->]; [done|].
    cbn [negb andb]. change (2 ^ (64 - 1))%N with (2 ^ 63)%N.
    destruct (N.ltb_spec (2 ^ 63) (digitsVal ds)); [done|lia].
  - destruct ds as [|c ds'] eqn:Hds; [done|].
    assert (Hc : isDigit c = true) by by inversion Hall.
    destruct (isDigit_not_special c Hc) as (_ & _ & Hm & Hp & _).
    rewrite Hm, Hp. cbn [orb]. rewrite <- Hds in *.
    destruct Hu as [-> | ->]; [done|].
    cbn [negb andb]. change (2 ^ (64 - 1))%N with (2 ^ 63)%N.
    destruct (N.leb_spec (2 ^ 63) (digitsVal ds)); [done|lia].
Qed.

(** ** Lengths that [strconv.Atoi] refuses *)

Lemma scanLength_colon (pre suf : list ascii) (idx : nat) :
  ":"%char ∉ pre →
  scanLength (pre ++ ":"%char :: suf) idx = ScanAt (idx + length pre).
Proof.
  revert idx. induction pre as [|c pre IH]; intros idx Hnc.
  - cbn. f_equal. lia.
  - apply not_elem_of_cons in Hnc as [Hc Hnc]. cbn [app scanLength length].
    destruct (Ascii.eqb_spec c ":") as [->|_]; [done|].
    rewrite IH by done. destruct (pre ++ _) eqn:Heq.
    + by destruct pre.
    + f_equal. lia.
Qed.

Lemma Decode_on_digit (s : list ascii) (c : ascii) (r : list ascii) :
  s = c :: r → isDigit c = true →
  Decode (NewDecoder s) = finish (result_map VString (nextString (NewDecoder s))).
Proof.
  intros -> Hc. unfold Decode, fuelFor. rewrite nextObject_S. unfold nextObjectBody.
  cbn [NewDecoder Consumed stream pos lookup list_lookup].
  destruct (isDigit_not_special c Hc) as (_ & _ & _ & _ & -> & -> & ->).
  by rewrite Hc.
Qed.

(** [nextString] when [strconv.Atoi] refuses the bytes in front of the
    colon. *)
Lemma nextString_bad_length (d : Decoder) (c : ascii) (pre suf : list ascii)
    (e : strconv.NumError) :
  drop (pos d) (stream d) = (c :: pre) ++ ":"%char :: suf →
  isDigit c = true → ":"%char ∉ pre →
  strconv.Atoi (string_of_list_ascii (c :: pre)) = inr e →
  nextString d = Fail (ErrStringLength e) d.
Proof.
  intros Hdrop Hc Hnc He. unfold nextString.
  rewrite (drop_cons_lookup _ _ c (pre ++ ":"%char :: suf)) by done.
  rewrite notDigit_isDigit, Hc. cbn [negb]. rewrite Hdrop.
  rewrite scanLength_colon.
  - assert (Hp : pos d ≤ length (stream d)).
    { apply (f_equal length) in Hdrop. rewrite length_drop in Hdrop. cbn in Hdrop. lia. }
    rewrite (slice_drop _ _ _ _ Hdrop Hp). by rewrite He.
  - apply not_elem_of_cons. split; [|done]. intros <-.
    by destruct (isDigit_not_special _ Hc) as (_ & ? & _).
Qed.

Lemma parseUintLoop_syntax (ds bad : list ascii) (x : ascii) (n : N) :
  Forall (λ c, isDigit c = true) ds →
  (foldl readDigit n ds < 2 ^ 64)%N →
  isDigit x = false →
  strconv.parseUintLoop (2 ^ 64 - 1) (ds ++ x :: bad) n = inr strconv.ErrSyntax.
Proof.
  intros Hall. revert n. induction Hall as [|c ds Hc Hall IH]; intros n Hlt Hx.
  - cbn [app strconv.parseUintLoop]. by rewrite Hx.
  - cbn [app strconv.parseUintLoop foldl] in *. rewrite Hc.
    pose proof (foldl_readDigit_ge ds (readDigit n c)) as Hge.
    assert (Hn1 : (readDigit n c < 2 ^ 64)%N) by lia.
    unfold readDigit in Hn1 at 1. fold (digitVal c).
    change (strconv.maxUint64 / 10 + 1)%N with 1844674407370955162%N.
    change (2 ^ 64)%N with 18446744073709551616%N in *.
    destruct (N.leb_spec 1844674407370955162 n); [lia|].
    rewrite N.mod_small by lia.
    destruct (N.ltb_spec (n * 10 + digitVal c) (n * 10)); [lia|].
    destruct (N.ltb_spec (18446744073709551616 - 1) (n * 10 + digitVal c)); [lia|].
    cbn [orb]. by apply IH.
Qed.

(** ** Strings *)

(** C6, as the code has it: for a declared length [n] that fits [int], when
    [n] is more than the [length data] bytes that follow the colon,
    decoding fails with the error of a length longer than the buffer and
    the cursor does not move, and when exactly [n] bytes follow, decoding
    returns exactly those bytes and consumes the buffer; a declared length
    of [2^63] or more fails with the range error of [strconv.Atoi], and the
    cursor does not move. The length is written in decimal. *)
Theorem Decode_string_length (n : nat) (data : list ascii) :
  length data ≤ n →
  let s := strconv.FormatInt (Z.of_nat n) ++ ":"%char :: data in
  Decode (NewDecoder s) =
    if (2 ^ 63 <=? Z.of_nat n)%Z
    then Fail (ErrStringLength strconv.ErrRange) (NewDecoder s)
    else if decide (n = length data)
    then Ret (VString (string_of_list_ascii data)) (mkDecoder s (length s) true)
    else Fail ErrLengthTooLong (NewDecoder s).
Proof.
  intros Hle s. destruct (Z.leb_spec (2 ^ 63) (Z.of_nat n)) as [Hbig|Hn].
  - subst s. unfold strconv.FormatInt.
    destruct (Z.ltb_spec (Z.of_nat n) 0) as [|_]; [lia|].
    destruct (FormatUint_spec (Z.to_N (Z.of_nat n))) as (ds & -> & Hne & Hall & Hval & _).
    destruct ds as [|c ds'] eqn:Hds; [done|].
    assert (Hc : isDigit c = true) by by inversion Hall.
    rewrite (Decode_on_digit _ c (ds' ++ ":"%char :: data)) by done.
    rewrite (nextString_bad_length _ c ds' data strconv.ErrRange).
    + done.
    + done.
    + done.
    + intros Hin. apply Forall_cons in Hall as [_ Hall].
      rewrite Forall_forall in Hall. apply Hall in Hin.
      by destruct (isDigit_not_special _ Hin) as (_ & ? & _).
    + unfold strconv.Atoi. apply (ParseInt_range false (c :: ds')); [done|done|].
      rewrite Hval. change (2 ^ 63)%N with (Z.to_N (2 ^ 63)). lia.
  - destruct (FormatInt_nat_spec n Hn) as (ds & Heq & Hne & Hall & Hatoi).
    subst s. rewrite Heq. clear Heq.
    unfold Decode, fuelFor. rewrite nextObject_S. unfold nextObjectBody.
    cbn [NewDecoder Consumed stream pos].
    destruct ds as [|c ds'] eqn:Hds; [done|].
    assert (Hc : isDigit c = true) by by inversion Hall.
    cbn [app lookup list_lookup].
    destruct (isDigit_not_special c Hc) as (_ & _ & _ & _ & -> & -> & ->). rewrite Hc.
    rewrite <- Hds in *.
    change (c :: ds' ++ ":"%char :: data) with ((c :: ds') ++ ":"%char :: data).
    rewrite <- Hds.
    rewrite (nextString_digits _ ds data n); [|done|done|done|done].
    cbn [stream pos].
    destruct (decide (n = length data)) as [->|Hneq].
    + rewrite decide_True by lia. rewrite firstn_all. cbn [result_map finish]. f_equal.
      unfold markConsumed, set_pos, set_Consumed, NewDecoder. cbn [stream pos Consumed].
      rewrite length_app. cbn [length].
      destruct (Nat.leb_spec (length ds + S (length data)) (0 + length ds + 1 + length data));
        [|lia].
      f_equal. lia.
    + rewrite decide_False by lia. cbn [result_map finish]. f_equal.
      apply markConsumed_lt. unfold NewDecoder. cbn [stream pos]. rewrite length_app.
      cbn [length]. lia.
Qed.

Lemma Decode_string_length_witness :
  Decode (NewDecoder (bytes "6:world")) = Fail ErrLengthTooLong (NewDecoder (bytes "6:world"))
  ∧ Decode (NewDecoder (bytes "5:hello"))
    = Ret (VString "hello") (mkDecoder (bytes "5:hello") 7 true).
Proof.
  split.
  - apply (Decode_string_length 6 (bytes "world")). simpl. lia.
  - apply (Decode_string_length 5 (bytes "hello")). simpl. lia.
Defined.

(** C6, as stated, fails: the declared length [2^63] is more than the three
    bytes that follow the colon, and decoding fails with the range error
    of the length, not with the error of a length longer than the
    buffer. *)
Lemma declared_length_beyond_int :
  let s := bytes "9223372036854775808:abc" in
  (Z.of_nat (length (bytes "abc")) < 9223372036854775808)%Z
  ∧ Decode (NewDecoder s) = Fail (ErrStringLength strconv.ErrRange) (NewDecoder s)
  ∧ Decode (NewDecoder s) ≠ Fail ErrLengthTooLong (NewDecoder s).
Proof.
  intros s. split; [done|]. split; [vm_compute; reflexivity|].
  intros H. vm_compute in H. discriminate H.
Qed.

(** ** Lists without their closing ['e'] *)

(** X24: a list opened with ['l'] in which the buffer ends after one or more
    values, each written in full, fails with [ErrorNoTerminator]. *)
Lemma Decode_list_unterminated (v : Value) (vs : list Value) :
  forallb representable (v :: vs) = true →
  let s := "l"%char :: concat (Legacy.encodeObject <$> (v :: vs)) in
  Decode (NewDecoder s) = Fail ErrorNoTerminator (mkDecoder s (length s) true).
Proof.
  intros Hall s. apply forallb_Forall in Hall.
  assert (Hall' : Forall (readsBack Legacy.encodeObject) (v :: vs)).
  { eapply Forall_impl; [exact Hall|]. apply readsBack_Legacy. }
  destruct (nextObject_list_open Legacy.encodeObject v vs (NewDecoder s) Hall' eq_refl eq_refl)
    as [fuel Hf].
  by apply (Decode_nextObject fuel).
Qed.

Lemma Decode_list_unterminated_witness :
  let s := bytes "li15155e4:spam" in
  Decode (NewDecoder s) = Fail ErrorNoTerminator (mkDecoder s 14 true).
Proof.
  intros s. apply (Decode_list_unterminated (VInteger 15155) [VString "spam"]).
  vm_compute. reflexivity.
Defined.

(** C7 fails on a list with no element: on the buffer ["l"] the decoder
    reads [stream[1]], which is out of range, and panics instead of
    returning [ErrorNoTerminator]. With one element, as in ["li15155e"],
    it does return [ErrorNoTerminator] ([Decode_list_unterminated] has it
    for any number of elements but zero). *)
Theorem Decode_unterminated_empty_list_panics :
  Decode (NewDecoder (bytes "l")) = Panic
  ∧ Decode (NewDecoder (bytes "li15155e"))
    = Fail ErrorNoTerminator (mkDecoder (bytes "li15155e") 8 true).
Proof. split; vm_compute; reflexivity. Qed.

(** ** The exhausted stream *)

(** C8: after a successful [Decode] that leaves the cursor at the end of the
    buffer, [Consumed] is true, and a further [Decode] returns
    [ErrorConsumed] and leaves the decoder as it is, so that every later
    call does the same. *)
Theorem Decode_consumed (d d' : Decoder) (v : Value) :
  Decode d = Ret v d' →
  length (stream d') ≤ pos d' →
  Consumed d' = true ∧ Decode d' = Fail ErrorConsumed d'.
Proof.
  intros Hdec Hend.
  assert (Hcons : Consumed d' = true).
  { unfold Decode, fuelFor in Hdec. rewrite nextObject_S in Hdec.
    unfold nextObjectBody in Hdec.
    destruct (Consumed d); [done|]. destruct (stream d !! pos d) as [c|]; [|done].
    match type of Hdec with finish ?r = _ => destruct r as [a d0|e d0| |] end; try done.
    cbn [finish] in Hdec. injection Hdec as _ <-.
    unfold markConsumed in *.
    destruct (Nat.leb_spec (length (stream d0)) (pos d0)); [done|].
    cbn in Hend. lia. }
  split; [done|].
  unfold Decode, fuelFor. rewrite nextObject_S. unfold nextObjectBody. by rewrite Hcons.
Qed.

Lemma Decode_consumed_witness :
  let d' := mkDecoder (bytes "i23e") 4 true in
  Consumed d' = true ∧ Decode d' = Fail ErrorConsumed d'.
Proof.
  intros d'.
  apply (Decode_consumed (NewDecoder (bytes "i23e")) d' (VInteger 23)).
  - vm_compute. reflexivity.
  - vm_compute. lia.
Defined.

(** ** Dictionaries with a repeated key *)

(** C9: a dictionary stream in which the key [k] occurs twice (and, after
    its second entry, not again) is decoded without error, and the
    dictionary returned binds [k] to the value of the later entry. The
    stream is ['d'], the entries and ['e']; each entry is its key written
    as a string and its value written in full. *)
Theorem Decode_duplicate_key (l1 l2 l3 : list (string * Value)) (k : string)
    (v1 v2 : Value) (rest : list ascii) :
  let es := l1 ++ (k, v1) :: l2 ++ (k, v2) :: l3 in
  let s := "d"%char
             :: concat (wireEntry Legacy.encodeString Legacy.encodeObject <$> es)
             ++ "e"%char :: rest in
  forallb goEntry es = true →
  k ∉ l3.*1 →
  Decode (NewDecoder s)
  = Ret (VDict (insertAll es))
        (mkDecoder s (length s - length rest) (bool_decide (rest = [])))
  ∧ insertAll es !! k = Some v2.
Proof.
  intros es s Hall Hk. split.
  - apply forallb_Forall in Hall.
    assert (Hall' : Forall (λ kv, readsKey Legacy.encodeString kv.1
                                  ∧ readsBack Legacy.encodeObject kv.2) es).
    { eapply Forall_impl; [exact Hall|]. intros kv [Hgk Hrv]%andb_true_iff.
      split; [by apply readsKey_Legacy|by apply readsBack_Legacy]. }
    destruct (nextObject_dict_wire Legacy.encodeObject Legacy.encodeString es
                (NewDecoder s) rest Hall' eq_refl eq_refl) as [fuel Hf].
    apply (Decode_nextObject fuel); [|done]. rewrite Hf. f_equal.
    unfold markConsumed, set_pos, set_Consumed, NewDecoder. cbn [stream pos Consumed].
    subst s. cbn [length]. rewrite !length_app. cbn [length].
    set (n := length (concat (wireEntry Legacy.encodeString Legacy.encodeObject <$> es))).
    destruct rest as [|c rest]; cbn [length].
    + rewrite bool_decide_eq_true_2 by done.
      destruct (Nat.leb_spec (S (n + 1)) (0 + (n + 2))); [|lia]. f_equal. lia.
    + rewrite bool_decide_eq_false_2 by done.
      destruct (Nat.leb_spec (S (n + S (S (length rest)))) (0 + (n + 2))); [lia|].
      f_equal. lia.
  - subst es.
    replace (l1 ++ (k, v1) :: l2 ++ (k, v2) :: l3)
      with ((l1 ++ (k, v1) :: l2) ++ (k, v2) :: l3) by (by rewrite <- app_assoc).
    by apply insertAll_last.
Qed.

Lemma Decode_duplicate_key_witness :
  let s := bytes "d1:ai1e1:bi5e1:ai2ee" in
  Decode (NewDecoder s)
  = Ret (VDict (insertAll [("a"%string, VInteger 1); ("b"%string, VInteger 5);
                           ("a"%string, VInteger 2)]))
        (mkDecoder s 20 true)
  ∧ insertAll [("a"%string, VInteger 1); ("b"%string, VInteger 5);
               ("a"%string, VInteger 2)] !! "a"%string = Some (VInteger 2).
Proof.
  intros s.
  apply (Decode_duplicate_key [] [("b"%string, VInteger 5)] [] "a" (VInteger 1) (VInteger 2) []).
  - vm_compute. reflexivity.
  - cbn. apply not_elem_of_nil.
Defined.

(** ** Reads outside the buffer *)

(** C10 fails: on the empty buffer [Decode] reads [stream[0]], and on the
    buffers ["l"], ["d"] and ["i"] it reads [stream[1]], each out of range;
    so it does on ["d1:a"], a key at the end of the buffer. Every one of
    these reads is a run-time panic, not a value or an error. *)
Theorem Decode_reads_out_of_range :
  Decode (NewDecoder []) = Panic
  ∧ Decode (NewDecoder (bytes "l")) = Panic
  ∧ Decode (NewDecoder (bytes "d")) = Panic
  ∧ Decode (NewDecoder (bytes "i")) = Panic
  ∧ Decode (NewDecoder (bytes "d1:a")) = Panic.
Proof. split_and!; vm_compute; reflexivity. Qed.

(** ** Older revisions *)

(** The older [nextInteger] rejects every ['0'] that starts the digits, the
    lone ["i0e"] included; like the newer one it accepts ["i-0e"]. *)
Lemma Legacy_nextInteger_zero :
  Legacy.nextInteger (NewDecoder (bytes "i0e"))
  = Fail ErrLeadingZeros (NewDecoder (bytes "i0e"))
  ∧ Legacy.nextInteger (NewDecoder (bytes "i012e"))
    = Fail ErrLeadingZeros (NewDecoder (bytes "i012e"))
  ∧ Legacy.nextInteger (NewDecoder (bytes "i-0e"))
    = Ret 0%Z (mkDecoder (bytes "i-0e") 4 false)
  ∧ Legacy.nextInteger (NewDecoder (bytes "i-e"))
    = Fail (ErrParseInt strconv.ErrSyntax) (NewDecoder (bytes "i-e")).
Proof. split_and!; vm_compute; reflexivity. Qed.

(** The older encoder writes empty values in full. *)
Lemma Legacy_Encode_empty :
  Legacy.Encode (VString EmptyString) = bytes "0:"
  ∧ Legacy.Encode (VList []) = bytes "le"
  ∧ Legacy.Encode (VDict ∅) = bytes "de".
Proof. split_and!; vm_compute; reflexivity. Qed.

(** The older encoder writes the entries of a dictionary in the order of
    iteration, so that its output depends on that order. *)
Lemma Legacy_encodeDictOf_order :
  Legacy.encodeDictOf [("cow"%string, bytes "3:moo"); ("spam"%string, bytes "4:eggs")]
  = bytes "d3:cow3:moo4:spam4:eggse"
  ∧ Legacy.encodeDictOf [("spam"%string, bytes "4:eggs"); ("cow"%string, bytes "3:moo")]
    = bytes "d4:spam4:eggs3:cow3:mooe".
Proof. split; vm_compute; reflexivity. Qed.

(** * Further properties of the code *)

(** ** [DecodeAll] and the [Consumed] flag *)

Lemma nextInteger_flagKept (d : Decoder) : flagKept d (nextInteger d).
Proof. unfold nextInteger. repeat case_match; done. Qed.

Lemma nextString_flagKept (d : Decoder) : flagKept d (nextString d).
Proof. unfold nextString. repeat case_match; done. Qed.

Lemma flagExact_finish {A B : Type} (f : A → B) (d : Decoder) (r : result A) :
  Consumed d = false → flagKept d r → advances d r →
  flagExact d (finish (result_map f r)).
Proof.
  intros Hc Hk Ha. destruct r as [a d'|e d'| |]; cbn; try done.
  cbn in Hk, Ha. split; [done|]. unfold markConsumed.
  destruct (Nat.leb_spec (length (stream d')) (pos d')) as [Hle|Hgt]; cbn.
  - symmetry. by apply Nat.leb_le.
  - rewrite Hk, Hc. symmetry. apply Nat.leb_gt. done.
Qed.

Section flag.
Context (nl : Decoder → result (list Value)).
Context (nd : Decoder → result (gmap string Value)).
Context (no : Decoder → result Value).
Context (ll : list Value → Decoder → result (list Value)).
Context (dl : gmap string Value → Decoder → result (gmap string Value)).
Hypothesis Hnl : ∀ d, flagKept d (nl d).
Hypothesis Hnd : ∀ d, flagKept d (nd d).
Hypothesis Hnla : ∀ d, advances d (nl d).
Hypothesis Hnda : ∀ d, advances d (nd d).
Hypothesis Hno : ∀ d, flagExact d (no d).
Hypothesis Hnoa : ∀ d, advances d (no d).
Hypothesis Hll : ∀ res d, flagKept d (ll res d).
Hypothesis Hdl : ∀ res d, flagKept d (dl res d).

Lemma nextObjectBody_flagExact (d : Decoder) : flagExact d (nextObjectBody nl nd d).
Proof.
  unfold nextObjectBody. destruct (Consumed d) eqn:Hc; [done|].
  destruct (stream d !! pos d) as [c|]; [|done].
  repeat case_match.
  - apply flagExact_finish; [done|apply nextInteger_flagKept|apply nextInteger_advances].
  - by apply flagExact_finish.
  - by apply flagExact_finish.
  - apply flagExact_finish; [done|apply nextString_flagKept|apply nextString_advances].
  - done.
Qed.

Lemma nextListBody_flagKept (d : Decoder) : flagKept d (nextListBody ll d).
Proof.
  unfold nextListBody. repeat (case_match; try done).
  pose proof (Hll [] (set_pos d (pos d + 1))) as Hk. by destruct (ll _ _).
Qed.

Lemma nextDictBody_flagKept (d : Decoder) : flagKept d (nextDictBody dl d).
Proof.
  unfold nextDictBody. repeat (case_match; try done).
  pose proof (Hdl ∅ (set_pos d (pos d + 1))) as Hk. by destruct (dl _ _).
Qed.

Lemma listLoopBody_flagKept (res : list Value) (d : Decoder) :
  flagKept d (listLoopBody no ll res d).
Proof.
  unfold listLoopBody. pose proof (Hno d) as He.
  destruct (no d) as [obj d1|e d1| |]; try done. destruct He as [Hc He].
  destruct (length (stream d1) <=? pos d1) eqn:Hlen; [done|].
  destruct (stream d1 !! pos d1) as [c|]; [|done].
  destruct (Ascii.eqb c "e").
  - cbn. congruence.
  - pose proof (Hll (res ++ [obj]) d1) as Hk. destruct (ll _ d1); try done.
    cbn in *. congruence.
Qed.

Lemma dictLoopBody_flagKept (res : gmap string Value) (d : Decoder) :
  flagKept d (dictLoopBody no dl res d).
Proof.
  unfold dictLoopBody. pose proof (nextString_flagKept d) as Hs.
  destruct (nextString d) as [key d0|e d0| |]; try done. cbn in Hs.
  pose proof (Hno d0) as He.
  destruct (no d0) as [obj d1|e d1| |]; try done. destruct He as [Hc He].
  destruct (length (stream d1) <=? pos d1) eqn:Hlen; [done|].
  destruct (stream d1 !! pos d1) as [c|]; [|done].
  destruct (Ascii.eqb c "e").
  - cbn. congruence.
  - pose proof (Hdl (<[key:=obj]> res) d1) as Hk. destruct (dl _ d1); try done.
    cbn in *. congruence.
Qed.
End flag.

Lemma fuel_flag (fuel : nat) :
  (∀ d, flagExact d (nextObject fuel d))
  ∧ (∀ res d, flagKept d (listLoop fuel res d))
  ∧ (∀ res d, flagKept d (dictLoop fuel res d)).
Proof.
  induction fuel as [|fuel (IHo & IHl & IHd)]; [done|].
  pose proof (fuel_advances fuel) as (Hao & Hal & Had).
  split_and!; intros.
  - rewrite nextObject_S. apply nextObjectBody_flagExact; intros.
    + by apply nextListBody_flagKept.
    + by apply nextDictBody_flagKept.
    + by apply nextListBody_advances.
    + by apply nextDictBody_advances.
  - rewrite listLoop_S. by apply listLoopBody_flagKept.
  - rewrite dictLoop_S. by apply dictLoopBody_flagKept.
Qed.

Lemma Decode_nextObject_fuelFor (d : Decoder) : nextObject (fuelFor d) d = Decode d.
Proof. done. Qed.

Lemma DecodeAllLoop_S (fuel : nat) (res : list Value) (err : option error) (d : Decoder) :
  DecodeAllLoop (S fuel) res err d
  = if negb (Consumed d) then
      match Decode d with
      | Ret obj d => DecodeAllLoop fuel (res ++ [obj]) None d
      | Fail e d => Fail e d
      | Panic => Panic
      | OutOfFuel => OutOfFuel
      end
    else match err with Some e => Fail e d | None => Ret res d end.
Proof. done. Qed.

Lemma DecodeAllLoop_mono (fuel fuel' : nat) (res : list Value) (err : option error)
    (d : Decoder) :
  fuel ≤ fuel' → resLe (DecodeAllLoop fuel res err d) (DecodeAllLoop fuel' res err d).
Proof.
  revert fuel' res err d. induction fuel as [|fuel IH]; intros fuel' res err d Hle.
  { by left. }
  destruct fuel' as [|fuel']; [lia|]. rewrite !DecodeAllLoop_S.
  destruct (negb (Consumed d)); [|apply resLe_refl].
  destruct (Decode d); try apply resLe_refl. apply IH. lia.
Qed.

Lemma DecodeAllLoop_fuel (fuel : nat) (res : list Value) (err : option error) (d : Decoder) :
  length (stream d) - pos d < fuel → DecodeAllLoop fuel res err d ≠ OutOfFuel.
Proof.
  revert res err d. induction fuel as [|fuel IH]; intros res err d Hf; [lia|].
  rewrite DecodeAllLoop_S. destruct (negb (Consumed d)); [|by destruct err].
  pose proof (Decode_fuel d) as Hd. pose proof (nextObject_advances (fuelFor d) d) as Ha.
  rewrite Decode_nextObject_fuelFor in Ha.
  destruct (Decode d) as [obj d1|e d1| |]; try done.
  destruct Ha as [Hs Hp]. apply IH. rewrite Hs. lia.
Qed.

(** [DecodeAll] is total in the model. *)
Lemma DecodeAll_fuel (d : Decoder) : DecodeAll d ≠ OutOfFuel.
Proof. apply DecodeAllLoop_fuel. lia. Qed.

Lemma DecodeAll_loop (fuel : nat) (d : Decoder) (r : result (list Value)) :
  DecodeAllLoop fuel [] (Some ErrorConsumed) d = r → r ≠ OutOfFuel → DecodeAll d = r.
Proof.
  intros Hr Hne. unfold DecodeAll.
  destruct (Nat.le_ge_cases fuel (S (length (stream d)))) as [Hle|Hge].
  - destruct (DecodeAllLoop_mono _ _ [] (Some ErrorConsumed) d Hle) as [H|H]; congruence.
  - pose proof (DecodeAll_fuel d) as Hd. unfold DecodeAll in Hd.
    destruct (DecodeAllLoop_mono _ _ [] (Some ErrorConsumed) d Hge) as [H|H]; congruence.
Qed.

Lemma DecodeAllLoop_cons (fuel : nat) (v : Value) (res : list Value) (err : option error)
    (d : Decoder) :
  DecodeAllLoop fuel (v :: res) err d
  = match err with
    | None => result_map (cons v) (DecodeAllLoop fuel res err d)
    | Some _ =>
        if Consumed d then DecodeAllLoop fuel res err d
        else result_map (cons v) (DecodeAllLoop fuel res err d)
    end.
Proof.
  revert res err d. induction fuel as [|fuel IH]; intros res err d.
  { by destruct err, (Consumed d). }
  rewrite !DecodeAllLoop_S. destruct (Consumed d) eqn:Hc; cbn [negb].
  - by destruct err.
  - assert (H : match Decode d with
                | Ret obj d0 => DecodeAllLoop fuel ((v :: res) ++ [obj]) None d0
                | Fail e d0 => Fail e d0
                | Panic => Panic
                | OutOfFuel => OutOfFuel
                end
                = result_map (cons v)
                    match Decode d with
                    | Ret obj d0 => DecodeAllLoop fuel (res ++ [obj]) None d0
                    | Fail e d0 => Fail e d0
                    | Panic => Panic
                    | OutOfFuel => OutOfFuel
                    end).
    { destruct (Decode d); try done. cbn [app]. by rewrite IH. }
    by destruct err.
Qed.

Lemma DecodeAllLoop_Ret (fuel : nat) (res vs : list Value) (err : option error)
    (d d' : Decoder) :
  DecodeAllLoop fuel res err d = Ret vs d' →
  Consumed d' = true ∧ stream d' = stream d
  ∧ length res ≤ length vs ∧ (err = None ∨ length res < length vs).
Proof.
  revert res err d. induction fuel as [|fuel IH]; intros res err d; [done|].
  rewrite DecodeAllLoop_S. destruct (Consumed d) eqn:Hc; cbn [negb].
  - destruct err; [done|]. intros [= <- <-]. split_and!; auto.
  - pose proof (nextObject_advances (fuelFor d) d) as Ha.
    rewrite Decode_nextObject_fuelFor in Ha.
    destruct (Decode d) as [obj d1|e d1| |]; try done.
    intros (Hc' & Hs & Hl & _)%IH. rewrite length_app in Hl. cbn in Hl.
    destruct Ha as [Hs1 _]. split_and!; [done|congruence|lia|right; lia].
Qed.

(** X1: a successful [Decode] leaves the stream as it is and moves the
    cursor forward, by at least one byte and not past the end. *)
Theorem Decode_cursor (d d' : Decoder) (v : Value) :
  Decode d = Ret v d' →
  stream d' = stream d ∧ pos d < pos d' ≤ length (stream d).
Proof.
  intros Hd. pose proof (nextObject_advances (fuelFor d) d) as Ha.
  rewrite Decode_nextObject_fuelFor, Hd in Ha. exact Ha.
Qed.

Lemma Decode_cursor_witness :
  let d := NewDecoder (bytes "i23e4:test") in
  let d' := mkDecoder (bytes "i23e4:test") 4 false in
  stream d' = stream d ∧ pos d < pos d' ≤ length (stream d).
Proof.
  intros d d'. apply (Decode_cursor d d' (VInteger 23)). vm_compute. reflexivity.
Defined.

(** X2: [Decode] succeeds only on a decoder that is not consumed, and after
    it [Consumed] is true exactly when the cursor is at the end of the
    buffer. *)
Theorem Decode_flag (d d' : Decoder) (v : Value) :
  Decode d = Ret v d' →
  Consumed d = false ∧ (Consumed d' = true ↔ pos d' = length (stream d')).
Proof.
  intros Hd. destruct (fuel_flag (fuelFor d)) as (Hf & _). specialize (Hf d).
  pose proof (nextObject_advances (fuelFor d) d) as Ha.
  rewrite Decode_nextObject_fuelFor, Hd in Hf, Ha. destruct Hf as [Hc Hf].
  destruct Ha as [Hs Hp]. split; [done|]. rewrite Hf, Nat.leb_le, Hs. lia.
Qed.

Lemma Decode_flag_witness :
  let d := NewDecoder (bytes "i23e4:test") in
  let d' := mkDecoder (bytes "i23e4:test") 4 false in
  Consumed d = false ∧ (Consumed d' = true ↔ pos d' = length (stream d')).
Proof.
  intros d d'. apply (Decode_flag d d' (VInteger 23)). vm_compute. reflexivity.
Defined.

(** What a successful [Decode] does to the decoder. *)
Lemma Decode_Ret (d d' : Decoder) (v : Value) :
  Decode d = Ret v d' →
  Consumed d = false ∧ Consumed d' = (length (stream d') <=? pos d')
  ∧ stream d' = stream d ∧ pos d < pos d' ≤ length (stream d).
Proof.
  intros Hd. destruct (fuel_flag (fuelFor d)) as (Hf & _). specialize (Hf d).
  pose proof (nextObject_advances (fuelFor d) d) as Ha.
  rewrite Decode_nextObject_fuelFor, Hd in Hf, Ha. destruct Hf as [Hc Hf].
  destruct Ha as [Hs Hp]. done.
Qed.

(** X3: [DecodeAll] returns what successive calls of [Decode] return: if
    [Decode] reads [v], [DecodeAll] returns [v] alone when that call has
    consumed the buffer, and [v] in front of what [DecodeAll] does on the
    rest otherwise (an error or a panic on the rest is that of the whole). *)
Theorem DecodeAll_Decode (d d1 : Decoder) (v : Value) :
  Decode d = Ret v d1 →
  DecodeAll d = if Consumed d1 then Ret [v] d1 else result_map (cons v) (DecodeAll d1).
Proof.
  intros Hd. destruct (Decode_Ret d d1 v Hd) as (Hc & _ & Hs & Hp).
  unfold DecodeAll at 1. rewrite DecodeAllLoop_S, Hc, Hd. cbn [negb app].
  destruct (length (stream d)) as [|n] eqn:Hlen; [lia|].
  destruct (Consumed d1) eqn:Hc1.
  - rewrite DecodeAllLoop_S, Hc1. done.
  - rewrite (DecodeAllLoop_cons (S n) v [] None d1). f_equal.
    assert (Hne : DecodeAllLoop (S n) [] None d1 ≠ OutOfFuel).
    { apply DecodeAllLoop_fuel. rewrite Hs, Hlen. lia. }
    symmetry. apply (DecodeAll_loop (S n)); [|done].
    rewrite !DecodeAllLoop_S, Hc1. done.
Qed.

Lemma DecodeAll_Decode_witness :
  let d := NewDecoder (bytes "i23e4:test") in
  let d1 := mkDecoder (bytes "i23e4:test") 4 false in
  DecodeAll d = result_map (cons (VInteger 23)) (DecodeAll d1)
  ∧ DecodeAll d = Ret [VInteger 23; VString "test"] (mkDecoder (bytes "i23e4:test") 10 true).
Proof.
  intros d d1. split; [|vm_compute; reflexivity].
  apply (DecodeAll_Decode d d1 (VInteger 23)). vm_compute. reflexivity.
Defined.

(** X4: when [DecodeAll] succeeds it has read at least one object and left
    the decoder consumed, so that a second [DecodeAll] returns
    [ErrorConsumed]. *)
Theorem DecodeAll_twice (d d' : Decoder) (vs : list Value) :
  DecodeAll d = Ret vs d' →
  vs ≠ [] ∧ Consumed d' = true ∧ DecodeAll d' = Fail ErrorConsumed d'.
Proof.
  intros Hd. unfold DecodeAll in Hd.
  apply DecodeAllLoop_Ret in Hd as (Hc & Hs & _ & Hl).
  split_and!; [|done|].
  - destruct Hl as [Hl|Hl]; [done|]. destruct vs; [cbn in Hl; lia|done].
  - unfold DecodeAll. by rewrite DecodeAllLoop_S, Hc.
Qed.

Lemma DecodeAll_twice_witness :
  let d' := mkDecoder (bytes "i23e4:test") 10 true in
  [VInteger 23; VString "test"] ≠ [] ∧ Consumed d' = true
  ∧ DecodeAll d' = Fail ErrorConsumed d'.
Proof.
  intros d'.
  apply (DecodeAll_twice (NewDecoder (bytes "i23e4:test")) d').
  vm_compute. reflexivity.
Defined.

(** X5: on a decoder that is not consumed and whose cursor is at or past
    the end of the buffer, as a new decoder on an empty buffer is, [Decode]
    and [DecodeAll] read the stream out of range and panic; neither returns
    [ErrorConsumed] or an empty result. *)
Theorem Decode_at_end_panics (d : Decoder) :
  Consumed d = false →
  length (stream d) ≤ pos d →
  Decode d = Panic ∧ DecodeAll d = Panic.
Proof.
  intros Hc Hlen.
  assert (Hd : Decode d = Panic).
  { unfold Decode, fuelFor. rewrite nextObject_S. unfold nextObjectBody.
    by rewrite Hc, (lookup_ge_None_2 _ _ Hlen). }
  split; [done|]. unfold DecodeAll. by rewrite DecodeAllLoop_S, Hc, Hd.
Qed.

Lemma Decode_at_end_panics_witness :
  Decode (NewDecoder []) = Panic ∧ DecodeAll (NewDecoder []) = Panic.
Proof. apply (Decode_at_end_panics (NewDecoder [])); [reflexivity|cbn; lia]. Defined.

(** The loop of [DecodeAll] over the bytes of [v :: vs], the buffer ending
    after them. *)
Lemma DecodeAllLoop_wire (enc : Value → list ascii) (vs : list Value) :
  Forall (readsBack enc) vs →
  ∀ v res err d,
    readsBack enc v →
    Consumed d = false →
    drop (pos d) (stream d) = concat (enc <$> (v :: vs)) →
    ∃ fuel, DecodeAllLoop fuel res err d
            = Ret (res ++ v :: vs) (mkDecoder (stream d) (length (stream d)) true).
Proof.
  induction 1 as [|v' vs Hv' Hall IH]; intros v res err d [Hst Hdec] Hc Hdrop.
  - cbn [fmap list_fmap concat] in Hdrop. rewrite app_nil_r in Hdrop.
    rewrite <- (app_nil_r (enc v)) in Hdrop.
    destruct (Hdec d [] Hc Hdrop) as [fuel Hf].
    apply Decode_nextObject in Hf; [|done].
    destruct Hst as (c & r & Heq & _).
    assert (Hlen : length (stream d) = pos d + length (enc v)).
    { apply (f_equal length) in Hdrop. rewrite length_drop, app_nil_r in Hdrop.
      rewrite Heq in *. cbn [length] in *. lia. }
    rewrite markConsumed_end in Hf by (cbn [stream pos set_pos]; lia).
    exists 2. rewrite DecodeAllLoop_S, Hc, Hf. cbn [negb].
    rewrite DecodeAllLoop_S. cbn [set_Consumed set_pos Consumed negb stream pos].
    by rewrite <- Hlen.
  - cbn [fmap list_fmap concat] in Hdrop.
    destruct (Hdec d _ Hc Hdrop) as [fuel1 Hf1].
    apply Decode_nextObject in Hf1; [|done].
    pose proof (drop_app_drop _ _ _ _ Hdrop) as Hd1.
    destruct Hv' as [(c & r & Heq & Hce) Hdec'].
    assert (Hd1' : drop (pos d + length (enc v)) (stream d)
                   = c :: r ++ concat (enc <$> vs)).
    { rewrite Hd1. rewrite Heq. done. }
    pose proof (drop_length_eq _ _ _ _ Hd1') as Hlen.
    rewrite markConsumed_lt in Hf1 by (cbn [stream pos set_pos]; lia).
    destruct (IH v' (res ++ [v]) None (set_pos d (pos d + length (enc v)))) as [fuel2 Hf2].
    { split; [by exists c, r|done]. }
    { done. }
    { cbn [stream pos set_pos]. by rewrite Hd1. }
    exists (S fuel2). rewrite DecodeAllLoop_S, Hc, Hf1. cbn [negb].
    rewrite Hf2. cbn [stream set_pos]. by rewrite <- app_assoc.
Qed.

(** A buffer that holds the bytes of one or more values, one after another,
    is read back by [DecodeAll]. *)
Lemma DecodeAll_wire (enc : Value → list ascii) (v : Value) (vs : list Value) :
  Forall (readsBack enc) (v :: vs) →
  let s := concat (enc <$> (v :: vs)) in
  DecodeAll (NewDecoder s) = Ret (v :: vs) (mkDecoder s (length s) true).
Proof.
  intros Hall s. apply Forall_cons in Hall as [Hv Hall].
  destruct (DecodeAllLoop_wire enc vs Hall v [] (Some ErrorConsumed) (NewDecoder s) Hv
              eq_refl eq_refl) as [fuel Hf].
  by apply (DecodeAll_loop fuel).
Qed.

Lemma Encoder_Encode_Bytes (enc : Encoder) (v : Value) :
  Bytes (Encoder_Encode enc v) = Bytes enc ++ encodeObject v.
Proof.
  unfold Encoder_Encode. destruct (encodeObject v) as [|c r]; cbn.
  - by rewrite app_nil_r.
  - done.
Qed.

Lemma foldl_Encoder_Encode (enc : Encoder) (vs : list Value) :
  Bytes (foldl Encoder_Encode enc vs) = Bytes enc ++ concat (encodeObject <$> vs).
Proof.
  revert enc. induction vs as [|v vs IH]; intros enc; cbn [foldl fmap list_fmap concat].
  - by rewrite app_nil_r.
  - by rewrite IH, Encoder_Encode_Bytes, app_assoc.
Qed.

(** X6: an [Encoder] appends: after any sequence of calls of
    [Encoder.Encode], [Bytes] holds what it held before followed by what
    [Encode] returns for each of the objects, in the order of the calls;
    an object that is encoded as no byte leaves [Bytes] as it is. *)
Theorem Encoder_Encode_appends (enc : Encoder) (vs : list Value) :
  Bytes (foldl Encoder_Encode enc vs) = Bytes enc ++ concat (Encode <$> vs)
  ∧ ∀ v, Encode v = [] → Encoder_Encode enc v = enc.
Proof.
  split.
  - rewrite foldl_Encoder_Encode. do 2 f_equal. apply list_fmap_ext.
    intros _ v _. symmetry. apply Encode_encodeObject.
  - intros v Hv. rewrite Encode_encodeObject in Hv. unfold Encoder_Encode. by rewrite Hv.
Qed.

(** X7: objects written one after another by one [Encoder] are read back by
    [DecodeAll], in order, when each is a value of Go without an empty
    part and there is at least one. *)
Theorem DecodeAll_Encoder (v : Value) (vs : list Value) :
  forallb (λ x, representable x && noEmpty x) (v :: vs) = true →
  let s := Bytes (foldl Encoder_Encode NewEncoder (v :: vs)) in
  DecodeAll (NewDecoder s) = Ret (v :: vs) (mkDecoder s (length s) true).
Proof.
  intros Hall s. subst s. rewrite foldl_Encoder_Encode. cbn [NewEncoder Bytes app].
  apply DecodeAll_wire. apply forallb_Forall in Hall.
  eapply Forall_impl; [exact Hall|]. intros x [Hr Hn]%andb_true_iff.
  by apply readsBack_encodeObject.
Qed.

Lemma DecodeAll_Encoder_witness :
  let vs := [VInteger 23; VString "test"] in
  let s := Bytes (foldl Encoder_Encode NewEncoder vs) in
  s = bytes "i23e4:test"
  ∧ DecodeAll (NewDecoder s) = Ret vs (mkDecoder s (length s) true).
Proof.
  intros vs s. split; [vm_compute; reflexivity|].
  apply (DecodeAll_Encoder (VInteger 23) [VString "test"]). vm_compute. reflexivity.
Defined.

(** ** Malformed integers and strings *)

(** [nextInteger] up to its scanning loop: the byte ['i'], the sign if there
    is one, and the loop over the bytes [body] that follow. *)
Lemma nextInteger_scan (d : Decoder) (sign body : list ascii) :
  drop (pos d) (stream d) = "i"%char :: sign ++ body →
  sign = [] ∨ sign = ["-"%char] →
  body ≠ [] →
  (sign = [] → head body ≠ Some "-"%char) →
  nextInteger d =
    let idx := pos d + 1 + length sign in
    match scanInteger body idx with
    | ScanAt idx0 =>
        if idx =? idx0 then Fail ErrNoBytesInInteger (set_pos d (pos d + 1))
        else match stream d !! idx with
             | Some c1 =>
                 if Ascii.eqb c1 "0" && (1 <? idx0 - idx)
                 then Fail ErrLeadingZeros (set_pos d (pos d + 1))
                 else match slice (stream d) (pos d + 1) idx0 with
                      | Some s =>
                          match strconv.ParseInt (string_of_list_ascii s) 64 with
                          | inl res => Ret res (set_pos (set_pos d (pos d + 1)) (idx0 + 1))
                          | inr e => Fail (ErrParseInt e) (set_pos d (pos d + 1))
                          end
                      | None => Panic
                      end
             | None => Panic
             end
    | ScanFail e => Fail e (set_pos d (pos d + 1))
    | ScanPanic => Panic
    end.
Proof.
  intros Hdrop Hsign Hne Hhd. unfold nextInteger.
  rewrite (drop_cons_lookup _ _ _ _ Hdrop).
  change (Ascii.eqb "i" "i") with true. cbn [negb].
  pose proof (drop_cons_drop _ _ _ _ Hdrop) as Hd1.
  cbn [stream pos set_pos]. cbv zeta.
  destruct Hsign as [->| ->]; cbn [app length] in *.
  - destruct body as [|c body']; [done|].
    rewrite (drop_cons_lookup _ _ _ _ Hd1).
    destruct (Ascii.eqb_spec c "-") as [->|_]; [by destruct Hhd|].
    rewrite Nat.add_0_r, Hd1. done.
  - rewrite (drop_cons_lookup _ _ _ _ Hd1). change (Ascii.eqb "-" "-") with true.
    cbn match. rewrite (drop_cons_drop _ _ _ _ Hd1). done.
Qed.

Lemma scanInteger_invalid (ds rest : list ascii) (c : ascii) (idx : nat) :
  Forall (λ c, isDigit c = true) ds →
  notDigit c = true → Ascii.eqb c "e" = false →
  scanInteger (ds ++ c :: rest) idx = ScanFail (ErrInvalidByte c).
Proof.
  intros Hall Hc Hce. revert idx. induction Hall as [|c0 ds Hc0 Hall IH]; intros idx.
  - cbn [app scanInteger]. by rewrite Hce, Hc.
  - cbn [app scanInteger]. destruct (isDigit_not_special c0 Hc0) as (-> & _).
    rewrite notDigit_isDigit, Hc0. cbn [negb]. rewrite IH. by destruct ds.
Qed.

Lemma scanInteger_open (ds : list ascii) (idx : nat) :
  ds ≠ [] → Forall (λ c, isDigit c = true) ds →
  scanInteger ds idx = ScanFail ErrorNoTerminator.
Proof.
  intros Hne Hall. revert idx. induction Hall as [|c0 ds Hc0 Hall IH]; intros idx; [done|].
  cbn [scanInteger]. destruct (isDigit_not_special c0 Hc0) as (-> & _).
  rewrite notDigit_isDigit, Hc0. cbn [negb]. destruct ds as [|c1 ds]; [done|].
  by apply IH.
Qed.

Lemma Decode_on_i (s : list ascii) (r : list ascii) :
  s = "i"%char :: r →
  Decode (NewDecoder s) = finish (result_map VInteger (nextInteger (NewDecoder s))).
Proof.
  intros ->. unfold Decode, fuelFor. rewrite nextObject_S. unfold nextObjectBody.
  cbn [NewDecoder Consumed stream pos lookup list_lookup].
  change (Ascii.eqb "i" "i") with true. done.
Qed.

Lemma finish_Fail_start (s : list ascii) (e : error) :
  2 ≤ length s →
  finish (result_map VInteger (Fail e (set_pos (NewDecoder s) (pos (NewDecoder s) + 1))))
  = Fail e (mkDecoder s 1 false).
Proof.
  intros Hl. cbn [result_map finish]. f_equal. apply markConsumed_lt.
  cbn [stream pos set_pos NewDecoder]. lia.
Qed.

(** X8: an integer in which a byte that is neither a digit nor ['e'] follows
    the sign and zero or more digits fails with [ErrInvalidByte] for that
    byte; the cursor is left behind the ['i']. *)
Theorem Decode_integer_invalid_byte (neg : bool) (ds rest : list ascii) (c : ascii) :
  let sign := if neg then ["-"%char] else [] in
  let s := "i"%char :: sign ++ ds ++ c :: rest in
  Forall (λ c, isDigit c = true) ds →
  notDigit c = true → c ≠ "e"%char →
  (neg = false → ds = [] → c ≠ "-"%char) →
  Decode (NewDecoder s) = Fail (ErrInvalidByte c) (mkDecoder s 1 false).
Proof.
  intros sign s Hall Hc Hce Hm.
  rewrite (Decode_on_i s (sign ++ ds ++ c :: rest)) by done.
  rewrite (nextInteger_scan (NewDecoder s) sign (ds ++ c :: rest)).
  - cbv zeta. rewrite scanInteger_invalid; [|done|done|by apply Ascii.eqb_neq].
    apply finish_Fail_start. subst s sign. cbn [length]. rewrite !length_app. cbn [length].
    lia.
  - done.
  - subst sign. destruct neg; auto.
  - by destruct ds.
  - intros Hs. assert (neg = false) as Hn by (subst sign; by destruct neg).
    destruct ds as [|c0 ds0]; cbn [app head].
    + intros [= ->]. by apply Hm.
    + intros [= ->]. by inversion Hall.
Qed.

Lemma Decode_integer_invalid_byte_witness :
  Decode (NewDecoder (bytes "i12x4e"))
  = Fail (ErrInvalidByte "x") (mkDecoder (bytes "i12x4e") 1 false)
  ∧ Decode (NewDecoder (bytes "i--1e"))
    = Fail (ErrInvalidByte "-") (mkDecoder (bytes "i--1e") 1 false).
Proof.
  split.
  - apply (Decode_integer_invalid_byte false (bytes "12") (bytes "4e") "x");
      [by repeat constructor|done|done|done].
  - apply (Decode_integer_invalid_byte true [] (bytes "1e") "-");
      [by repeat constructor|done|done|done].
Defined.

(** X9: an integer whose digits run to the end of the buffer fails with
    [ErrorNoTerminator]. *)
Theorem Decode_integer_unterminated (neg : bool) (ds : list ascii) :
  let sign := if neg then ["-"%char] else [] in
  let s := "i"%char :: sign ++ ds in
  ds ≠ [] → Forall (λ c, isDigit c = true) ds →
  Decode (NewDecoder s) = Fail ErrorNoTerminator (mkDecoder s 1 false).
Proof.
  intros sign s Hne Hall.
  rewrite (Decode_on_i s (sign ++ ds)) by done.
  rewrite (nextInteger_scan (NewDecoder s) sign ds).
  - cbv zeta. rewrite scanInteger_open by done.
    apply finish_Fail_start. subst s sign. cbn [length]. rewrite !length_app.
    destruct ds; [done|]. cbn [length]. lia.
  - done.
  - subst sign. destruct neg; auto.
  - done.
  - intros _. destruct ds as [|c0 ds0]; [done|]. cbn [head]. intros [= ->].
    by inversion Hall.
Qed.

Lemma Decode_integer_unterminated_witness :
  Decode (NewDecoder (bytes "i15155"))
  = Fail ErrorNoTerminator (mkDecoder (bytes "i15155") 1 false).
Proof.
  apply (Decode_integer_unterminated false (bytes "15155")); [done|by repeat constructor].
Defined.

(** X10: an integer written without a leading zero whose value is outside
    [int64] fails with the range error of [strconv.ParseInt]. *)
Theorem Decode_integer_out_of_range (neg : bool) (ds rest : list ascii) :
  let sign := if neg then ["-"%char] else [] in
  let s := "i"%char :: sign ++ ds ++ "e"%char :: rest in
  ds ≠ [] → Forall (λ c, isDigit c = true) ds →
  (head ds = Some "0"%char → ds = ["0"%char]) →
  ¬ int64 (if neg then - Z.of_N (digitsVal ds) else Z.of_N (digitsVal ds)) →
  Decode (NewDecoder s) = Fail (ErrParseInt strconv.ErrRange) (mkDecoder s 1 false).
Proof.
  intros sign s Hne Hall Hhd Hout.
  rewrite (Decode_on_i s (sign ++ ds ++ "e"%char :: rest)) by done.
  assert (Hsl : length sign ≤ 1) by (subst sign; destruct neg; cbn; lia).
  assert (Hl : 0 < length ds) by (destruct ds; [done|cbn; lia]).
  rewrite (nextInteger_scan (NewDecoder s) sign (ds ++ "e"%char :: rest)).
  - cbv zeta. rewrite scanInteger_digits by done.
    set (d := NewDecoder s). set (idx := pos d + 1 + length sign).
    assert (Hdi : drop idx (stream d) = ds ++ "e"%char :: rest).
    { subst idx d s. cbn [NewDecoder pos stream]. cbn [Nat.add drop].
      by rewrite drop_app_length. }
    destruct (Nat.eqb_spec idx (idx + length ds)); [lia|].
    destruct ds as [|c0 ds0] eqn:Hds; [done|]. rewrite <- Hds in *.
    assert (Hl0 : stream d !! idx = Some c0).
    { apply (drop_cons_lookup _ _ _ (ds0 ++ "e"%char :: rest)). by rewrite Hdi, Hds. }
    rewrite Hl0. replace (idx + length ds - idx) with (length ds) by lia.
    assert (Hlz : Ascii.eqb c0 "0" && (1 <? length ds) = false).
    { destruct (Ascii.eqb_spec c0 "0") as [->|]; [|done].
      rewrite Hhd by (by rewrite Hds). done. }
    rewrite Hlz.
    replace (idx + length ds) with (pos d + 1 + length (sign ++ ds))
      by (rewrite length_app; lia).
    rewrite (slice_drop _ _ (sign ++ ds) ("e"%char :: rest));
      [| |subst d s; cbn [NewDecoder pos stream length]; lia].
    + subst sign. rewrite ParseInt_range; [|done|done|].
      * apply finish_Fail_start. subst s. cbn [length]. rewrite !length_app. cbn [length]. lia.
      * unfold int64 in Hout. change (2 ^ 63)%N with (Z.to_N (2 ^ 63)).
        destruct neg; lia.
    + subst d s. cbn [NewDecoder pos stream Nat.add drop]. rewrite drop_0, Hds. by rewrite <- app_assoc.
  - done.
  - subst sign. destruct neg; auto.
  - by destruct ds.
  - intros _. destruct ds as [|c0 ds0]; [done|]. cbn [app head]. intros [= ->].
    by inversion Hall.
Qed.

Lemma Decode_integer_out_of_range_witness :
  Decode (NewDecoder (bytes "i9223372036854775808e"))
  = Fail (ErrParseInt strconv.ErrRange) (mkDecoder (bytes "i9223372036854775808e") 1 false)
  ∧ Decode (NewDecoder (bytes "i-9223372036854775809e"))
    = Fail (ErrParseInt strconv.ErrRange) (mkDecoder (bytes "i-9223372036854775809e") 1 false).
Proof.
  split.
  - apply (Decode_integer_out_of_range false (bytes "9223372036854775808") []);
      [done|by repeat constructor|done|vm_compute; intros [_ H]; discriminate H].
  - apply (Decode_integer_out_of_range true (bytes "9223372036854775809") []);
      [done|by repeat constructor|done|vm_compute; intros [H _]; by apply H].
Defined.

(** ** Malformed strings *)

Lemma scanLength_open (s : list ascii) (idx : nat) :
  s ≠ [] → ":"%char ∉ s → scanLength s idx = ScanFail ErrNoStringFound.
Proof.
  revert idx. induction s as [|c s IH]; intros idx Hne Hnc; [done|].
  apply not_elem_of_cons in Hnc as [Hc Hnc]. cbn [scanLength].
  destruct (Ascii.eqb_spec c ":") as [->|_]; [done|].
  destruct s as [|c' s']; [done|]. by apply IH.
Qed.

(** X11: a buffer that starts with a digit and holds no colon fails with
    [ErrNoStringFound], and the cursor does not move. *)
Theorem Decode_string_no_colon (c : ascii) (r : list ascii) :
  let s := c :: r in
  isDigit c = true → ":"%char ∉ s →
  Decode (NewDecoder s) = Fail ErrNoStringFound (NewDecoder s).
Proof.
  intros s Hc Hnc. rewrite (Decode_on_digit s c r) by done.
  unfold nextString. cbn [NewDecoder stream pos lookup list_lookup drop].
  fold s. change (s !! 0) with (Some c). cbv iota.
  rewrite notDigit_isDigit, Hc. cbn [negb].
  rewrite scanLength_open by done. done.
Qed.

Lemma Decode_string_no_colon_witness :
  Decode (NewDecoder (bytes "55")) = Fail ErrNoStringFound (NewDecoder (bytes "55")).
Proof.
  apply (Decode_string_no_colon "5" (bytes "5")); [done|].
  intros H. by repeat (apply elem_of_cons in H as [H|H]; [discriminate H|]);
    apply elem_of_nil in H.
Defined.

(** X12: a string whose length, in front of the colon, holds a byte that is
    not a digit fails with the error of [strconv.Atoi], and the cursor does
    not move: the syntax error when the digits in front of that byte make
    a number below [2^64], the range error otherwise, [ParseUint] stopping
    at the digit that overflows before it reaches that byte. *)
Theorem Decode_string_bad_length (ds bad rest : list ascii) (x : ascii) :
  let s := ds ++ x :: bad ++ ":"%char :: rest in
  ds ≠ [] → Forall (λ c, isDigit c = true) ds →
  isDigit x = false → ":"%char ∉ x :: bad →
  Decode (NewDecoder s)
  = Fail (ErrStringLength (if (digitsVal ds <? 2 ^ 64)%N then strconv.ErrSyntax
                           else strconv.ErrRange))
         (NewDecoder s).
Proof.
  intros s Hne Hall Hx Hnc. destruct ds as [|c ds'] eqn:Hds; [done|].
  assert (Hc : isDigit c = true) by by inversion Hall.
  rewrite (Decode_on_digit s c (ds' ++ x :: bad ++ ":"%char :: rest)) by done.
  rewrite (nextString_bad_length (NewDecoder s) c (ds' ++ x :: bad) rest
             (if (digitsVal (c :: ds') <? 2 ^ 64)%N then strconv.ErrSyntax
              else strconv.ErrRange)).
  - done.
  - subst s. cbn [NewDecoder pos stream drop app]. by rewrite <- app_assoc.
  - done.
  - apply not_elem_of_app. split; [|done]. intros Hin.
    apply Forall_cons in Hall as [_ Hall].
    rewrite Forall_forall in Hall. apply Hall in Hin.
    by destruct (isDigit_not_special _ Hin) as (_ & ? & _).
  - unfold strconv.Atoi, strconv.ParseInt. rewrite list_ascii_of_string_of_list_ascii.
    destruct (isDigit_not_special c Hc) as (_ & _ & -> & -> & _). cbn [orb].
    unfold strconv.ParseUint.
    assert (Hp : strconv.parseUintLoop (2 ^ 64 - 1) ((c :: ds') ++ x :: bad) 0
                 = inr (if (digitsVal (c :: ds') <? 2 ^ 64)%N then strconv.ErrSyntax
                        else strconv.ErrRange)).
    { destruct (N.ltb_spec (digitsVal (c :: ds')) (2 ^ 64)) as [Hlt|Hge].
      - by apply parseUintLoop_syntax.
      - by apply parseUintLoop_overflow. }
    cbn [app] in Hp. by rewrite Hp.
Qed.

Lemma Decode_string_bad_length_witness :
  Decode (NewDecoder (bytes "4x:spam"))
  = Fail (ErrStringLength strconv.ErrSyntax) (NewDecoder (bytes "4x:spam"))
  ∧ Decode (NewDecoder (bytes "99999999999999999999x:a"))
    = Fail (ErrStringLength strconv.ErrRange) (NewDecoder (bytes "99999999999999999999x:a")).
Proof.
  split.
  - apply (Decode_string_bad_length (bytes "4") [] (bytes "spam") "x");
      [done|by repeat constructor|done|].
    intros H. by repeat (apply elem_of_cons in H as [H|H]; [discriminate H|]);
      apply elem_of_nil in H.
  - apply (Decode_string_bad_length (bytes "99999999999999999999") [] (bytes "a") "x");
      [done|by repeat constructor|done|].
    intros H. by repeat (apply elem_of_cons in H as [H|H]; [discriminate H|]);
      apply elem_of_nil in H.
Defined.

(** X13: a string whose length does not fit [int] fails with the range
    error of [strconv.Atoi], and the cursor does not move. *)
Theorem Decode_string_huge_length (ds rest : list ascii) :
  let s := ds ++ ":"%char :: rest in
  ds ≠ [] → Forall (λ c, isDigit c = true) ds → (2 ^ 63 ≤ digitsVal ds)%N →
  Decode (NewDecoder s) = Fail (ErrStringLength strconv.ErrRange) (NewDecoder s).
Proof.
  intros s Hne Hall Hv. destruct ds as [|c ds'] eqn:Hds; [done|].
  assert (Hc : isDigit c = true) by by inversion Hall.
  rewrite (Decode_on_digit s c (ds' ++ ":"%char :: rest)) by done.
  rewrite (nextString_bad_length (NewDecoder s) c ds' rest strconv.ErrRange).
  - done.
  - done.
  - done.
  - intros Hin. apply Forall_cons in Hall as [_ Hall].
    rewrite Forall_forall in Hall. apply Hall in Hin.
    by destruct (isDigit_not_special _ Hin) as (_ & ? & _).
  - unfold strconv.Atoi. by apply (ParseInt_range false (c :: ds')).
Qed.

Lemma Decode_string_huge_length_witness :
  Decode (NewDecoder (bytes "9223372036854775808:spam"))
  = Fail (ErrStringLength strconv.ErrRange) (NewDecoder (bytes "9223372036854775808:spam")).
Proof.
  apply (Decode_string_huge_length (bytes "9223372036854775808") (bytes "spam"));
    [done|by repeat constructor|done].
Defined.

(** ** Lists and dictionaries that break off *)

Lemma markConsumed_idemp (d : Decoder) : markConsumed (markConsumed d) = markConsumed d.
Proof.
  unfold markConsumed. destruct (Nat.leb_spec (length (stream d)) (pos d)) as [H|H].
  - cbn [stream pos set_Consumed]. by destruct (Nat.leb_spec (length (stream d)) (pos d)); [|lia].
  - by destruct (Nat.leb_spec (length (stream d)) (pos d)); [lia|].
Qed.

(** A decoder that [nextObject] hands back has gone through the test at the
    end of [nextObject]. *)
Lemma nextObject_marked (fuel : nat) (d : Decoder) :
  Consumed d = false →
  match nextObject fuel d with
  | Ret _ d' | Fail _ d' => markConsumed d' = d'
  | _ => True
  end.
Proof.
  intros Hc. destruct fuel as [|fuel]; [done|]. rewrite nextObject_S.
  unfold nextObjectBody. rewrite Hc. destruct (stream d !! pos d) as [c|]; [|done].
  match goal with |- context [finish ?r] => destruct r as [a d0|e d0| |] end;
    cbn [finish]; try done; apply markConsumed_idemp.
Qed.

Section prefix.
Context (enc : Value → list ascii) (encKey : string → list ascii).

(** The loop of [nextList] over the bytes of [v :: vs] when a byte other
    than ['e'] follows them: it goes on from there with [v :: vs] read. *)
Lemma listLoop_prefix (vs : list Value) :
  Forall (readsBack enc) vs →
  ∀ v res d c rest,
    readsBack enc v →
    Consumed d = false →
    drop (pos d) (stream d) = concat (enc <$> (v :: vs)) ++ c :: rest →
    Ascii.eqb c "e" = false →
    ∃ fuel0, ∀ fuel, fuel0 ≤ fuel →
      listLoop (length (v :: vs) + fuel) res d
      = listLoop fuel (res ++ v :: vs)
          (set_pos d (pos d + length (concat (enc <$> (v :: vs))))).
Proof.
  induction 1 as [|v' vs Hv' Hall IH]; intros v res d c rest [_ Hdec] Hc Hdrop Hce.
  - cbn [fmap list_fmap concat] in *. rewrite app_nil_r in *.
    destruct (Hdec d (c :: rest) Hc Hdrop) as [fuel1 Hf1].
    pose proof (drop_app_drop _ _ _ _ Hdrop) as Hd1.
    pose proof (drop_length_eq _ _ _ _ Hd1) as Hlen.
    exists fuel1. intros fuel Hle. cbn [length Nat.add].
    rewrite listLoop_S. unfold listLoopBody.
    rewrite (nextObject_fuel_ge fuel1 _ d _ Hf1) by (done || lia).
    rewrite markConsumed_lt by (cbn [stream pos set_pos]; lia).
    cbn [stream pos set_pos].
    destruct (Nat.leb_spec (length (stream d)) (pos d + length (enc v))); [lia|].
    by rewrite (drop_cons_lookup _ _ _ _ Hd1), Hce.
  - cbn [fmap list_fmap concat] in Hdrop. rewrite <- app_assoc in Hdrop.
    destruct (Hdec d _ Hc Hdrop) as [fuel1 Hf1].
    pose proof (drop_app_drop _ _ _ _ Hdrop) as Hd1.
    pose proof Hv' as [(c' & r' & Heq & Hce') _].
    assert (Hd1' : drop (pos d + length (enc v)) (stream d)
                   = c' :: r' ++ concat (enc <$> vs) ++ c :: rest).
    { rewrite Hd1. cbn [fmap list_fmap concat]. rewrite Heq.
      by rewrite <- !app_assoc. }
    pose proof (drop_length_eq _ _ _ _ Hd1') as Hlen.
    destruct (IH v' (res ++ [v]) (set_pos d (pos d + length (enc v))) c rest)
      as [fuel2 Hf2]; [done|done| |done|].
    { cbn [stream pos set_pos]. by rewrite Hd1. }
    exists (fuel1 `max` fuel2). intros fuel Hle.
    change (length (v :: v' :: vs) + fuel) with (S (length (v' :: vs) + fuel)).
    rewrite listLoop_S. unfold listLoopBody.
    rewrite (nextObject_fuel_ge fuel1 _ d _ Hf1) by (done || lia).
    rewrite markConsumed_lt by (cbn [stream pos set_pos]; lia).
    cbn [stream pos set_pos] in *.
    destruct (Nat.leb_spec (length (stream d)) (pos d + length (enc v))); [lia|].
    rewrite (drop_cons_lookup _ _ _ _ Hd1'), Hce'.
    rewrite Hf2 by lia. rewrite <- app_assoc. cbn [app fmap list_fmap concat].
    rewrite !length_app. unfold set_pos. cbn [stream pos Consumed].
    do 2 f_equal. lia.
Qed.

(** [nextObject] on ['l'] and the bytes of [vs] when a byte other than ['e']
    follows them. *)
Lemma nextObject_list_prefix (vs : list Value) (d : Decoder) (c : ascii)
    (rest : list ascii) :
  Forall (readsBack enc) vs →
  Consumed d = false →
  drop (pos d) (stream d) = "l"%char :: concat (enc <$> vs) ++ c :: rest →
  Ascii.eqb c "e" = false →
  ∃ fuel0, ∀ fuel, fuel0 ≤ fuel →
    nextObject (S (length vs + fuel)) d
    = finish (result_map VList
        (listLoop fuel vs (set_pos d (pos d + 1 + length (concat (enc <$> vs)))))).
Proof.
  intros Hall Hc Hdrop Hce.
  pose proof (drop_cons_drop _ _ _ _ Hdrop) as Hd1.
  assert (Hhead : ∀ fuel, nextObject (S fuel) d
    = finish (result_map VList (nextListBody (listLoop fuel) d))).
  { intros fuel. rewrite nextObject_S. unfold nextObjectBody. rewrite Hc.
    rewrite (drop_cons_lookup _ _ _ _ Hdrop).
    change (Ascii.eqb "l" "i") with false. change (Ascii.eqb "l" "l") with true. done. }
  destruct vs as [|v vs].
  - exists 0. intros fuel _. rewrite Hhead. unfold nextListBody.
    rewrite (drop_cons_lookup _ _ _ _ Hdrop).
    change (Ascii.eqb "l" "l") with true. cbn [negb]. cbn match. cbn [stream pos set_pos].
    cbn [fmap list_fmap concat app length Nat.add] in *.
    rewrite (drop_cons_lookup _ _ _ _ Hd1), Hce. by rewrite Nat.add_0_r.
  - apply Forall_cons in Hall as [Hv Hall].
    destruct (listLoop_prefix vs Hall v [] (set_pos d (pos d + 1)) c rest Hv Hc Hd1 Hce)
      as [fuel0 Hf].
    destruct Hv as [(c' & r' & Heq & Hce') _].
    exists fuel0. intros fuel Hle. rewrite Hhead. unfold nextListBody.
    rewrite (drop_cons_lookup _ _ _ _ Hdrop).
    change (Ascii.eqb "l" "l") with true. cbn [negb]. cbn match. cbn [stream pos set_pos].
    assert (Hl1 : stream d !! (pos d + 1) = Some c').
    { eapply drop_cons_lookup. rewrite Hd1. cbn [fmap list_fmap concat]. rewrite Heq.
      cbn [app]. done. }
    rewrite Hl1, Hce'. by rewrite Hf.
Qed.

(** The loop of [nextDict] over the bytes of the entries [kv :: es] when a
    byte other than ['e'] follows them. *)
Lemma dictLoop_prefix (es : list (string * Value)) :
  Forall (λ kv, readsKey encKey kv.1 ∧ readsBack enc kv.2) es →
  ∀ kv res d c rest,
    readsKey encKey kv.1 → readsBack enc kv.2 →
    Consumed d = false →
    drop (pos d) (stream d)
    = concat (wireEntry encKey enc <$> (kv :: es)) ++ c :: rest →
    Ascii.eqb c "e" = false →
    ∃ fuel0, ∀ fuel, fuel0 ≤ fuel →
      dictLoop (length (kv :: es) + fuel) res d
      = dictLoop fuel (foldl insertEntry res (kv :: es))
          (set_pos d (pos d + length (concat (wireEntry encKey enc <$> (kv :: es))))).
Proof.
  induction 1 as [|kv' es [Hk' Hv'] Hall IH];
    intros [k v] res d c rest [_ Hkey] [_ Hdec] Hc Hdrop Hce; cbn [fst snd] in *.
  - cbn [fmap list_fmap concat] in *. rewrite app_nil_r in *.
    unfold wireEntry in *. cbn [fst snd] in *. rewrite <- app_assoc in Hdrop.
    pose proof (Hkey d _ Hdrop) as Hs.
    pose proof (drop_app_drop _ _ _ _ Hdrop) as Hd0.
    destruct (Hdec (set_pos d (pos d + length (encKey k))) (c :: rest) Hc Hd0)
      as [fuel1 Hf1].
    pose proof (drop_app_drop _ _ _ _ Hd0) as Hd1.
    pose proof (drop_length_eq _ _ _ _ Hd1) as Hlen.
    exists fuel1. intros fuel Hle. cbn [length Nat.add].
    rewrite dictLoop_S. unfold dictLoopBody. rewrite Hs.
    rewrite (nextObject_fuel_ge fuel1 _ _ _ Hf1) by (done || lia).
    cbn [stream pos set_pos] in *.
    rewrite markConsumed_lt by (cbn [stream pos set_pos]; lia).
    cbn [stream pos set_pos].
    destruct (Nat.leb_spec (length (stream d))
                (pos d + length (encKey k) + length (enc v))); [lia|].
    rewrite (drop_cons_lookup _ _ _ _ Hd1), Hce.
    cbn [foldl]. unfold insertEntry, set_pos. cbn [fst snd stream pos Consumed].
    rewrite length_app. do 2 f_equal. lia.
  - cbn [fmap list_fmap concat] in Hdrop. rewrite <- app_assoc in Hdrop.
    unfold wireEntry at 1 in Hdrop. cbn [fst snd] in Hdrop. rewrite <- app_assoc in Hdrop.
    pose proof (Hkey d _ Hdrop) as Hs.
    pose proof (drop_app_drop _ _ _ _ Hdrop) as Hd0.
    destruct (Hdec (set_pos d (pos d + length (encKey k))) _ Hc Hd0) as [fuel1 Hf1].
    pose proof (drop_app_drop _ _ _ _ Hd0) as Hd1.
    pose proof Hk' as [(c' & r' & Heq & Hcd) _].
    destruct (isDigit_not_special c' Hcd) as (Hce' & _).
    assert (Hd1' : drop (pos d + length (encKey k) + length (enc v)) (stream d)
                   = c' :: r' ++ enc kv'.2
                       ++ concat (wireEntry encKey enc <$> es) ++ c :: rest).
    { rewrite Hd1. cbn [fmap list_fmap concat]. unfold wireEntry at 1. rewrite Heq.
      cbn [app]. by rewrite <- !app_assoc. }
    pose proof (drop_length_eq _ _ _ _ Hd1') as Hlen.
    destruct (IH kv' (<[k:=v]> res)
                (set_pos d (pos d + length (encKey k) + length (enc v))) c rest)
      as [fuel2 Hf2]; [done|done|done| |done|].
    { cbn [stream pos set_pos]. by rewrite Hd1. }
    exists (fuel1 `max` fuel2). intros fuel Hle.
    change (length ((k, v) :: kv' :: es) + fuel) with (S (length (kv' :: es) + fuel)).
    rewrite dictLoop_S. unfold dictLoopBody. rewrite Hs.
    rewrite (nextObject_fuel_ge fuel1 _ _ _ Hf1) by (done || lia).
    rewrite markConsumed_lt by (cbn [stream pos set_pos]; lia).
    cbn [stream pos set_pos Consumed] in *.
    destruct (Nat.leb_spec (length (stream d))
                (pos d + length (encKey k) + length (enc v))); [lia|].
    rewrite (drop_cons_lookup _ _ _ _ Hd1'), Hce'.
    rewrite Hf2 by lia.
    cbn [foldl]. unfold insertEntry at 2 4. cbn [fst snd].
    cbn [fmap list_fmap concat].
    unfold wireEntry at 3. cbn [fst snd]. rewrite !length_app.
    unfold set_pos. cbn [stream pos Consumed]. do 2 f_equal. lia.
Qed.

(** [nextObject] on ['d'] and the bytes of the entries [es] when a byte
    other than ['e'] follows them. *)
Lemma nextObject_dict_prefix (es : list (string * Value)) (d : Decoder) (c : ascii)
    (rest : list ascii) :
  Forall (λ kv, readsKey encKey kv.1 ∧ readsBack enc kv.2) es →
  Consumed d = false →
  drop (pos d) (stream d)
  = "d"%char :: concat (wireEntry encKey enc <$> es) ++ c :: rest →
  Ascii.eqb c "e" = false →
  ∃ fuel0, ∀ fuel, fuel0 ≤ fuel →
    nextObject (S (length es + fuel)) d
    = finish (result_map VDict
        (dictLoop fuel (insertAll es)
           (set_pos d (pos d + 1 + length (concat (wireEntry encKey enc <$> es)))))).
Proof.
  intros Hall Hc Hdrop Hce.
  pose proof (drop_cons_drop _ _ _ _ Hdrop) as Hd1.
  assert (Hhead : ∀ fuel, nextObject (S fuel) d
    = finish (result_map VDict (nextDictBody (dictLoop fuel) d))).
  { intros fuel. rewrite nextObject_S. unfold nextObjectBody. rewrite Hc.
    rewrite (drop_cons_lookup _ _ _ _ Hdrop).
    change (Ascii.eqb "d" "i") with false. change (Ascii.eqb "d" "l") with false.
    change (Ascii.eqb "d" "d") with true. done. }
  destruct es as [|kv es].
  - exists 0. intros fuel _. rewrite Hhead. unfold nextDictBody.
    rewrite (drop_cons_lookup _ _ _ _ Hdrop).
    change (Ascii.eqb "d" "d") with true. cbn [negb]. cbn match. cbn [stream pos set_pos].
    cbn [fmap list_fmap concat app length Nat.add] in *.
    rewrite (drop_cons_lookup _ _ _ _ Hd1), Hce. by rewrite Nat.add_0_r.
  - apply Forall_cons in Hall as [[Hk Hv] Hall].
    destruct (dictLoop_prefix es Hall kv ∅ (set_pos d (pos d + 1)) c rest Hk Hv Hc Hd1 Hce)
      as [fuel0 Hf].
    destruct Hk as [(c' & r' & Heq & Hcd) _].
    destruct (isDigit_not_special c' Hcd) as (Hce' & _).
    exists fuel0. intros fuel Hle. rewrite Hhead. unfold nextDictBody.
    rewrite (drop_cons_lookup _ _ _ _ Hdrop).
    change (Ascii.eqb "d" "d") with true. cbn [negb]. cbn match. cbn [stream pos set_pos].
    assert (Hl1 : stream d !! (pos d + 1) = Some c').
    { eapply drop_cons_lookup. rewrite Hd1. cbn [fmap list_fmap concat].
      unfold wireEntry at 1. rewrite Heq. cbn [app]. done. }
    rewrite Hl1, Hce'. rewrite Hf by done. by rewrite <- insertAll_foldl.
Qed.

End prefix.

Lemma goEntry_reads (es : list (string * Value)) :
  forallb goEntry es = true →
  Forall (λ kv, readsKey Legacy.encodeString kv.1 ∧ readsBack Legacy.encodeObject kv.2) es.
Proof.
  intros Hall. apply forallb_Forall in Hall.
  eapply Forall_impl; [exact Hall|]. intros kv [Hgk Hrv]%andb_true_iff.
  split; [by apply readsKey_Legacy|by apply readsBack_Legacy].
Qed.

Lemma representable_reads (vs : list Value) :
  forallb representable vs = true → Forall (readsBack Legacy.encodeObject) vs.
Proof.
  intros Hall. apply forallb_Forall in Hall.
  eapply Forall_impl; [exact Hall|]. apply readsBack_Legacy.
Qed.

(** What [nextObject] returns when it is not a value is returned as it is
    by the [nextObject] around it. *)
Lemma finish_not_Ret (fuel : nat) (d : Decoder) :
  Consumed d = false →
  (∀ v d', nextObject fuel d ≠ Ret v d') →
  ∀ (A : Type) (f : A → Value) (r : result A),
    match nextObject fuel d with
    | Fail e d' => r = Fail e d'
    | Panic => r = Panic
    | _ => r = OutOfFuel
    end →
    finish (result_map f r) = nextObject fuel d.
Proof.
  intros Hc Hnr A f r Hr. pose proof (nextObject_marked fuel d Hc) as Hm.
  destruct (nextObject fuel d) as [v d'|e d'| |]; subst r; cbn [result_map finish].
  - by destruct (Hnr v d').
  - by rewrite Hm.
  - done.
  - done.
Qed.

(** X14: in a list, an element that fails or panics makes the list fail or
    panic in the same way, with the same error and the cursor where the
    element left it, whatever elements come before it. *)
Theorem Decode_list_element_fails (vs : list Value) (c : ascii) (rest : list ascii) :
  let pre := "l"%char :: concat (Legacy.encodeObject <$> vs) in
  let s := pre ++ c :: rest in
  forallb representable vs = true →
  c ≠ "e"%char →
  (∀ v d', Decode (mkDecoder s (length pre) false) ≠ Ret v d') →
  Decode (NewDecoder s) = Decode (mkDecoder s (length pre) false).
Proof.
  intros pre s Hall Hce Hnr. apply representable_reads in Hall.
  apply Ascii.eqb_neq in Hce.
  destruct (nextObject_list_prefix Legacy.encodeObject vs (NewDecoder s) c rest Hall
              eq_refl eq_refl Hce) as [fuel0 Hf].
  set (dk := mkDecoder s (length pre) false) in *.
  set (f := fuel0 `max` fuelFor dk).
  apply (Decode_nextObject (S (length vs + S f))).
  - rewrite Hf by lia. rewrite listLoop_S. unfold listLoopBody.
    change (set_pos (NewDecoder s) _) with dk.
    assert (Hdk : nextObject f dk = Decode dk).
    { apply (nextObject_fuel_ge (fuelFor dk)); [done|apply Decode_fuel|lia]. }
    rewrite <- Hdk in *. apply finish_not_Ret; [done|done|].
    destruct (nextObject f dk); try done. by destruct (Hnr a d).
  - apply Decode_fuel.
Qed.

Lemma Decode_list_element_fails_witness :
  let s := bytes "li1ei2xe" in
  Decode (NewDecoder s) = Decode (mkDecoder s 4 false)
  ∧ Decode (NewDecoder s) = Fail (ErrInvalidByte "x") (mkDecoder s 5 false).
Proof.
  intros s. split; [|vm_compute; reflexivity].
  apply (Decode_list_element_fails [VInteger 1] "i" (bytes "2xe")).
  - done.
  - done.
  - intros v d'. vm_compute. discriminate.
Defined.

(** X15: in a dictionary, a value that fails or panics makes the dictionary
    fail or panic in the same way, whatever entries come before it; so
    does a key at the end of the buffer, after which the value is read out
    of range. *)
Theorem Decode_dict_value_fails (es : list (string * Value)) (k : string)
    (rest : list ascii) :
  let pre := "d"%char
               :: concat (wireEntry Legacy.encodeString Legacy.encodeObject <$> es)
               ++ Legacy.encodeString k in
  let s := pre ++ rest in
  forallb goEntry es = true → goString k = true →
  (∀ v d', Decode (mkDecoder s (length pre) false) ≠ Ret v d') →
  Decode (NewDecoder s) = Decode (mkDecoder s (length pre) false).
Proof.
  intros pre s Hall Hk Hnr. apply goEntry_reads in Hall.
  destruct (readsKey_Legacy k Hk) as [(c & r & Heq & Hcd) Hkey].
  destruct (isDigit_not_special c Hcd) as (Hce & _).
  set (n := length (concat (wireEntry Legacy.encodeString Legacy.encodeObject <$> es))).
  assert (Hs : s = "d"%char
                   :: concat (wireEntry Legacy.encodeString Legacy.encodeObject <$> es)
                   ++ c :: r ++ rest).
  { subst s pre. rewrite Heq. cbn [app]. rewrite <- app_assoc. done. }
  destruct (nextObject_dict_prefix Legacy.encodeObject Legacy.encodeString es (NewDecoder s)
              c (r ++ rest) Hall eq_refl Hs Hce) as [fuel0 Hf].
  set (dk := mkDecoder s (length pre) false) in *.
  set (f := fuel0 `max` fuelFor dk).
  apply (Decode_nextObject (S (length es + S f))).
  - rewrite Hf by lia. rewrite dictLoop_S. unfold dictLoopBody.
    cbn [NewDecoder pos Nat.add]. fold n.
    set (d0 := set_pos _ _).
    assert (Hd0 : drop (pos d0) (stream d0) = Legacy.encodeString k ++ rest).
    { subst d0. cbn [set_pos stream pos NewDecoder]. rewrite Hs at 1.
      cbn [drop]. subst n. rewrite drop_app_length, Heq. done. }
    rewrite (Hkey d0 rest Hd0).
    assert (Hdk' : set_pos d0 (pos d0 + length (Legacy.encodeString k)) = dk).
    { subst d0 dk pre. unfold set_pos. cbn [stream pos Consumed NewDecoder].
      f_equal. cbn [length]. rewrite length_app. fold n. lia. }
    rewrite Hdk'.
    assert (Hdk : nextObject f dk = Decode dk).
    { apply (nextObject_fuel_ge (fuelFor dk)); [done|apply Decode_fuel|lia]. }
    rewrite <- Hdk in *. apply finish_not_Ret; [done|done|].
    destruct (nextObject f dk); try done. by destruct (Hnr a d).
  - apply Decode_fuel.
Qed.

Lemma Decode_dict_value_fails_witness :
  let s := bytes "d1:ai1e1:bi-e" in
  Decode (NewDecoder s) = Decode (mkDecoder s 10 false)
  ∧ Decode (NewDecoder s) = Fail ErrNoBytesInInteger (mkDecoder s 11 false)
  ∧ Decode (NewDecoder (bytes "d1:a")) = Decode (mkDecoder (bytes "d1:a") 4 false).
Proof.
  intros s. split_and!; [|vm_compute; reflexivity|].
  - apply (Decode_dict_value_fails [("a"%string, VInteger 1)] "b" (bytes "i-e")).
    + done.
    + done.
    + intros v d'. vm_compute. discriminate.
  - apply (Decode_dict_value_fails [] "a" []).
    + done.
    + done.
    + intros v d'. vm_compute. discriminate.
Defined.

(** X16: in a dictionary, a byte that is neither a digit nor ['e'] where a
    key is to start fails with [ErrNoStringLength]: keys are strings. The
    cursor is left on that byte. *)
Theorem Decode_dict_key_not_string (es : list (string * Value)) (c : ascii)
    (rest : list ascii) :
  let pre := "d"%char :: concat (wireEntry Legacy.encodeString Legacy.encodeObject <$> es) in
  let s := pre ++ c :: rest in
  forallb goEntry es = true →
  notDigit c = true → c ≠ "e"%char →
  Decode (NewDecoder s) = Fail ErrNoStringLength (mkDecoder s (length pre) false).
Proof.
  intros pre s Hall Hc Hce. apply goEntry_reads in Hall.
  apply Ascii.eqb_neq in Hce.
  destruct (nextObject_dict_prefix Legacy.encodeObject Legacy.encodeString es (NewDecoder s)
              c rest Hall eq_refl eq_refl Hce) as [fuel0 Hf].
  apply (Decode_nextObject (S (length es + S fuel0))); [|done].
  rewrite Hf by lia. rewrite dictLoop_S. unfold dictLoopBody.
  change (set_pos (NewDecoder s) _) with (mkDecoder s (length pre) false).
  unfold nextString. cbn [stream pos].
  assert (Hl : s !! length pre = Some c).
  { subst s. by rewrite list_lookup_middle. }
  rewrite Hl, Hc. cbn [result_map finish]. f_equal. apply markConsumed_lt.
  cbn [stream pos]. by apply lookup_lt_Some in Hl.
Qed.

Lemma Decode_dict_key_not_string_witness :
  let s := bytes "d1:ai1ei2ei3ee" in
  Decode (NewDecoder s) = Fail ErrNoStringLength (mkDecoder s 7 false).
Proof.
  intros s.
  apply (Decode_dict_key_not_string [("a"%string, VInteger 1)] "i" (bytes "2ei3ee")); done.
Defined.

Lemma Legacy_encodeObject_length (v : Value) :
  representable v = true → 0 < length (Legacy.encodeObject v).
Proof.
  intros Hr. destruct (readsBack_Legacy v Hr) as [(c & r & -> & _) _]. cbn. lia.
Qed.

(** X17: a dictionary opened with ['d'] in which the buffer ends after one
    or more entries, each written in full, fails with
    [ErrorNoTerminator]. *)
Theorem Decode_dict_unterminated (kv : string * Value) (es : list (string * Value)) :
  forallb goEntry (kv :: es) = true →
  let s := "d"%char
             :: concat (wireEntry Legacy.encodeString Legacy.encodeObject <$> (kv :: es)) in
  Decode (NewDecoder s) = Fail ErrorNoTerminator (mkDecoder s (length s) true).
Proof.
  intros Hall s.
  destruct (exists_last (l := kv :: es)) as (init & [k v] & Hsplit); [done|].
  rewrite Hsplit in Hall. apply goEntry_reads in Hall.
  apply Forall_app in Hall as [Hinit Hlast]. apply Forall_cons in Hlast as [[Hk Hv] _].
  cbn [fst snd] in *.
  destruct Hk as [(c & r & Heq & Hcd) Hkey]. destruct Hv as [_ Hdec].
  destruct (isDigit_not_special c Hcd) as (Hce & _).
  set (n := length (concat (wireEntry Legacy.encodeString Legacy.encodeObject <$> init))).
  assert (Hs : s = "d"%char
                   :: concat (wireEntry Legacy.encodeString Legacy.encodeObject <$> init)
                   ++ c :: r ++ Legacy.encodeObject v).
  { subst s. rewrite Hsplit, fmap_app, concat_app. cbn [fmap list_fmap concat].
    unfold wireEntry at 2. cbn [fst snd]. rewrite Heq, app_nil_r. done. }
  destruct (nextObject_dict_prefix Legacy.encodeObject Legacy.encodeString init
              (NewDecoder s) c (r ++ Legacy.encodeObject v) Hinit eq_refl Hs Hce)
    as [fuel0 Hf].
  cbn [NewDecoder pos Nat.add] in Hf. fold n in Hf.
  set (d0 := set_pos (NewDecoder s) (S n)) in *.
  assert (Hd0 : drop (pos d0) (stream d0) = Legacy.encodeString k ++ Legacy.encodeObject v).
  { subst d0. cbn [set_pos stream pos NewDecoder]. rewrite Hs at 1.
    cbn [drop]. subst n. rewrite drop_app_length, Heq. done. }
  pose proof (Hkey d0 _ Hd0) as Hks.
  set (d1 := set_pos d0 (pos d0 + length (Legacy.encodeString k))) in *.
  assert (Hd1 : drop (pos d1) (stream d1) = Legacy.encodeObject v ++ []).
  { rewrite app_nil_r. subst d1. cbn [set_pos stream pos].
    by apply (drop_app_drop _ _ _ _ Hd0). }
  destruct (Hdec d1 [] eq_refl Hd1) as [fuel1 Hf1].
  assert (Hlen : length s = pos d1 + length (Legacy.encodeObject v)).
  { apply (f_equal length) in Hd0. rewrite length_drop, length_app, Heq in Hd0.
    subst d1 d0. cbn [set_pos stream pos NewDecoder length] in *. rewrite Heq.
    cbn [length]. lia. }
  assert (Hst : stream d1 = s) by done.
  apply (Decode_nextObject (S (length init + S (fuel0 `max` fuel1)))); [|done].
  rewrite Hf by lia. rewrite dictLoop_S. unfold dictLoopBody. rewrite Hks.
  rewrite (nextObject_fuel_ge fuel1 _ _ _ Hf1) by (done || lia).
  rewrite markConsumed_end by (cbn [stream pos set_pos]; rewrite Hst; lia).
  cbn [stream pos set_pos set_Consumed]. rewrite Hst.
  destruct (Nat.leb_spec (length s) (pos d1 + length (Legacy.encodeObject v))); [|lia].
  cbn [result_map finish]. rewrite <- Hlen. f_equal.
  unfold markConsumed. cbn [stream pos]. by rewrite Nat.leb_refl.
Qed.

Lemma Decode_dict_unterminated_witness :
  let s := bytes "d1:ai1e1:bi2e" in
  Decode (NewDecoder s) = Fail ErrorNoTerminator (mkDecoder s 13 true).
Proof.
  intros s.
  apply (Decode_dict_unterminated ("a"%string, VInteger 1) [("b"%string, VInteger 2)]).
  done.
Defined.

(** ** What the encoder keeps apart, and what it does not *)

(** [Decode] on a buffer that starts with the bytes of a value of Go without
    an empty part. *)
Lemma Decode_encodeObject (v : Value) (rest : list ascii) :
  representable v = true → noEmpty v = true →
  ∃ d', Decode (NewDecoder (encodeObject v ++ rest)) = Ret v d'.
Proof.
  intros Hrep Hne. destruct (readsBack_encodeObject v Hrep Hne) as [_ Hdec].
  destruct (Hdec (NewDecoder (encodeObject v ++ rest)) rest) as [fuel Hf]; [done|done|].
  eexists. by apply (Decode_nextObject fuel).
Qed.

(** X18: the encodings of values of Go without an empty part are told
    apart by their bytes: none is the beginning of another, and different
    values have different encodings. *)
Theorem Encode_prefix_free (v1 v2 : Value) (r1 r2 : list ascii) :
  representable v1 = true → noEmpty v1 = true →
  representable v2 = true → noEmpty v2 = true →
  Encode v1 ++ r1 = Encode v2 ++ r2 →
  v1 = v2 ∧ r1 = r2.
Proof.
  rewrite !Encode_encodeObject. intros Hr1 Hn1 Hr2 Hn2 Heq.
  destruct (Decode_encodeObject v1 r1 Hr1 Hn1) as (d1 & Hd1).
  destruct (Decode_encodeObject v2 r2 Hr2 Hn2) as (d2 & Hd2).
  rewrite Heq, Hd2 in Hd1. injection Hd1 as Hv _. subst v2. split; [done|].
  by apply app_inv_head in Heq.
Qed.

Lemma Encode_prefix_free_witness :
  VInteger 1 = VInteger 1 ∧ bytes "i2e" = bytes "i2e".
Proof.
  apply (Encode_prefix_free (VInteger 1) (VInteger 1) (bytes "i2e") (bytes "i2e")); done.
Defined.

Lemma isEmptyValue_encodeObject (v : Value) :
  isEmptyValue v = true → encodeObject v = [].
Proof.
  destruct v as [i|s|l|m]; cbn [isEmptyValue]; intros H.
  - done.
  - by destruct s.
  - rewrite encodeObject_VList, encodeList_eq. by destruct l.
  - rewrite encodeObject_VDict, encodeDict_eq. by destruct (size m).
Qed.

(** X19: an empty string, list or dictionary inside a list leaves no byte in
    the encoding of the list: the list is written as if the element was
    not there, so that a list and the same list without its empty elements
    have the same encoding. *)
Theorem Encode_list_drops_empty (l1 l2 : list Value) (v : Value) :
  isEmptyValue v = true →
  Encode (VList (l1 ++ v :: l2))
  = "l"%char :: concat (Encode <$> (l1 ++ l2)) ++ ["e"%char]
  ∧ (l1 ++ l2 ≠ [] → Encode (VList (l1 ++ v :: l2)) = Encode (VList (l1 ++ l2))).
Proof.
  intros He.
  assert (Hfm : Encode <$> (l1 ++ l2) = encodeObject <$> (l1 ++ l2)).
  { apply list_fmap_ext. intros _ x _. apply Encode_encodeObject. }
  assert (Heq : Encode (VList (l1 ++ v :: l2))
                = "l"%char :: concat (Encode <$> (l1 ++ l2)) ++ ["e"%char]).
  { rewrite Hfm, Encode_encodeObject, encodeObject_VList, encodeList_eq.
    rewrite length_app. cbn [length].
    destruct (Nat.leb_spec (length l1 + S (length l2)) 0); [lia|].
    rewrite !fmap_app, !concat_app. cbn [fmap list_fmap concat].
    by rewrite (isEmptyValue_encodeObject v He). }
  split; [done|]. intros Hne. rewrite Heq, Hfm.
  rewrite (Encode_encodeObject (VList _)), encodeObject_VList, encodeList_eq.
  destruct (l1 ++ l2); done.
Qed.

Lemma Encode_list_drops_empty_witness :
  Encode (VList [VInteger 1; VString EmptyString; VInteger 2]) = bytes "li1ei2ee"
  ∧ Encode (VList [VInteger 1; VString EmptyString; VInteger 2])
    = Encode (VList [VInteger 1; VInteger 2]).
Proof.
  destruct (Encode_list_drops_empty [VInteger 1] [VInteger 2] (VString EmptyString) eq_refl)
    as [H1 H2].
  split; [exact H1|]. by apply H2.
Defined.

(** ** What is decoded is a value of Go *)

Lemma ParseInt_int64 (s : string) (i : Z) :
  strconv.ParseInt s 64 = inl i → int64 i.
Proof.
  unfold strconv.ParseInt. destruct (list_ascii_of_string s) as [|c rest]; [done|].
  cbv zeta. destruct (strconv.ParseUint _ 64) as [un|e]; [|done].
  change (2 ^ (64 - 1))%N with (2 ^ 63)%N.
  destruct (Ascii.eqb c "-"); cbn [negb andb].
  - destruct (N.ltb_spec (2 ^ 63) un); [done|]. intros [= <-]. unfold int64.
    change (2 ^ 63)%N with (Z.to_N (2 ^ 63)) in *. lia.
  - destruct (N.leb_spec (2 ^ 63) un); [done|]. intros [= <-]. unfold int64.
    change (2 ^ 63)%N with (Z.to_N (2 ^ 63)) in *. lia.
Qed.

Lemma nextInteger_int64 (d : Decoder) : returns int64 (nextInteger d).
Proof.
  unfold nextInteger. repeat (case_match; try done); cbn [returns].
  all: by eapply ParseInt_int64.
Qed.

Lemma nextString_goString (d : Decoder) :
  goBuffer d → returns (λ s, goString s = true) (nextString d).
Proof.
  intros Hd. unfold nextString. repeat (case_match; try done). cbn [returns].
  match goal with H : slice _ _ _ = Some ?s |- _ =>
    pose proof (slice_Some _ _ _ _ H) as Hb; unfold slice in H end.
  case_decide; [|done]. simplify_eq. unfold goString, goBuffer in *.
  apply Z.ltb_lt. rewrite <- length_list_ascii_of_string.
  rewrite list_ascii_of_string_of_list_ascii, length_take, length_drop. lia.
Qed.

Lemma representable_insert (m : gmap string Value) (k : string) (v : Value) :
  goString k = true → representable v = true → representable (VDict m) = true →
  representable (VDict (<[k:=v]> m)) = true.
Proof.
  rewrite !representable_VDict. intros Hk Hv Hm. by apply map_Forall_insert_2.
Qed.

Section representable.
Context (nl : Decoder → result (list Value)).
Context (nd : Decoder → result (gmap string Value)).
Context (no : Decoder → result Value).
Context (ll : list Value → Decoder → result (list Value)).
Context (dl : gmap string Value → Decoder → result (gmap string Value)).
Hypothesis Hnl : ∀ d, goBuffer d → returns (λ l, representable (VList l) = true) (nl d).
Hypothesis Hnd : ∀ d, goBuffer d → returns (λ m, representable (VDict m) = true) (nd d).
Hypothesis Hno : ∀ d, goBuffer d → returns (λ v, representable v = true) (no d).
Hypothesis Hnoa : ∀ d, advances d (no d).
Hypothesis Hll : ∀ res d, goBuffer d → representable (VList res) = true →
  returns (λ l, representable (VList l) = true) (ll res d).
Hypothesis Hdl : ∀ res d, goBuffer d → representable (VDict res) = true →
  returns (λ m, representable (VDict m) = true) (dl res d).

Lemma nextObjectBody_representable (d : Decoder) :
  goBuffer d → returns (λ v, representable v = true) (nextObjectBody nl nd d).
Proof.
  intros Hd. unfold nextObjectBody. destruct (Consumed d); [done|].
  destruct (stream d !! pos d) as [c|]; [|done].
  repeat case_match.
  - pose proof (nextInteger_int64 d) as Hi. destruct (nextInteger d); try done.
    cbn in *. unfold int64 in Hi. lia.
  - pose proof (Hnl d Hd) as Hl. by destruct (nl d).
  - pose proof (Hnd d Hd) as Hm. by destruct (nd d).
  - pose proof (nextString_goString d Hd) as Hs. by destruct (nextString d).
  - done.
Qed.

Lemma nextListBody_representable (d : Decoder) :
  goBuffer d → returns (λ l, representable (VList l) = true) (nextListBody ll d).
Proof.
  intros Hd. unfold nextListBody. repeat (case_match; try done). by apply Hll.
Qed.

Lemma nextDictBody_representable (d : Decoder) :
  goBuffer d → returns (λ m, representable (VDict m) = true) (nextDictBody dl d).
Proof.
  intros Hd. unfold nextDictBody. repeat (case_match; try done). by apply Hdl.
Qed.

Lemma listLoopBody_representable (res : list Value) (d : Decoder) :
  goBuffer d → representable (VList res) = true →
  returns (λ l, representable (VList l) = true) (listLoopBody no ll res d).
Proof.
  intros Hd Hres. unfold listLoopBody.
  pose proof (Hno d Hd) as Hv. pose proof (Hnoa d) as Ha.
  destruct (no d) as [obj d1|e d1| |]; try done. cbn in Hv, Ha. destruct Ha as [Hs _].
  assert (Hres' : representable (VList (res ++ [obj])) = true).
  { apply representable_VList, Forall_app. split; [by apply representable_VList|].
    by constructor. }
  repeat (case_match; try done). apply Hll; [|done]. unfold goBuffer. by rewrite Hs.
Qed.

Lemma dictLoopBody_representable (res : gmap string Value) (d : Decoder) :
  goBuffer d → representable (VDict res) = true →
  returns (λ m, representable (VDict m) = true) (dictLoopBody no dl res d).
Proof.
  intros Hd Hres. unfold dictLoopBody.
  pose proof (nextString_goString d Hd) as Hk. pose proof (nextString_advances d) as Ha0.
  destruct (nextString d) as [key d0|e d0| |]; try done. cbn in Hk, Ha0.
  destruct Ha0 as [Hs0 _].
  assert (Hd0 : goBuffer d0) by (unfold goBuffer; by rewrite Hs0).
  pose proof (Hno d0 Hd0) as Hv. pose proof (Hnoa d0) as Ha.
  destruct (no d0) as [obj d1|e d1| |]; try done. cbn in Hv, Ha. destruct Ha as [Hs _].
  pose proof (representable_insert res key obj Hk Hv Hres) as Hres'.
  repeat (case_match; try done). apply Hdl; [|done]. unfold goBuffer. by rewrite Hs.
Qed.
End representable.

Lemma fuel_representable (fuel : nat) :
  (∀ d, goBuffer d → returns (λ v, representable v = true) (nextObject fuel d))
  ∧ (∀ res d, goBuffer d → representable (VList res) = true →
       returns (λ l, representable (VList l) = true) (listLoop fuel res d))
  ∧ (∀ res d, goBuffer d → representable (VDict res) = true →
       returns (λ m, representable (VDict m) = true) (dictLoop fuel res d)).
Proof.
  induction fuel as [|fuel (IHo & IHl & IHd)]; [done|].
  split_and!; intros.
  - rewrite nextObject_S. apply nextObjectBody_representable; [| |done]; intros.
    + by apply nextListBody_representable.
    + by apply nextDictBody_representable.
  - rewrite listLoop_S. apply listLoopBody_representable; try done.
    apply nextObject_advances.
  - rewrite dictLoop_S. apply dictLoopBody_representable; try done.
    apply nextObject_advances.
Qed.

(** X20: what [Decode] returns is a value of Go: its integers are [int64]
    and its strings, dictionary keys included, are no longer than the
    buffer; hence it is a value that [Encode] accepts. *)
Theorem Decode_representable (d d' : Decoder) (v : Value) :
  goBuffer d → Decode d = Ret v d' → representable v = true.
Proof.
  intros Hd Hdec. destruct (fuel_representable (fuelFor d)) as (Ho & _).
  specialize (Ho d Hd). unfold Decode in Hdec. by rewrite Hdec in Ho.
Qed.

Lemma Decode_representable_witness :
  representable (VList [VInteger (-3); VString "eggs"]) = true.
Proof.
  apply (Decode_representable (NewDecoder (bytes "li-3e4:eggse"))
           (mkDecoder (bytes "li-3e4:eggse") 12 true)).
  - by vm_compute.
  - vm_compute. reflexivity.
Defined.

(** ** The older [nextInteger] *)

Lemma Legacy_scanInteger_digits (ds suf : list ascii) (idx : nat) :
  Forall (λ c, isDigit c = true) ds →
  Legacy.scanInteger (ds ++ "e"%char :: suf) idx true = ScanAt (idx + length ds).
Proof.
  intros Hall. revert idx. induction Hall as [|c ds Hc Hall IH]; intros idx.
  - simpl. f_equal. lia.
  - cbn [app Legacy.scanInteger length].
    destruct (isDigit_not_special c Hc) as (-> & _).
    rewrite notDigit_isDigit, Hc. cbn [negb andb]. rewrite andb_false_r.
    rewrite IH. destruct (ds ++ _) eqn:Heq.
    + by destruct ds.
    + f_equal. lia.
Qed.

(** X21: the older [nextInteger] reads back what [encodeInteger] writes for
    every [int64] but zero, whose encoding ["i0e"] it rejects for its
    leading zero, leaving the cursor where it was. *)
Theorem Legacy_nextInteger_encode (d : Decoder) (i : Z) (suf : list ascii) :
  int64 i →
  drop (pos d) (stream d) = encodeInteger i ++ suf →
  Legacy.nextInteger d
  = if (i =? 0)%Z then Fail ErrLeadingZeros d
    else Ret i (set_pos d (pos d + length (encodeInteger i))).
Proof.
  intros Hi Hdrop. unfold encodeInteger in *.
  destruct (FormatInt_spec i Hi) as (sign & ds & Heq & Hsign & Hne & Hall & Hhd & Hp).
  rewrite Heq in *. cbn [app] in Hdrop. rewrite <- !app_assoc in Hdrop.
  unfold Legacy.nextInteger. rewrite (drop_cons_lookup _ _ _ _ Hdrop).
  change (Ascii.eqb "i" "i") with true. cbn [negb]. cbv zeta.
  pose proof (drop_cons_drop _ _ _ _ Hdrop) as Hd1. rewrite Hd1.
  pose proof (drop_length_eq _ _ _ _ Hdrop) as Hlen.
  destruct (Z.eqb_spec i 0) as [->|Hnz].
  - assert (Hz : sign ++ ds = ["0"%char]) by (by rewrite <- Heq).
    destruct Hsign as [-> | ->].
    + cbn [app] in *. subst ds. done.
    + cbn [app] in Hz. discriminate Hz.
  - assert (Hscan : Legacy.scanInteger (sign ++ ds ++ ["e"%char] ++ suf) (pos d + 1) false
                    = ScanAt (pos d + 1 + length (sign ++ ds))).
    { rewrite length_app. destruct Hsign as [-> | ->]; cbn [app length].
      - destruct ds as [|c0 ds0] eqn:Hds; [done|].
        assert (Hc0 : isDigit c0 = true) by by inversion Hall.
        assert (Hnz0 : Ascii.eqb c0 "0" = false).
        { destruct (Ascii.eqb_spec c0 "0") as [->|]; [|done].
          rewrite Hhd in Hp by done. vm_compute in Hp. congruence. }
        cbn [app Legacy.scanInteger length].
        destruct (isDigit_not_special c0 Hc0) as (-> & _).
        rewrite Hnz0, notDigit_isDigit, Hc0. cbn [negb andb].
        apply Forall_cons in Hall as [_ Hall].
        rewrite (Legacy_scanInteger_digits ds0 suf (S (pos d + 1)) Hall).
        destruct (ds0 ++ _) eqn:Heq0; [by destruct ds0|]. f_equal. lia.
      - cbn [Legacy.scanInteger].
        change (Ascii.eqb "-" "e") with false. change (Ascii.eqb "-" "0") with false.
        change (Ascii.eqb "-" "-") with true. cbn [negb andb]. rewrite andb_false_r.
        rewrite (Legacy_scanInteger_digits ds suf (S (pos d + 1)) Hall).
        destruct (ds ++ _) eqn:Heq0; [by destruct ds|]. f_equal. lia. }
    rewrite Hscan.
    rewrite (slice_drop _ _ (sign ++ ds) ("e"%char :: suf)).
    + rewrite Hp. unfold set_pos. cbn [length]. rewrite !length_app. cbn [length].
      do 2 f_equal. lia.
    + rewrite Hd1. by rewrite <- app_assoc.
    + lia.
Qed.

Lemma Legacy_nextInteger_encode_witness :
  Legacy.nextInteger (NewDecoder (bytes "i-42e"))
  = Ret (-42)%Z (mkDecoder (bytes "i-42e") 5 false)
  ∧ Legacy.nextInteger (NewDecoder (bytes "i0e"))
    = Fail ErrLeadingZeros (NewDecoder (bytes "i0e")).
Proof.
  split.
  - apply (Legacy_nextInteger_encode (NewDecoder (bytes "i-42e")) (-42) []);
      [unfold int64; lia|done].
  - apply (Legacy_nextInteger_encode (NewDecoder (bytes "i0e")) 0 []);
      [unfold int64; lia|done].
Defined.

(** ** Metainfo files *)

(** [Decode] on a buffer that starts with bytes that [nextObject] reads
    back. *)
Lemma Decode_readsBack (enc : Value → list ascii) (v : Value) (rest : list ascii) :
  readsBack enc v →
  let s := enc v ++ rest in
  Decode (NewDecoder s) = Ret v (mkDecoder s (length (enc v)) (bool_decide (rest = []))).
Proof.
  intros [_ Hdec] s. subst s.
  destruct (Hdec (NewDecoder (enc v ++ rest)) rest) as [fuel Hf]; [done|done|].
  apply (Decode_nextObject fuel); [|done]. rewrite Hf. f_equal.
  unfold markConsumed, set_pos, set_Consumed, NewDecoder. cbn [stream pos Consumed].
  rewrite length_app. destruct rest as [|c rest]; cbn [length].
  - rewrite bool_decide_eq_true_2 by done.
    destruct (Nat.leb_spec (length (enc v) + 0) (0 + length (enc v))); [done|lia].
  - rewrite bool_decide_eq_false_2 by done.
    destruct (Nat.leb_spec (length (enc v) + S (length rest)) (0 + length (enc v)));
      [lia|done].
Qed.

(** The bytes of an entry of a dictionary stand in the encoding of the
    dictionary, the value right after the key. *)
Lemma encodeDict_entry (m : gmap string Value) (k : string) (v : Value) :
  m !! k = Some v →
  ∃ pre post, encodeDict m = pre ++ encodeString k ++ encodeObject v ++ post.
Proof.
  intros Hk. rewrite encodeDict_eq.
  assert (Hsz : size m ≠ 0).
  { apply map_size_non_empty_iff. intros ->. by rewrite lookup_empty in Hk. }
  destruct (size m) as [|n]; [done|]. cbn [Nat.leb].
  assert (Hin : k ∈ sortStrings (rangeKeys m)).
  { unfold sortStrings. rewrite merge_sort_Permutation. unfold rangeKeys.
    apply list_elem_of_fmap. exists (k, v). split; [done|]. by apply elem_of_map_to_list. }
  apply list_elem_of_split in Hin as (ks1 & ks2 & ->).
  rewrite fmap_app, concat_app. cbn [fmap list_fmap concat].
  unfold encodeEntry at 2. rewrite Hk. cbn [fmap option_fmap option_map default].
  exists ("d"%char :: concat (encodeEntry m <$> ks1)),
    (concat (encodeEntry m <$> ks2) ++ ["e"%char]).
  cbn [app]. by rewrite <- !app_assoc.
Qed.

(** X22: for a file that holds the encoding of a dictionary of Go without
    an empty part whose key ["info"] is bound to a dictionary,
    [ReadFromFile] returns no error and keeps the bytes and the dictionary,
    and [InfoHash] then returns the digest of the encoding of the info
    dictionary; these are the bytes that stand in the file right after the
    key ["4:info"]. *)
Theorem InfoHash_ReadFromFile (sha1 : list ascii → list ascii)
    (fs : gmap string (list ascii)) (filename : string) (mi : MetaInfo)
    (m info : gmap string Value) :
  representable (VDict m) = true → noEmpty (VDict m) = true →
  fs !! filename = Some (Encode (VDict m)) →
  m !! "info"%string = Some (VDict info) →
  let mi' := mkMetaInfo (Encode (VDict m)) m in
  ReadFromFile fs filename mi = Returned None mi'
  ∧ InfoHash sha1 mi' = Returned (sha1 (Encode (VDict info))) mi'
  ∧ ∃ pre post, raw mi' = pre ++ bytes "4:info" ++ Encode (VDict info) ++ post.
Proof.
  intros Hrep Hne Hfs Hinfo mi'. subst mi'. split_and!.
  - unfold ReadFromFile. rewrite Hfs. cbv zeta.
    pose proof (Decode_readsBack encodeObject (VDict m) []
                  (readsBack_encodeObject _ Hrep Hne)) as Hd.
    cbv zeta in Hd. rewrite app_nil_r, <- !Encode_encodeObject in Hd. by rewrite Hd.
  - unfold InfoHash. cbn [parsed]. by rewrite Hinfo.
  - cbn [raw]. rewrite !Encode_encodeObject, encodeObject_VDict.
    apply (encodeDict_entry m "info"). done.
Qed.

Lemma InfoHash_ReadFromFile_witness :
  let info : gmap string Value := {[ "length"%string := VInteger 7 ]} in
  let m : gmap string Value :=
    {[ "announce"%string := VString "x"; "info"%string := VDict info ]} in
  let torrent := bytes "d8:announce1:x4:infod6:lengthi7eee" in
  let mi' := mkMetaInfo torrent m in
  Encode (VDict m) = torrent
  ∧ ReadFromFile {[ "a.torrent"%string := torrent ]} "a.torrent" newMetaInfo
    = Returned None mi'
  ∧ InfoHash id mi' = Returned (bytes "d6:lengthi7ee") mi'.
Proof.
  intros info m torrent mi'.
  assert (He : Encode (VDict m) = torrent) by (vm_compute; reflexivity).
  split; [exact He|].
  destruct (InfoHash_ReadFromFile id {[ "a.torrent"%string := torrent ]} "a.torrent"
              newMetaInfo m info) as (H1 & H2 & _).
  - vm_compute. reflexivity.
  - vm_compute. reflexivity.
  - rewrite He. apply lookup_singleton_eq.
  - vm_compute. reflexivity.
  - rewrite He in H1, H2. split; [exact H1|]. exact H2.
Defined.

(** X23: the two type assertions of [metainfo.go] are not guarded. For a
    file that holds a value of Go written in full that is not a
    dictionary, [ReadFromFile] panics instead of returning an error; and
    [InfoHash] panics when the key ["info"] is missing or bound to a value
    that is not a dictionary, as it is in a [MetaInfo] that has read no
    file. *)
Theorem MetaInfo_assertions_panic (sha1 : list ascii → list ascii)
    (fs : gmap string (list ascii)) (filename : string) (mi : MetaInfo)
    (v : Value) (rest : list ascii) :
  representable v = true →
  (∀ m, v ≠ VDict m) →
  fs !! filename = Some (Legacy.Encode v ++ rest) →
  ReadFromFile fs filename mi = Panicked
  ∧ (parsed mi !! "info"%string = None ∨ parsed mi !! "info"%string = Some v →
     InfoHash sha1 mi = Panicked)
  ∧ InfoHash sha1 newMetaInfo = Panicked.
Proof.
  intros Hrep Hnd Hfs. split_and!.
  - unfold ReadFromFile. rewrite Hfs. cbv zeta.
    pose proof (Decode_readsBack Legacy.encodeObject v rest (readsBack_Legacy v Hrep)) as Hd.
    cbv zeta in Hd. unfold Legacy.Encode. rewrite Hd.
    destruct v as [i|s|l|m]; try done. by destruct (Hnd m).
  - unfold InfoHash. intros [-> | ->]; [done|].
    destruct v as [i|s|l|m]; try done. by destruct (Hnd m).
  - done.
Qed.

Lemma MetaInfo_assertions_panic_witness :
  ReadFromFile {[ "a.torrent"%string := bytes "i1e" ]} "a.torrent" newMetaInfo = Panicked
  ∧ InfoHash id newMetaInfo = Panicked.
Proof.
  destruct (MetaInfo_assertions_panic id {[ "a.torrent"%string := bytes "i1e" ]}
              "a.torrent" newMetaInfo (VInteger 1) []) as (H1 & _ & H3).
  - done.
  - done.
  - apply lookup_singleton_eq.
  - split; [exact H1|exact H3].
Defined.

(** ** Tests that never fire *)

Lemma scanInteger_liveError (rest : list ascii) (idx : nat) (e : error) :
  scanInteger rest idx = ScanFail e → liveError e.
Proof.
  revert idx. induction rest as [|c rest IH]; intros idx; [done|].
  cbn [scanInteger]. repeat case_match; try done.
  - by intros [= <-].
  - by intros [= <-].
  - apply IH.
Qed.

Lemma scanLength_liveError (rest : list ascii) (idx : nat) (e : error) :
  scanLength rest idx = ScanFail e → liveError e.
Proof.
  revert idx. induction rest as [|c rest IH]; intros idx; [done|].
  cbn [scanLength]. repeat case_match; try done.
  - by intros [= <-].
  - apply IH.
Qed.

Lemma nextInteger_liveError (d : Decoder) :
  stream d !! pos d = Some "i"%char → fails liveError (nextInteger d).
Proof.
  intros Hi. unfold nextInteger. rewrite Hi. change (Ascii.eqb "i" "i") with true.
  cbn [negb]. cbv zeta.
  repeat (case_match; try done); cbn [fails].
  all: by eapply scanInteger_liveError.
Qed.

Lemma nextString_liveError (d : Decoder) : fails liveError (nextString d).
Proof.
  unfold nextString. repeat (case_match; try done); cbn [fails].
  by eapply scanLength_liveError.
Qed.

Section live.
Context (no : Decoder → result Value).
Context (ll : list Value → Decoder → result (list Value)).
Context (dl : gmap string Value → Decoder → result (gmap string Value)).
Hypothesis Hno : ∀ d, Consumed d = false → fails liveError (no d).
Hypothesis Hnof : ∀ d, flagExact d (no d).
Hypothesis Hll : ∀ res d, Consumed d = false → fails liveError (ll res d).
Hypothesis Hdl : ∀ res d, Consumed d = false → fails liveError (dl res d).

Lemma nextObjectBody_liveError (d : Decoder) :
  Consumed d = false →
  fails liveError (nextObjectBody (nextListBody ll) (nextDictBody dl) d).
Proof.
  intros Hc. unfold nextObjectBody. rewrite Hc.
  destruct (stream d !! pos d) as [c|] eqn:Hl; [|done].
  destruct (Ascii.eqb_spec c "i") as [->|_].
  { pose proof (nextInteger_liveError d Hl) as H. by destruct (nextInteger d). }
  destruct (Ascii.eqb_spec c "l") as [->|_].
  { unfold nextListBody. rewrite Hl. change (Ascii.eqb "l" "l") with true.
    cbn [negb]. cbv zeta. repeat (case_match; try done).
    match goal with |- context [ll ?r ?d0] =>
      pose proof (Hll r d0 Hc) as Hlive; by destruct (ll r d0) end. }
  destruct (Ascii.eqb_spec c "d") as [->|_].
  { unfold nextDictBody. rewrite Hl. change (Ascii.eqb "d" "d") with true.
    cbn [negb]. cbv zeta. repeat (case_match; try done).
    match goal with |- context [dl ?r ?d0] =>
      pose proof (Hdl r d0 Hc) as Hlive; by destruct (dl r d0) end. }
  destruct (isDigit c).
  { pose proof (nextString_liveError d) as H. by destruct (nextString d). }
  done.
Qed.

Lemma listLoopBody_liveError (res : list Value) (d : Decoder) :
  Consumed d = false → fails liveError (listLoopBody no ll res d).
Proof.
  intros Hc. unfold listLoopBody. pose proof (Hno d Hc) as He. pose proof (Hnof d) as Hf.
  destruct (no d) as [obj d1|e d1| |]; try done. destruct Hf as [_ Hf].
  destruct (length (stream d1) <=? pos d1) eqn:Hlen; [done|].
  destruct (stream d1 !! pos d1) as [c|]; [|done].
  destruct (Ascii.eqb c "e"); [done|]. apply Hll. congruence.
Qed.

Lemma dictLoopBody_liveError (res : gmap string Value) (d : Decoder) :
  Consumed d = false → fails liveError (dictLoopBody no dl res d).
Proof.
  intros Hc. unfold dictLoopBody.
  pose proof (nextString_liveError d) as Hs. pose proof (nextString_flagKept d) as Hk.
  destruct (nextString d) as [key d0|e d0| |]; try done. cbn in Hk.
  assert (Hc0 : Consumed d0 = false) by congruence.
  pose proof (Hno d0 Hc0) as He. pose proof (Hnof d0) as Hf.
  destruct (no d0) as [obj d1|e d1| |]; try done. destruct Hf as [_ Hf].
  destruct (length (stream d1) <=? pos d1) eqn:Hlen; [done|].
  destruct (stream d1 !! pos d1) as [c|]; [|done].
  destruct (Ascii.eqb c "e"); [done|]. apply Hdl. congruence.
Qed.
End live.

Lemma fuel_liveError (fuel : nat) :
  (∀ d, Consumed d = false → fails liveError (nextObject fuel d))
  ∧ (∀ res d, Consumed d = false → fails liveError (listLoop fuel res d))
  ∧ (∀ res d, Consumed d = false → fails liveError (dictLoop fuel res d)).
Proof.
  induction fuel as [|fuel (IHo & IHl & IHd)]; [done|].
  pose proof (fuel_flag fuel) as (Hfo & _).
  split_and!; intros.
  - rewrite nextObject_S. by apply nextObjectBody_liveError.
  - rewrite listLoop_S. by apply listLoopBody_liveError.
  - rewrite dictLoop_S. by apply dictLoopBody_liveError.
Qed.

(** X26: the tests at the head of [nextInteger], [nextList] and [nextDict]
    never fire when the decoder is used through [Decode]: [nextObject] calls
    each of them on the byte it tests for, so [Decode] never fails with the
    errors ["No starting 'i' found"], ["This is not a list!"] or ["This is
    not a dict!"]; on a consumed decoder its error is [ErrorConsumed]. *)
Theorem Decode_head_tests_never_fire (d d' : Decoder) (e : error) :
  Decode d = Fail e d' →
  e ≠ ErrNoStartingI ∧ e ≠ ErrNotAList ∧ e ≠ ErrNotADict
  ∧ (Consumed d = true → e = ErrorConsumed).
Proof.
  intros Hd. destruct (Consumed d) eqn:Hc.
  - unfold Decode, fuelFor in Hd. rewrite nextObject_S in Hd. unfold nextObjectBody in Hd.
    rewrite Hc in Hd. injection Hd as <- _. done.
  - destruct (fuel_liveError (fuelFor d)) as (Ho & _). specialize (Ho d Hc).
    unfold Decode in Hd. rewrite Hd in Ho. destruct Ho as (H1 & H2 & H3). done.
Qed.

Lemma Decode_head_tests_never_fire_witness :
  ErrCouldntParse 0 "x" ≠ ErrNoStartingI ∧ ErrCouldntParse 0 "x" ≠ ErrNotAList
  ∧ ErrCouldntParse 0 "x" ≠ ErrNotADict
  ∧ (Consumed (NewDecoder (bytes "x")) = true → ErrCouldntParse 0 "x" = ErrorConsumed).
Proof.
  apply (Decode_head_tests_never_fire (NewDecoder (bytes "x")) (NewDecoder (bytes "x"))).
  vm_compute. reflexivity.
Defined.

(** ** A successful [Decode] reads no further than its object *)

Lemma scanInteger_app (rest r : list ascii) (idx k : nat) :
  scanInteger rest idx = ScanAt k → scanInteger (rest ++ r) idx = ScanAt k.
Proof.
  revert idx. induction rest as [|c rest IH]; intros idx; [done|].
  cbn [app scanInteger]. destruct (Ascii.eqb c "e"); [done|].
  destruct (notDigit c); [done|].
  destruct rest as [|c' rest']; [done|]. intros Hs. by apply IH.
Qed.

Lemma scanLength_app (rest r : list ascii) (idx k : nat) :
  scanLength rest idx = ScanAt k → scanLength (rest ++ r) idx = ScanAt k.
Proof.
  revert idx. induction rest as [|c rest IH]; intros idx; [done|].
  cbn [app scanLength]. destruct (Ascii.eqb c ":"); [done|].
  destruct rest as [|c' rest']; [done|]. intros Hs. by apply IH.
Qed.

Lemma slice_app (s r : list ascii) (lo hi : nat) (x : list ascii) :
  slice s lo hi = Some x → slice (s ++ r) lo hi = Some x.
Proof.
  unfold slice. intros Hs. case_decide as Hb; [|done]. injection Hs as <-.
  rewrite decide_True by (rewrite length_app; lia). f_equal.
  rewrite drop_app_le by lia. rewrite take_app_le; [done|]. rewrite length_drop. lia.
Qed.

Lemma lookup_extend (d : Decoder) (r : list ascii) (c : ascii) :
  stream d !! pos d = Some c → stream (extend d r) !! pos (extend d r) = Some c.
Proof. intros H. cbn [extend stream pos]. by apply lookup_app_l_Some. Qed.

Lemma nextInteger_extends (r : list ascii) (d : Decoder) : extends r nextInteger d.
Proof.
  unfold extends, nextInteger.
  destruct (stream d !! pos d) as [c|] eqn:Hl; [|done].
  cbn [extend stream pos]. rewrite (lookup_app_l_Some _ _ _ _ Hl).
  destruct (negb (Ascii.eqb c "i")); [done|]. cbv zeta. cbn [extend set_pos stream pos].
  destruct (stream d !! (pos d + 1)) as [c1|] eqn:Hl1; [|done].
  rewrite (lookup_app_l_Some _ _ _ _ Hl1).
  pose proof (lookup_lt_Some _ _ _ Hl1) as Hlt.
  set (idx := if Ascii.eqb c1 "-" then pos d + 1 + 1 else pos d + 1).
  assert (Hidx : idx ≤ length (stream d)) by (subst idx; destruct (Ascii.eqb c1 "-"); lia).
  rewrite (drop_app_le _ _ _ Hidx).
  destruct (scanInteger (drop idx (stream d)) idx) as [k| |] eqn:Hscan; try done.
  rewrite (scanInteger_app _ r _ _ Hscan).
  destruct (idx =? k); [done|].
  destruct (stream d !! idx) as [c0|] eqn:Hl0; [|done].
  rewrite (lookup_app_l_Some _ _ _ _ Hl0).
  destruct (Ascii.eqb c0 "0" && (1 <? k - idx)); [done|].
  destruct (slice (stream d) (pos d + 1) k) as [x|] eqn:Hsl; [|done].
  rewrite (slice_app _ r _ _ _ Hsl).
  by destruct (strconv.ParseInt (string_of_list_ascii x) 64).
Qed.

Lemma nextString_extends (r : list ascii) (d : Decoder) : extends r nextString d.
Proof.
  unfold extends, nextString.
  destruct (stream d !! pos d) as [c|] eqn:Hl; [|done].
  cbn [extend stream pos]. rewrite (lookup_app_l_Some _ _ _ _ Hl).
  destruct (notDigit c); [done|]. cbv zeta.
  pose proof (lookup_lt_Some _ _ _ Hl) as Hlt.
  rewrite (drop_app_le _ r (pos d)) by lia.
  destruct (scanLength (drop (pos d) (stream d)) (pos d)) as [k| |] eqn:Hscan; try done.
  rewrite (scanLength_app _ r _ _ Hscan).
  destruct (slice (stream d) (pos d) k) as [x|] eqn:Hsl; [|done].
  rewrite (slice_app _ r _ _ _ Hsl).
  destruct (strconv.Atoi (string_of_list_ascii x)) as [l|e]; [|done].
  pose proof (slice_Some _ _ _ _ Hsl) as Hk.
  rewrite (drop_app_le _ r k) by lia. rewrite length_app.
  destruct (Z.leb_spec (Z.of_nat (length (drop k (stream d)))) l) as [|Hlen]; [done|].
  destruct (Z.leb_spec (Z.of_nat (length (drop k (stream d)) + length r)) l); [lia|].
  destruct (l <? 0)%Z; [done|]. cbn [set_pos stream pos].
  destruct (slice (stream d) (k + 1) (k + 1 + Z.to_nat l)) as [y|] eqn:Hsl2; [|done].
  by rewrite (slice_app _ r _ _ _ Hsl2).
Qed.

Lemma markConsumed_extend (d0 : Decoder) (r : list ascii) :
  Consumed d0 = false → pos d0 ≤ length (stream d0) →
  markConsumed (extend d0 r)
  = mkDecoder (stream d0 ++ r) (pos d0)
      (Consumed (markConsumed d0) && bool_decide (r = [])).
Proof.
  intros Hc Hp. unfold markConsumed, extend. cbn [stream pos Consumed set_Consumed].
  rewrite length_app, Hc.
  destruct (Nat.leb_spec (length (stream d0)) (pos d0)) as [H1|H1];
    destruct (Nat.leb_spec (length (stream d0) + length r) (pos d0)) as [H2|H2];
    cbn [Consumed set_Consumed andb].
  - rewrite bool_decide_eq_true_2; [done|]. destruct r; [done|cbn in H2; lia].
  - rewrite bool_decide_eq_false_2; [done|]. intros ->. cbn in H2. lia.
  - lia.
  - by rewrite Hc.
Qed.

Section extends.
Context (r : list ascii).
Context (no : Decoder → result Value).
Context (ll : list Value → Decoder → result (list Value)).
Context (dl : gmap string Value → Decoder → result (gmap string Value)).
Hypothesis Hno : ∀ d v d', Consumed d = false → no d = Ret v d' →
  pos d' < length (stream d') → no (extend d r) = Ret v (extend d' r).
Hypothesis Hnof : ∀ d, flagExact d (no d).
Hypothesis Hll : ∀ res d, Consumed d = false → extends r (ll res) d.
Hypothesis Hdl : ∀ res d, Consumed d = false → extends r (dl res) d.

Lemma nextListBody_extends (d : Decoder) :
  Consumed d = false → extends r (nextListBody ll) d.
Proof.
  intros Hc. unfold extends, nextListBody.
  destruct (stream d !! pos d) as [c|] eqn:Hl; [|done].
  cbn [extend stream pos]. rewrite (lookup_app_l_Some _ _ _ _ Hl).
  destruct (negb (Ascii.eqb c "l")); [done|]. cbv zeta. cbn [extend set_pos stream pos].
  destruct (stream d !! (pos d + 1)) as [c1|] eqn:Hl1; [|done].
  rewrite (lookup_app_l_Some _ _ _ _ Hl1).
  destruct (Ascii.eqb c1 "e"); [done|].
  exact (Hll [] (mkDecoder (stream d) (pos d + 1) (Consumed d)) Hc).
Qed.

Lemma nextDictBody_extends (d : Decoder) :
  Consumed d = false → extends r (nextDictBody dl) d.
Proof.
  intros Hc. unfold extends, nextDictBody.
  destruct (stream d !! pos d) as [c|] eqn:Hl; [|done].
  cbn [extend stream pos]. rewrite (lookup_app_l_Some _ _ _ _ Hl).
  destruct (negb (Ascii.eqb c "d")); [done|]. cbv zeta. cbn [extend set_pos stream pos].
  destruct (stream d !! (pos d + 1)) as [c1|] eqn:Hl1; [|done].
  rewrite (lookup_app_l_Some _ _ _ _ Hl1).
  destruct (Ascii.eqb c1 "e"); [done|].
  exact (Hdl ∅ (mkDecoder (stream d) (pos d + 1) (Consumed d)) Hc).
Qed.

Lemma listLoopBody_extends (res : list Value) (d : Decoder) :
  Consumed d = false → extends r (listLoopBody no ll res) d.
Proof.
  intros Hc. unfold extends, listLoopBody.
  pose proof (Hnof d) as Hf.
  destruct (no d) as [obj d1|e d1| |] eqn:Ho; try done. destruct Hf as [_ Hf].
  destruct (Nat.leb_spec (length (stream d1)) (pos d1)) as [|Hlt]; [done|].
  rewrite (Hno d obj d1 Hc Ho Hlt). cbn [extend stream pos]. rewrite length_app.
  destruct (Nat.leb_spec (length (stream d1) + length r) (pos d1)); [lia|].
  destruct (stream d1 !! pos d1) as [c|] eqn:Hl; [|done].
  rewrite (lookup_app_l_Some _ _ _ _ Hl).
  destruct (Ascii.eqb c "e"); [done|].
  by apply (Hll (res ++ [obj]) d1).
Qed.

Lemma dictLoopBody_extends (res : gmap string Value) (d : Decoder) :
  Consumed d = false → extends r (dictLoopBody no dl res) d.
Proof.
  intros Hc. unfold extends, dictLoopBody.
  pose proof (nextString_extends r d) as Hs. unfold extends in Hs.
  pose proof (nextString_flagKept d) as Hk.
  destruct (nextString d) as [key d0|e d0| |] eqn:Hkey; try done. rewrite Hs.
  cbn in Hk. assert (Hc0 : Consumed d0 = false) by congruence.
  pose proof (Hnof d0) as Hf.
  destruct (no d0) as [obj d1|e d1| |] eqn:Ho; try done. destruct Hf as [_ Hf].
  destruct (Nat.leb_spec (length (stream d1)) (pos d1)) as [|Hlt]; [done|].
  rewrite (Hno d0 obj d1 Hc0 Ho Hlt). cbn [extend stream pos]. rewrite length_app.
  destruct (Nat.leb_spec (length (stream d1) + length r) (pos d1)); [lia|].
  destruct (stream d1 !! pos d1) as [c|] eqn:Hl; [|done].
  rewrite (lookup_app_l_Some _ _ _ _ Hl).
  destruct (Ascii.eqb c "e"); [done|].
  by apply (Hdl (<[key:=obj]> res) d1).
Qed.
End extends.

Lemma finish_extends {A : Type} (f : A → Value) (g : Decoder → result A)
    (r : list ascii) (d d' : Decoder) (v : Value) :
  Consumed d = false → extends r g d → flagKept d (g d) → advances d (g d) →
  finish (result_map f (g d)) = Ret v d' →
  finish (result_map f (g (extend d r)))
  = Ret v (mkDecoder (stream d' ++ r) (pos d') (Consumed d' && bool_decide (r = []))).
Proof.
  intros Hc He Hk Ha. unfold extends in He.
  destruct (g d) as [a d0|e d0| |]; try done.
  cbn [result_map finish]. intros [= <- <-]. rewrite He. cbn [result_map finish].
  cbn in Hk, Ha. destruct Ha as [Hs Hp].
  rewrite markConsumed_extend by (rewrite ?Hs; (congruence || lia)).
  f_equal. unfold markConsumed. by case_match.
Qed.

Lemma fuel_extends (r : list ascii) (fuel : nat) :
  (∀ d v d', Consumed d = false → nextObject fuel d = Ret v d' →
     nextObject fuel (extend d r)
     = Ret v (mkDecoder (stream d' ++ r) (pos d') (Consumed d' && bool_decide (r = []))))
  ∧ (∀ res d, Consumed d = false → extends r (listLoop fuel res) d)
  ∧ (∀ res d, Consumed d = false → extends r (dictLoop fuel res) d).
Proof.
  induction fuel as [|fuel (IHo & IHl & IHd)]; [done|].
  pose proof (fuel_flag fuel) as (Hfo & Hfl & Hfd).
  pose proof (fuel_advances fuel) as (Hao & Hal & Had).
  assert (Hno : ∀ d v d', Consumed d = false → nextObject fuel d = Ret v d' →
            pos d' < length (stream d') →
            nextObject fuel (extend d r) = Ret v (extend d' r)).
  { intros d v d' Hc Ho Hlt. rewrite (IHo d v d' Hc Ho). f_equal.
    pose proof (Hfo d) as Hf. rewrite Ho in Hf. destruct Hf as [_ Hf].
    unfold extend. f_equal. rewrite Hf.
    by destruct (Nat.leb_spec (length (stream d')) (pos d')); [lia|]. }
  split_and!.
  - intros d v d' Hc. rewrite !nextObject_S. unfold nextObjectBody.
    rewrite Hc. change (Consumed (extend d r)) with (Consumed d). rewrite Hc.
    destruct (stream d !! pos d) as [c|] eqn:Hl; [|done].
    rewrite (lookup_extend d r c Hl). change (pos (extend d r)) with (pos d).
    destruct (Ascii.eqb c "i").
    { apply finish_extends; [done|apply nextInteger_extends|apply nextInteger_flagKept
                             |apply nextInteger_advances]. }
    destruct (Ascii.eqb c "l").
    { apply (finish_extends VList (nextListBody (listLoop fuel))); [done| | |].
      - by apply nextListBody_extends.
      - by apply nextListBody_flagKept.
      - by apply nextListBody_advances. }
    destruct (Ascii.eqb c "d").
    { apply (finish_extends VDict (nextDictBody (dictLoop fuel))); [done| | |].
      - by apply nextDictBody_extends.
      - by apply nextDictBody_flagKept.
      - by apply nextDictBody_advances. }
    destruct (isDigit c); [|done].
    apply finish_extends; [done|apply nextString_extends|apply nextString_flagKept
                           |apply nextString_advances].
  - intros res d Hc. unfold extends. rewrite !listLoop_S.
    by apply listLoopBody_extends.
  - intros res d Hc. unfold extends. rewrite !dictLoop_S.
    by apply dictLoopBody_extends.
Qed.

(** X27: a successful [Decode] reads no further than its object: on the
    same buffer followed by any bytes [r] it returns the same value and
    leaves the cursor at the same place; [Consumed] is then set only if it
    was and [r] is empty. *)
Theorem Decode_local (d d' : Decoder) (v : Value) (r : list ascii) :
  Decode d = Ret v d' →
  Decode (mkDecoder (stream d ++ r) (pos d) false)
  = Ret v (mkDecoder (stream d ++ r) (pos d') (Consumed d' && bool_decide (r = []))).
Proof.
  intros Hd.
  assert (Hc : Consumed d = false).
  { pose proof (fuel_flag (fuelFor d)) as (Hf & _). specialize (Hf d).
    unfold Decode in Hd. rewrite Hd in Hf. by destruct Hf. }
  pose proof (nextObject_advances (fuelFor d) d) as Ha. unfold Decode in Hd.
  rewrite Hd in Ha. destruct Ha as [Hs _].
  destruct (fuel_extends r (fuelFor d)) as (Ho & _).
  specialize (Ho d v d' Hc Hd). unfold extend in Ho. rewrite Hc, Hs in Ho.
  by apply (Decode_nextObject (fuelFor d)).
Qed.

Lemma Decode_local_witness :
  Decode (NewDecoder (bytes "li1ee" ++ bytes "4:spam"))
  = Ret (VList [VInteger 1]) (mkDecoder (bytes "li1ee" ++ bytes "4:spam") 5 false).
Proof.
  apply (Decode_local (NewDecoder (bytes "li1ee")) (mkDecoder (bytes "li1ee") 5 true)
           (VList [VInteger 1]) (bytes "4:spam")).
  vm_compute. reflexivity.
Defined.

(** ** Every run of the older encoder *)

Lemma listLoop_reads (vbs : list (Value * list ascii)) :
  Forall (λ vb, reads vb.2 vb.1) vbs →
  ∀ vb res d suf,
    reads vb.2 vb.1 →
    Consumed d = false →
    drop (pos d) (stream d) = concat ((vb :: vbs).*2) ++ "e"%char :: suf →
    ∃ fuel, listLoop fuel res d
            = Ret (res ++ (vb :: vbs).*1)
                  (set_pos d (pos d + length (concat ((vb :: vbs).*2)) + 1)).
Proof.
  induction 1 as [|vb' vbs Hv' Hall IH]; intros [v b] res d suf [_ Hdec] Hc Hdrop;
    cbn [fst snd] in *.
  - cbn [fmap list_fmap concat fst snd] in *. rewrite app_nil_r in *.
    destruct (Hdec d ("e"%char :: suf) Hc Hdrop) as [fuel Hf].
    exists (S fuel). rewrite listLoop_S. unfold listLoopBody. rewrite Hf.
    pose proof (drop_app_drop _ _ _ _ Hdrop) as Hd1.
    pose proof (drop_length_eq _ _ _ _ Hd1) as Hlen.
    rewrite markConsumed_lt by (cbn [stream pos set_pos]; lia).
    cbn [stream pos set_pos].
    destruct (Nat.leb_spec (length (stream d)) (pos d + length b)); [lia|].
    rewrite (drop_cons_lookup _ _ _ _ Hd1). change (Ascii.eqb "e" "e") with true.
    cbn match. done.
  - cbn [fmap list_fmap concat fst snd] in Hdrop. rewrite <- app_assoc in Hdrop.
    destruct (Hdec d _ Hc Hdrop) as [fuel1 Hf1].
    pose proof (drop_app_drop _ _ _ _ Hdrop) as Hd1.
    pose proof Hv' as [(c & r & Heq & Hce) _].
    assert (Hd1' : drop (pos d + length b) (stream d)
                   = c :: r ++ concat (vbs.*2) ++ "e"%char :: suf).
    { rewrite Hd1, Heq. by rewrite <- !app_assoc. }
    pose proof (drop_length_eq _ _ _ _ Hd1') as Hlen.
    destruct (IH vb' (res ++ [v]) (set_pos d (pos d + length b)) suf) as [fuel2 Hf2];
      [done|done| |].
    { cbn [stream pos set_pos]. rewrite Hd1. done. }
    exists (S (fuel1 `max` fuel2)). rewrite listLoop_S. unfold listLoopBody.
    rewrite (nextObject_fuel_ge fuel1 _ d _ Hf1) by (done || lia).
    rewrite markConsumed_lt by (cbn [stream pos set_pos]; lia).
    cbn [stream pos set_pos] in *.
    destruct (Nat.leb_spec (length (stream d)) (pos d + length b)); [lia|].
    rewrite (drop_cons_lookup _ _ _ _ Hd1'). rewrite Hce.
    rewrite (listLoop_fuel_ge fuel2 _ _ _ _ Hf2) by (done || lia).
    rewrite <- app_assoc. cbn [app fmap list_fmap concat fst snd]. rewrite !length_app.
    unfold set_pos. cbn [stream pos Consumed]. do 2 f_equal. lia.
Qed.

Lemma nextObject_list_reads (vbs : list (Value * list ascii)) (d : Decoder)
    (suf : list ascii) :
  Forall (λ vb, reads vb.2 vb.1) vbs →
  Consumed d = false →
  drop (pos d) (stream d) = "l"%char :: concat (vbs.*2) ++ "e"%char :: suf →
  ∃ fuel, nextObject fuel d
          = Ret (VList (vbs.*1))
                (markConsumed (set_pos d (pos d + (length (concat (vbs.*2)) + 2)))).
Proof.
  intros Hall Hc Hdrop.
  pose proof (drop_cons_drop _ _ _ _ Hdrop) as Hd1.
  assert (Hhead : ∀ fuel, nextObject (S fuel) d
    = finish (result_map VList (nextListBody (listLoop fuel) d))).
  { intros fuel. rewrite nextObject_S. unfold nextObjectBody. rewrite Hc.
    rewrite (drop_cons_lookup _ _ _ _ Hdrop).
    change (Ascii.eqb "l" "i") with false. change (Ascii.eqb "l" "l") with true. done. }
  destruct vbs as [|vb vbs].
  - exists 1. rewrite Hhead. unfold nextListBody.
    rewrite (drop_cons_lookup _ _ _ _ Hdrop).
    change (Ascii.eqb "l" "l") with true. cbn [negb]. cbn match. cbn [stream pos set_pos].
    cbn [fmap list_fmap concat app] in Hd1.
    rewrite (drop_cons_lookup _ _ _ _ Hd1). change (Ascii.eqb "e" "e") with true.
    cbn [result_map finish fmap list_fmap concat length].
    do 2 f_equal. unfold set_pos. cbn [stream pos Consumed]. f_equal. lia.
  - apply Forall_cons in Hall as [Hv Hall].
    destruct (listLoop_reads vbs Hall vb [] (set_pos d (pos d + 1)) suf Hv Hc Hd1)
      as [fuel Hf].
    destruct Hv as [(c & r & Heq & Hce) _].
    exists (S fuel). rewrite Hhead. unfold nextListBody.
    rewrite (drop_cons_lookup _ _ _ _ Hdrop).
    change (Ascii.eqb "l" "l") with true. cbn [negb]. cbn match. cbn [stream pos set_pos].
    assert (Hl1 : stream d !! (pos d + 1) = Some c).
    { eapply drop_cons_lookup. rewrite Hd1. cbn [fmap list_fmap concat]. rewrite Heq.
      cbn [app]. done. }
    rewrite Hl1, Hce. cbn [stream pos set_pos] in Hf. rewrite Hf.
    cbn [result_map finish app].
    do 2 f_equal. unfold set_pos. cbn [stream pos Consumed]. f_equal. lia.
Qed.

Lemma dictLoop_reads (its : list (string * Value * list ascii)) :
  Forall (λ it, goString it.1.1 = true ∧ reads it.2 it.1.2) its →
  ∀ it res d suf,
    goString it.1.1 = true → reads it.2 it.1.2 →
    Consumed d = false →
    drop (pos d) (stream d) = concat (wireItem <$> (it :: its)) ++ "e"%char :: suf →
    ∃ fuel, dictLoop fuel res d
            = Ret (foldl insertEntry res ((it :: its).*1))
                  (set_pos d (pos d + length (concat (wireItem <$> (it :: its))) + 1)).
Proof.
  induction 1 as [|it' its [Hk' Hv'] Hall IH];
    intros [[k v] b] res d suf Hk [_ Hdec] Hc Hdrop; cbn [fst snd] in *.
  - destruct (readsKey_Legacy k Hk) as [_ Hkey].
    cbn [fmap list_fmap concat] in *. rewrite app_nil_r in *.
    unfold wireItem in *. cbn [fst snd] in *. rewrite <- app_assoc in Hdrop.
    pose proof (Hkey d _ Hdrop) as Hs.
    pose proof (drop_app_drop _ _ _ _ Hdrop) as Hd0.
    destruct (Hdec (set_pos d (pos d + length (Legacy.encodeString k))) ("e"%char :: suf)
                Hc Hd0) as [fuel Hf].
    exists (S fuel). rewrite dictLoop_S. unfold dictLoopBody. rewrite Hs, Hf.
    pose proof (drop_app_drop _ _ _ _ Hd0) as Hd1.
    pose proof (drop_length_eq _ _ _ _ Hd1) as Hlen.
    cbn [stream pos set_pos] in *.
    rewrite markConsumed_lt by (cbn [stream pos set_pos]; lia).
    cbn [stream pos set_pos].
    destruct (Nat.leb_spec (length (stream d))
                (pos d + length (Legacy.encodeString k) + length b)); [lia|].
    rewrite (drop_cons_lookup _ _ _ _ Hd1). change (Ascii.eqb "e" "e") with true.
    cbn match. cbn [foldl]. unfold insertEntry, set_pos. cbn [fst snd stream pos Consumed].
    rewrite length_app. do 2 f_equal. lia.
  - destruct (readsKey_Legacy k Hk) as [_ Hkey].
    cbn [fmap list_fmap concat] in Hdrop. rewrite <- app_assoc in Hdrop.
    unfold wireItem at 1 in Hdrop. cbn [fst snd] in Hdrop. rewrite <- app_assoc in Hdrop.
    pose proof (Hkey d _ Hdrop) as Hs.
    pose proof (drop_app_drop _ _ _ _ Hdrop) as Hd0.
    destruct (Hdec (set_pos d (pos d + length (Legacy.encodeString k))) _ Hc Hd0)
      as [fuel1 Hf1].
    pose proof (drop_app_drop _ _ _ _ Hd0) as Hd1.
    destruct (readsKey_Legacy it'.1.1 Hk') as [(c & r & Heq & Hcd) _].
    destruct (isDigit_not_special c Hcd) as (Hce & _).
    assert (Hd1' : drop (pos d + length (Legacy.encodeString k) + length b) (stream d)
                   = c :: r ++ it'.2 ++ concat (wireItem <$> its) ++ "e"%char :: suf).
    { rewrite Hd1. cbn [fmap list_fmap concat]. unfold wireItem at 1. rewrite Heq.
      cbn [app]. by rewrite <- !app_assoc. }
    pose proof (drop_length_eq _ _ _ _ Hd1') as Hlen.
    destruct (IH it' (<[k:=v]> res)
                (set_pos d (pos d + length (Legacy.encodeString k) + length b)) suf)
      as [fuel2 Hf2]; [done|done|done| |].
    { cbn [stream pos set_pos]. by rewrite Hd1. }
    exists (S (fuel1 `max` fuel2)). rewrite dictLoop_S. unfold dictLoopBody.
    rewrite Hs.
    rewrite (nextObject_fuel_ge fuel1 _ _ _ Hf1) by (done || lia).
    rewrite markConsumed_lt by (cbn [stream pos set_pos]; lia).
    cbn [stream pos set_pos Consumed] in *.
    destruct (Nat.leb_spec (length (stream d))
                (pos d + length (Legacy.encodeString k) + length b)); [lia|].
    rewrite (drop_cons_lookup _ _ _ _ Hd1'). rewrite Hce.
    rewrite (dictLoop_fuel_ge fuel2 _ _ _ _ Hf2) by (done || lia).
    cbn [foldl fmap list_fmap fst snd]. unfold insertEntry at 2. cbn [fst snd].
    cbn [concat].
    unfold wireItem at 3. cbn [fst snd]. rewrite !length_app. do 2 f_equal. lia.
Qed.

Lemma nextObject_dict_reads (its : list (string * Value * list ascii)) (d : Decoder)
    (suf : list ascii) :
  Forall (λ it, goString it.1.1 = true ∧ reads it.2 it.1.2) its →
  Consumed d = false →
  drop (pos d) (stream d) = "d"%char :: concat (wireItem <$> its) ++ "e"%char :: suf →
  ∃ fuel, nextObject fuel d
          = Ret (VDict (insertAll (its.*1)))
                (markConsumed (set_pos d (pos d + (length (concat (wireItem <$> its)) + 2)))).
Proof.
  intros Hall Hc Hdrop.
  pose proof (drop_cons_drop _ _ _ _ Hdrop) as Hd1.
  assert (Hhead : ∀ fuel, nextObject (S fuel) d
    = finish (result_map VDict (nextDictBody (dictLoop fuel) d))).
  { intros fuel. rewrite nextObject_S. unfold nextObjectBody. rewrite Hc.
    rewrite (drop_cons_lookup _ _ _ _ Hdrop).
    change (Ascii.eqb "d" "i") with false. change (Ascii.eqb "d" "l") with false.
    change (Ascii.eqb "d" "d") with true. done. }
  destruct its as [|it its].
  - exists 1. rewrite Hhead. unfold nextDictBody.
    rewrite (drop_cons_lookup _ _ _ _ Hdrop).
    change (Ascii.eqb "d" "d") with true. cbn [negb]. cbn match. cbn [stream pos set_pos].
    cbn [fmap list_fmap concat app] in Hd1.
    rewrite (drop_cons_lookup _ _ _ _ Hd1). change (Ascii.eqb "e" "e") with true.
    cbn [result_map finish fmap list_fmap concat length].
    do 2 f_equal. unfold set_pos. cbn [stream pos Consumed]. f_equal. lia.
  - apply Forall_cons in Hall as [[Hk Hv] Hall].
    destruct (dictLoop_reads its Hall it ∅ (set_pos d (pos d + 1)) suf Hk Hv Hc Hd1)
      as [fuel Hf].
    destruct (readsKey_Legacy it.1.1 Hk) as [(c & r & Heq & Hcd) _].
    destruct (isDigit_not_special c Hcd) as (Hce & _).
    exists (S fuel). rewrite Hhead. unfold nextDictBody.
    rewrite (drop_cons_lookup _ _ _ _ Hdrop).
    change (Ascii.eqb "d" "d") with true. cbn [negb]. cbn match. cbn [stream pos set_pos].
    assert (Hl1 : stream d !! (pos d + 1) = Some c).
    { eapply drop_cons_lookup. rewrite Hd1. cbn [fmap list_fmap concat].
      unfold wireItem at 1. rewrite Heq. cbn [app]. done. }
    rewrite Hl1, Hce. cbn [stream pos set_pos] in Hf. rewrite Hf.
    cbn [result_map finish app]. rewrite <- insertAll_foldl.
    do 2 f_equal. unfold set_pos. cbn [stream pos Consumed]. f_equal. lia.
Qed.

Lemma Forall2_zip_reads (R Q : Value → list ascii → Prop) (l : list Value)
    (objs : list (list ascii)) :
  Forall2 R l objs →
  (∀ x b, x ∈ l → R x b → Q x b) →
  Forall (λ vb, Q vb.1 vb.2) (zip l objs) ∧ (zip l objs).*1 = l ∧ (zip l objs).*2 = objs.
Proof.
  induction 1 as [|x b l objs Hxb Hall IH]; intros HQ; [done|].
  destruct IH as (IH1 & IH2 & IH3).
  { intros x' b' Hin. apply HQ. by right. }
  cbn [zip zip_with fmap list_fmap fst snd]. split_and!.
  - constructor; [|done]. apply HQ; [by left|done].
  - by f_equal.
  - by f_equal.
Qed.

Lemma Forall2_zip_items (R : Value → list ascii → Prop)
    (Q : string * Value → list ascii → Prop)
    (es : list (string * Value)) (entries : list (string * list ascii)) :
  Forall2 (λ kv e, e.1 = kv.1 ∧ R kv.2 e.2) es entries →
  (∀ kv b, kv ∈ es → R kv.2 b → Q kv b) →
  Forall (λ it, Q it.1 it.2) (zip es (entries.*2))
  ∧ (zip es (entries.*2)).*1 = es
  ∧ wireItem <$> zip es (entries.*2)
    = (λ e, Legacy.encodeString e.1 ++ e.2) <$> entries.
Proof.
  induction 1 as [|kv e es entries [Hk Hr] Hall IH]; intros HQ; [done|].
  destruct IH as (IH1 & IH2 & IH3).
  { intros kv' b' Hin. apply HQ. by right. }
  cbn [zip zip_with fmap list_fmap fst snd]. split_and!.
  - constructor; [|done]. apply HQ; [by left|done].
  - by f_equal.
  - f_equal; [|done]. unfold wireItem. cbn [fst snd]. destruct kv as [k v]. cbn in *.
    by rewrite Hk.
Qed.

(** Whatever a run of the older encoder returns for a value of Go is read
    back by [nextObject]. *)
Lemma reads_encodes (v : Value) :
  representable v = true → ∀ b, Legacy.encodes v b → reads b v.
Proof.
  induction v as [i|s|l IH|m IH] using Value_ind'; intros Hrep b Henc.
  - inversion Henc; subst.
    apply (readsBack_VInteger (λ _, encodeInteger i) i eq_refl).
    cbn [representable] in Hrep. unfold int64. lia.
  - inversion Henc; subst.
    by apply (readsBack_VString (λ _, Legacy.encodeString s) s eq_refl).
  - inversion Henc as [| |l' objs Hall|]; subst.
    apply representable_VList in Hrep.
    destruct (Forall2_zip_reads Legacy.encodes (λ x b, reads b x) l objs Hall)
      as (Hreads & Hfst & Hsnd).
    { intros x b' Hin. rewrite Forall_forall in IH, Hrep. by apply IH; [|apply Hrep]. }
    unfold Legacy.encodeListOf. rewrite foldl_app_concat. cbn [app].
    split; [by eexists _, _|]. intros d suf Hc Hdrop.
    cbn [app] in Hdrop. rewrite <- app_assoc in Hdrop. cbn [app] in Hdrop.
    rewrite <- Hsnd in Hdrop.
    destruct (nextObject_list_reads (zip l objs) d suf Hreads Hc Hdrop) as [fuel Hf].
    exists fuel. rewrite Hf, Hfst, Hsnd.
    do 3 f_equal. cbn [length]. rewrite length_app. cbn [length]. lia.
  - inversion Henc as [| | |m' es entries Hp Hall]; subst.
    apply representable_VDict in Hrep.
    destruct (Forall2_zip_items Legacy.encodes
                (λ kv b, goString kv.1 = true ∧ reads b kv.2) es entries Hall)
      as (Hreads & Hfst & Hwire).
    { intros [k x] b' Hin Hxb. rewrite Hp in Hin. apply elem_of_map_to_list in Hin.
      destruct (Hrep k x Hin) as [Hk Hx]. split; [done|]. by apply (IH k x Hin). }
    rewrite Legacy_encodeDictOf_eq.
    split; [by eexists _, _|]. intros d suf Hc Hdrop.
    cbn [app] in Hdrop. rewrite <- app_assoc in Hdrop. cbn [app] in Hdrop.
    rewrite <- Hwire in Hdrop.
    destruct (nextObject_dict_reads (zip es (entries.*2)) d suf Hreads Hc Hdrop)
      as [fuel Hf].
    exists fuel. rewrite Hf, Hfst, (insertAll_map_to_list m es Hp), Hwire.
    do 3 f_equal. cbn [length]. rewrite length_app. cbn [length]. lia.
Qed.

(** The run in which every map is iterated in the order of [map_to_list] is
    a run of the older encoder. *)
Lemma Legacy_encodes_encodeObject (v : Value) : Legacy.encodes v (Legacy.encodeObject v).
Proof.
  induction v as [i|s|l IH|m IH] using Value_ind'; cbn [Legacy.encodeObject].
  - constructor.
  - constructor.
  - constructor. apply Forall2_fmap_r, Forall_Forall2_diag. done.
  - apply (Legacy.encodes_Dict m (map_to_list m)); [done|].
    rewrite map_to_list_fmap. apply Forall2_fmap_r, Forall_Forall2_diag.
    apply Forall_forall. intros [k x] Hin. apply elem_of_map_to_list in Hin.
    split; [done|]. by apply (IH k x Hin).
Qed.

(** X25: every value of Go, empty parts included, is read back from the
    bytes that the older encoder returns for it, whatever the order in
    which the encoder's [range] loops have handed out the entries of the
    dictionaries, and whatever bytes [rest] follow. *)
Theorem Decode_Legacy_Encode (v : Value) (b rest : list ascii) :
  representable v = true →
  Legacy.encodes v b →
  let s := b ++ rest in
  Decode (NewDecoder s) = Ret v (mkDecoder s (length b) (bool_decide (rest = []))).
Proof.
  intros Hrep Henc. exact (Decode_readsBack (λ _, b) v rest (reads_encodes v Hrep b Henc)).
Qed.

Lemma Decode_Legacy_Encode_witness :
  let v := VDict (insertAll [("a"%string, VList []); ("b"%string, VInteger 2)]) in
  Decode (NewDecoder (bytes "d1:ale1:bi2ee")) = Ret v (mkDecoder (bytes "d1:ale1:bi2ee") 13 true)
  ∧ Decode (NewDecoder (bytes "d1:bi2e1:alee")) = Ret v (mkDecoder (bytes "d1:bi2e1:alee") 13 true).
Proof.
  intros v. split.
  - apply (Decode_Legacy_Encode v (bytes "d1:ale1:bi2ee") []); [vm_compute; reflexivity|].
    apply (Legacy.encodes_Dict _ [("a"%string, VList []); ("b"%string, VInteger 2)]
             [("a"%string, bytes "le"); ("b"%string, bytes "i2e")]).
    + vm_compute. first [reflexivity | apply perm_swap].
    + repeat constructor. apply (Legacy.encodes_List [] []). constructor.
  - apply (Decode_Legacy_Encode v (bytes "d1:bi2e1:alee") []); [vm_compute; reflexivity|].
    apply (Legacy.encodes_Dict _ [("b"%string, VInteger 2); ("a"%string, VList [])]
             [("b"%string, bytes "i2e"); ("a"%string, bytes "le")]).
    + vm_compute. first [reflexivity | apply perm_swap].
    + repeat constructor. apply (Legacy.encodes_List [] []). constructor.
Defined.
